(** * HyFS: identity resolution, content hashing, flat index, tags and tree view

    A shallow embedding of [src/notes/ref.py] and the properties its
    specification states about it.

    Conventions of the embedding:
    - a Python [str] is a [string] (its UTF-8 bytes), [bytes] is a [list byte];
    - the filesystem and its extended attributes are an explicit [World]
      threaded through every function that touches the disk;
    - a raised exception is the [Raise] case of [result];
    - unbounded recursion ([_build_tree_node]) takes fuel and raises
      [RecursionError] when it runs out, as the interpreter does. *)

From Stdlib Require Import ZArith List String Ascii DecimalString Lia.
From Stdlib Require Import Init.Byte.
From stdpp Require Import gmap strings list list_numbers.
From Equations Require Import Equations.
From Equations.Prop Require Import Logic.

#[local] Set Warnings "-clear-no-such-hyp".
Local Open Scope Z_scope.

(** ** Lowercase hexadecimal rendering *)

Module Hex.

Definition digit (n : Z) : ascii :=
match n with
| 0 => "0" | 1 => "1" | 2 => "2" | 3 => "3" | 4 => "4" | 5 => "5"
| 6 => "6" | 7 => "7" | 8 => "8" | 9 => "9" | 10 => "a" | 11 => "b"
| 12 => "c" | 13 => "d" | 14 => "e" | _ => "f"
end%char.

(** The [k]-th nibble of [x], counted from the least significant one. *)
Definition nibble (x : Z) (k : nat) : Z :=
Z.land (Z.shiftr x (4 * Z.of_nat k)) 15.

(** ['%0<n>x' % x]: the low [n] nibbles of [x], most significant first. *)
Fixpoint fixed (n : nat) (x : Z) : string :=
match n with
| O => EmptyString
| S k => String (digit (nibble x k)) (fixed k x)
end.

Definition is_lower_hex (c : ascii) : bool :=
let n := Z.of_N (N_of_ascii c) in
((48 <=? n) && (n <=? 57)) || ((97 <=? n) && (n <=? 102)).

Fixpoint all_chars (p : ascii -> bool) (s : string) : bool :=
match s with
| EmptyString => true
| String c r => p c && all_chars p r
end.

End Hex.

(** ** SHA-256 (FIPS 180-4), as [hashlib.sha256] computes it *)

Module SHA256.

Definition mask32 : Z := 0xFFFFFFFF.
Definition add32 (x y : Z) : Z := Z.land (x + y) mask32.
Definition rotr (n x : Z) : Z :=
Z.lor (Z.shiftr x n) (Z.land (Z.shiftl x (32 - n)) mask32).
Definition not32 (x : Z) : Z := Z.lxor x mask32.

Definition Ch (x y z : Z) := Z.lxor (Z.land x y) (Z.land (not32 x) z).
Definition Maj (x y z : Z) :=
Z.lxor (Z.lxor (Z.land x y) (Z.land x z)) (Z.land y z).
Definition bsig0 x := Z.lxor (Z.lxor (rotr 2 x) (rotr 13 x)) (rotr 22 x).
Definition bsig1 x := Z.lxor (Z.lxor (rotr 6 x) (rotr 11 x)) (rotr 25 x).
Definition ssig0 x := Z.lxor (Z.lxor (rotr 7 x) (rotr 18 x)) (Z.shiftr x 3).
Definition ssig1 x := Z.lxor (Z.lxor (rotr 17 x) (rotr 19 x)) (Z.shiftr x 10).

(** The largest [r'] that extends [r] by bits below [k] with [r' ^ e <= n]. *)
Fixpoint root_bits (k : nat) (e n r : Z) : Z :=
match k with
| O => r
| S k' =>
  let c := r + 2 ^ Z.of_nat k' in
  root_bits k' e n (if c ^ e <=? n then c else r)
end.

(** The first 32 bits of the fractional part of the [e]-th root of [p]. *)
Definition root_frac32 (e p : Z) : Z :=
Z.land (root_bits 36 e (p * 2 ^ (32 * e)) 0) mask32.

Definition primes64 : list Z :=
[ 2; 3; 5; 7; 11; 13; 17; 19; 23; 29; 31; 37; 41; 43; 47; 53;
59; 61; 67; 71; 73; 79; 83; 89; 97; 101; 103; 107; 109; 113; 127; 131;
137; 139; 149; 151; 157; 163; 167; 173; 179; 181; 191; 193; 197; 199;
211; 223; 227; 229; 233; 239; 241; 251; 257; 263; 269; 271; 277; 281;
283; 293; 307; 311 ].

(** Round constants: from the cube roots of the first 64 primes. *)
Definition K : list Z := Eval vm_compute in map (root_frac32 3) primes64.

(** The eight 32-bit words of a hash value, or of the working variables. *)
Record words8 : Type := W8 { wa : Z; wb : Z; wc : Z; wd : Z;
                           we : Z; wf : Z; wg : Z; wh : Z }.

(** Initial hash value: from the square roots of the first 8 primes. *)
Definition H0 : words8 :=
Eval vm_compute in
W8 (root_frac32 2 2) (root_frac32 2 3) (root_frac32 2 5) (root_frac32 2 7)
   (root_frac32 2 11) (root_frac32 2 13) (root_frac32 2 17) (root_frac32 2 19).

Definition byteZ (b : byte) : Z := Z.of_N (Byte.to_N b).

(** Big-endian 32-bit words of a block. *)
Fixpoint be_words (bs : list byte) : list Z :=
match bs with
| b0 :: b1 :: b2 :: b3 :: r =>
    (byteZ b0 * 16777216 + byteZ b1 * 65536 + byteZ b2 * 256 + byteZ b3)
    :: be_words r
| _ => []
end.

(** Message schedule, most recent word first: [extend k ws] appends [k]
  further words to the schedule [ws]. *)
Fixpoint extend (k : nat) (ws : list Z) : list Z :=
match k with
| O => ws
| S k' =>
    let w := add32 (add32 (ssig1 (nth 1 ws 0)) (nth 6 ws 0))
                   (add32 (ssig0 (nth 14 ws 0)) (nth 15 ws 0)) in
    extend k' (w :: ws)
end.

Definition schedule (block : list byte) : list Z :=
rev (extend 48 (rev (be_words block))).

Definition round (v : words8) (kw : Z * Z) : words8 :=
let '(W8 a b c d e f g h) := v in
let t1 := add32 (add32 (add32 h (bsig1 e)) (add32 (Ch e f g) (fst kw))) (snd kw) in
let t2 := add32 (bsig0 a) (Maj a b c) in
W8 (add32 t1 t2) a b c (add32 d t1) e f g.

Definition compress (hv : words8) (block : list byte) : words8 :=
let v := fold_left round (combine K (schedule block)) hv in
W8 (add32 (wa hv) (wa v)) (add32 (wb hv) (wb v))
   (add32 (wc hv) (wc v)) (add32 (wd hv) (wd v))
   (add32 (we hv) (we v)) (add32 (wf hv) (wf v))
   (add32 (wg hv) (wg v)) (add32 (wh hv) (wh v)).

Definition be_bytes8 (n : Z) : list byte :=
map (fun k => match Byte.of_N (Z.to_N (Z.land (Z.shiftr n (8 * Z.of_nat k)) 255)) with
              | Some b => b
              | None => x00
              end)
    [7; 6; 5; 4; 3; 2; 1; 0]%nat.

Definition pad (msg : list byte) : list byte :=
let len := Z.of_nat (length msg) in
msg ++ x80 :: repeat x00 (Z.to_nat ((55 - len) mod 64)) ++ be_bytes8 (8 * len).

(** Absorb [n] consecutive 64-byte blocks. *)
Fixpoint absorb (n : nat) (hv : words8) (bs : list byte) : words8 :=
match n with
| O => hv
| S k => absorb k (compress hv (take 64 bs)) (drop 64 bs)
end.

Definition digest_words (msg : list byte) : words8 :=
let p := pad msg in absorb (length p / 64) H0 p.

(** [sha256(msg).hexdigest()] *)
Definition hexdigest_of (msg : list byte) : string :=
let '(W8 a b c d e f g h) := digest_words msg in
Hex.fixed 8 a +:+ Hex.fixed 8 b +:+ Hex.fixed 8 c +:+ Hex.fixed 8 d +:+
Hex.fixed 8 e +:+ Hex.fixed 8 f +:+ Hex.fixed 8 g +:+ Hex.fixed 8 h.

(** The [hashlib] object: [update] feeds data, and the digest is that of
  the concatenation of everything fed so far (the library's contract). *)
Record hasher : Type := Hasher { fed : list byte }.
Definition new : hasher := Hasher [].
Definition update (h : hasher) (chunk : list byte) : hasher :=
Hasher (fed h ++ chunk).
Definition hexdigest (h : hasher) : string := hexdigest_of (fed h).

End SHA256.

(** ** Python values and exceptions *)

Inductive Errno : Type := ENOENT | ENODATA | ENOTSUP | EACCES.

Inductive Exn : Type :=
| OSError (errno : Errno)          (* includes FileNotFoundError, PermissionError *)
| ValueError (msg : string)
| UnicodeDecodeError               (* a ValueError, not an OSError *)
| TypeError
| KeyError (key : string)
| RecursionError.

Inductive result (A : Type) : Type :=
| Ok (a : A)
| Raise (e : Exn).
Arguments Ok {A} a.
Arguments Raise {A} e.

(** Truthiness of an optional string: [None] and [''] are falsy. *)
Definition truthy (o : option string) : bool :=
  match o with
  | Some (String _ _) => true
  | _ => false
  end.

(** [s[a:b]] and [s[a:]] for in-range bounds. *)
Definition slice (a b : nat) (s : string) : string := substring a (b - a) s.
Definition slice_from (a : nat) (s : string) : string :=
  substring a (String.length s - a) s.

(** [str(n)] for an [int]. *)
Definition str_int (n : Z) : string := NilZero.string_of_int (Z.to_int n).

(** [s.encode()]: strings already are their UTF-8 bytes. *)
Definition encode (s : string) : list byte := list_byte_of_string s.

(** The bytes an extended attribute holds: the UTF-8 encoding of a text, or
    bytes that are not UTF-8. *)
Inductive AttrBytes : Type :=
| Utf8 (text : string)
| NotUtf8 (raw : list byte).

(** [b.decode()] *)
Definition decode (b : AttrBytes) : result string :=
  match b with
  | Utf8 text => Ok text
  | NotUtf8 _ => Raise UnicodeDecodeError
  end.

(** [str(value).encode()], as the bytes of an attribute. *)
Definition encode_attr (value : string) : AttrBytes := Utf8 value.

(** ** [pathlib.Path] (POSIX flavour) *)

Record Path : Type := MkPath {
  anchored : bool;         (* starts at the root [/] *)
  parts : list string      (* the components after the anchor *)
}.

#[global] Instance Path_eq_dec : EqDecision Path.
Proof. solve_decision. Defined.

#[global] Instance Path_countable : Countable Path.
Proof.
  refine (inj_countable' (fun p => (anchored p, parts p))
                         (fun t => MkPath t.1 t.2) _).
  by intros [].
Defined.

Module PathOps.

(** [path.parent]: the anchor and the empty path are their own parent. *)
Definition parent (p : Path) : Path :=
MkPath (anchored p) (removelast (parts p)).

(** [path.name]: the final component, [''] when there is none. *)
Definition name (p : Path) : string := List.last (parts p) EmptyString.

Fixpoint is_prefix (l1 l2 : list string) : bool :=
match l1, l2 with
| [], _ => true
| x :: r1, y :: r2 => bool_decide (x = y) && is_prefix r1 r2
| _ :: _, [] => false
end.

(** [path.is_relative_to(other)] *)
Definition is_relative_to (p other : Path) : bool :=
bool_decide (anchored p = anchored other) && is_prefix (parts other) (parts p).

Fixpoint join (sep : string) (l : list string) : string :=
match l with
| [] => EmptyString
| [x] => x
| x :: r => x +:+ sep +:+ join sep r
end.

(** [str(path)] *)
Definition to_str (p : Path) : string :=
match anchored p, parts p with
| false, [] => "."
| false, l => join "/" l
| true, l => "/" +:+ join "/" l
end.

End PathOps.

(** ** The filesystem *)

Inductive FileKind : Type :=
| RegularFile (content : list byte)
| Directory
| Special.                   (* neither a regular file nor a directory *)

(** One filesystem entry.  [st_mtime] is kept as the text [str()] gives for
    it: the program only ever renders it.  Extended attributes can always be
    read back; [xattr_writable] says whether the filesystem accepts writes
    to them (false on a filesystem without user attributes, where [xattrs]
    is empty, and on a read-only one).  [readable] says whether opening the
    file and reading its content succeeds; the attributes are read through
    another call, and the two are kept independent.

    The attributes are kept with the entry of the path.  On disk they
    belong to the inode, so two paths with the same [st_dev] and [st_ino]
    (hard links) share them: what is stated about other paths is stated
    for paths of another inode. *)
Record Inode : Type := MkInode {
  kind : FileKind;
  st_dev : Z;
  st_ino : Z;
  st_mtime : string;
  xattrs : gmap string AttrBytes;
  xattr_writable : bool;
  readable : bool
}.

Abbreviation World := (gmap Path Inode).

Definition with_xattrs (i : Inode) (x : gmap string AttrBytes) : Inode :=
  MkInode (kind i) (st_dev i) (st_ino i) (st_mtime i) x (xattr_writable i) (readable i).

Module OS.

Definition stat (w : World) (p : Path) : result Inode :=
match w !! p with
| Some i => Ok i
| None => Raise (OSError ENOENT)
end.

Definition is_dir (w : World) (p : Path) : bool :=
match w !! p with
| Some (MkInode Directory _ _ _ _ _ _) => true
| _ => false
end.

Definition is_file (w : World) (p : Path) : bool :=
match w !! p with
| Some (MkInode (RegularFile _) _ _ _ _ _ _) => true
| _ => false
end.

(** [os.getxattr]: the bytes stored under [attr]. *)
Definition getxattr (w : World) (p : Path) (attr : string) : result AttrBytes :=
match w !! p with
| None => Raise (OSError ENOENT)
| Some i =>
    match xattrs i !! attr with
    | Some v => Ok v
    | None => Raise (OSError ENODATA)
    end
end.

(** [os.setxattr]: the write goes to the entry of [p]. *)
Definition setxattr (w : World) (p : Path) (attr : string) (value : AttrBytes)
: result unit * World :=
match w !! p with
| None => (Raise (OSError ENOENT), w)
| Some i =>
    if xattr_writable i
    then (Ok tt, <[p := with_xattrs i (<[attr := value]> (xattrs i))]> w)
    else (Raise (OSError ENOTSUP), w)
end.

Definition removexattr (w : World) (p : Path) (attr : string)
: result unit * World :=
match w !! p with
| None => (Raise (OSError ENOENT), w)
| Some i =>
    if xattr_writable i
    then match xattrs i !! attr with
         | Some _ => (Ok tt, <[p := with_xattrs i (delete attr (xattrs i))]> w)
         | None => (Raise (OSError ENODATA), w)
         end
    else (Raise (OSError ENOTSUP), w)
end.

(** [f.read(n)] on the unread rest [f] of a file: the chunk and the new rest. *)
Definition read (n : nat) (f : list byte) : list byte * list byte :=
(take n f, drop n f).

End OS.

(** ** A state-and-exception monad over the filesystem *)

Definition M (A : Type) : Type := World -> result A * World.

Definition ret {A} (a : A) : M A := fun w => (Ok a, w).
Definition raise {A} (e : Exn) : M A := fun w => (Raise e, w).
Definition bind {A B} (m : M A) (k : A -> M B) : M B :=
  fun w => match m w with
           | (Ok a, w') => k a w'
           | (Raise e, w') => (Raise e, w')
           end.
Definition get_world : M World := fun w => (Ok w, w).
(** Run a pure call that may raise. *)
Definition lift {A} (f : World -> result A) : M A := fun w => (f w, w).

Notation "'let!' x ':=' m 'in' k" := (bind m (fun x => k))
  (at level 10, x pattern, m at level 200, k at level 200).

(** ** Xattr helpers *)

Definition xattr_key (key : string) : string := "user.hyfs." +:+ key.

(** Get HyFS xattr value, return default if not found.  Only an [OSError]
    is caught: bytes that do not decode raise [UnicodeDecodeError]. *)
Definition _get_xattr (path : Path) (key : string) (default : option string)
  : M (option string) :=
  fun w => match OS.getxattr w path (xattr_key key) with
           | Ok b =>
               match decode b with
               | Ok v => (Ok (Some v), w)
               | Raise e => (Raise e, w)       (* not an OSError *)
               end
           | Raise (OSError _) => (Ok default, w)
           | Raise e => (Raise e, w)
           end.

(** Set HyFS xattr value, return True on success. *)
Definition _set_xattr (path : Path) (key value : string) : M bool :=
  fun w => match OS.setxattr w path (xattr_key key) (encode_attr value) with
           | (Ok _, w') => (Ok true, w')
           | (Raise (OSError _), w') => (Ok false, w')
           | (Raise e, w') => (Raise e, w')
           end.

(** Get xattr value, computing and storing if missing.
    Returns (value, stored_successfully). *)
Definition _ensure_xattr (path : Path) (key : string) (compute_fn : M string)
  : M (string * bool) :=
  let! value := _get_xattr path key None in
  match value with
  | Some v => ret (v, true)
  | None =>
      let! v := compute_fn in
      let! stored := _set_xattr path key v in
      ret (v, stored)
  end.

(** ** Identity Resolver *)

(** [uuid.uuid4()] as an integer, from the 16 random bytes [rnd] it draws. *)
Definition uuid4 (rnd : Z) : Z :=
  let i := Z.land rnd (Z.ones 128) in
  let i := Z.land i (Z.lnot (Z.shiftl 0xc000 48)) in
  let i := Z.lor i (Z.shiftl 0x8000 48) in
  let i := Z.land i (Z.lnot (Z.shiftl 0xf000 64)) in
  Z.lor i (Z.shiftl 4 76).

(** [str(u)] for a [uuid.UUID]. *)
Definition str_uuid (u : Z) : string :=
  let hex := Hex.fixed 32 u in
  slice 0 8 hex +:+ "-" +:+ slice 8 12 hex +:+ "-" +:+ slice 12 16 hex +:+ "-" +:+
  slice 16 20 hex +:+ "-" +:+ slice_from 20 hex.

(** [sha256(data).hexdigest()] *)
Definition sha256_hexdigest (data : list byte) : string :=
  SHA256.hexdigest (SHA256.update SHA256.new data).

(** Compute stable UUID for a path. Uses xattr if available, else
    deterministic hash from creation time.  [rnd] is the randomness that
    [uuid4] consumes when it is reached. *)
Definition _compute_eid (rnd : Z) (path : Path) : M string :=
  let! (ctime, _) := _ensure_xattr path "ctime"
                        (let! s := lift (fun w => OS.stat w path) in ret (st_mtime s)) in
  let! eid := _get_xattr path "uuid" None in
  if truthy eid then ret (default EmptyString eid) else
  let new_uuid := str_uuid (uuid4 rnd) in
  let! stored := _set_xattr path "uuid" new_uuid in
  if stored then ret new_uuid else
  let! s := lift (fun w => OS.stat w path) in
  let data := encode (str_int (st_dev s) +:+ ":" +:+ str_int (st_ino s) +:+ ":" +:+ ctime) in
  let hash_hex := sha256_hexdigest data in
  ret (slice 0 8 hash_hex +:+ "-" +:+ slice 8 12 hash_hex +:+ "-" +:+
       slice 12 16 hash_hex +:+ "-" +:+ slice 16 20 hash_hex +:+ "-" +:+
       slice 20 32 hash_hex).

(** ** Content Hasher *)

(** The loop [while chunk := f.read(n): h.update(chunk)]. *)
Equations? hash_chunks (n : nat) (h : SHA256.hasher) (f : list byte)
  : SHA256.hasher by wf (length f) lt :=
  hash_chunks n h f with inspect (OS.read n f) := {
    | exist _ ([], _) _ => h
    | exist _ (chunk, rest) E => hash_chunks n (SHA256.update h chunk) rest }.
Proof.
  match goal with H : take n f = _ :: _ |- _ => rename H into Hchunk end.
  destruct n as [|n]; [discriminate|].
  destruct f as [|x f]; [discriminate|].
  rewrite length_drop. simpl. lia.
Qed.

Definition chunk_size : nat := Z.to_nat 65536.

(** Compute SHA256 content hash for a file. Uses xattr cache if available.
    [open(path, 'rb')] raises [PermissionError] on a file the caller may
    not read. *)
Definition _compute_cid (path : Path) : M (option string) :=
  let! w := get_world in
  match w !! path with
  | Some (MkInode (RegularFile content) _ _ _ _ _ may_read) =>
      let! cached_cid := _get_xattr path "cid" None in
      if truthy cached_cid then ret cached_cid else
      if negb may_read then raise (OSError EACCES) else
      let h := hash_chunks chunk_size SHA256.new content in
      let cid := SHA256.hexdigest h in
      let! _ := _set_xattr path "cid" cid in
      ret (Some cid)
  | _ => ret None                       (* not path.is_file() *)
  end.

(** ** Nodes *)

Inductive NodeType : Type := TFile | TDir.     (* ['file'] and ['dir'] *)

(** An [FSNode] of the flat storage: one dict that holds [path], [eid] and
    [type] together with the keyword arguments given as [metadata].
    [cid_slot] is the ['cid'] key as the program has written it: [Some v]
    when it holds [v] (which is Python's [None] for a path that is not a
    file), [None] when the program has not written it; the key may then
    still come from [metadata]. *)
Record FSNode : Type := MkNode {
  path : Path;
  eid : string;
  type : NodeType;
  metadata : list (string * string);
  cid_slot : option (option string)
}.

(** [metadata.get(k)] and the metadata without the key [k]. *)
Definition meta_get (k : string) (metadata : list (string * string)) : option string :=
  snd <$> List.find (fun kv => bool_decide (kv.1 = k)) metadata.
Definition meta_del (k : string) (metadata : list (string * string))
  : list (string * string) :=
  List.filter (fun kv => negb (bool_decide (kv.1 = k))) metadata.

(** The ['cid'] key of the node's dict: [None] when ['cid' not in node]. *)
Definition cid_key (n : FSNode) : option (option string) :=
  match cid_slot n with
  | Some v => Some v
  | None => Some <$> meta_get "cid" (metadata n)
  end.

(** [node['cid'] = v] for [Some v], and [del node['cid']] for [None]. *)
Definition set_cid_slot (n : FSNode) (c : option (option string)) : FSNode :=
  MkNode (path n) (eid n) (type n) (meta_del "cid" (metadata n)) c.

(** A node of the tree view: a copy of the flat node and, for a directory,
    the ['children'] list. *)
#[local] Set Warnings "-register-all".
Inductive TreeNode : Type :=
| TNode (data : FSNode) (children : option (list TreeNode)).

(** ** Insertion-ordered dicts with string keys *)

Module Dict.

Definition t (V : Type) : Type := list (string * V).

Fixpoint get {V} (k : string) (d : t V) : option V :=
match d with
| [] => None
| (k', v) :: r => if decide (k = k') then Some v else get k r
end.

(** [d[k] = v]: an existing key keeps its position. *)
Fixpoint set {V} (k : string) (v : V) (d : t V) : t V :=
match d with
| [] => [(k, v)]
| (k', v') :: r =>
    if decide (k = k') then (k, v) :: r else (k', v') :: set k v r
end.

Definition values {V} (d : t V) : list V := map snd d.
Definition keys {V} (d : t V) : list string := map fst d.

End Dict.

(** ** [defaultdict(set)] *)

Module DefaultDict.

Abbreviation t := (gmap string (gset string)).

(** [d[k]]: a missing key is inserted with an empty set. *)
Definition getitem (d : t) (k : string) : gset string * t :=
match d !! k with
| Some s => (s, d)
| None => (∅, <[k := ∅]> d)
end.

(** [d[k].add(x)] *)
Definition add (d : t) (k x : string) : t :=
let '(s, d') := getitem d k in <[k := s ∪ {[x]}]> d'.

(** [d[k].discard(x)] *)
Definition discard (d : t) (k x : string) : t :=
let '(s, d') := getitem d k in <[k := s ∖ {[x]}]> d'.

(** [if not d[k]: del d[k]] *)
Definition del_if_empty (d : t) (k : string) : t :=
let '(s, d') := getitem d k in
if decide (s = ∅) then delete k d' else d'.

(** [d.get(k, set())] *)
Definition get (d : t) (k : string) : gset string := default ∅ (d !! k).

End DefaultDict.

(** ** [fnmatch.fnmatch] on POSIX: case-sensitive shell-style matching *)

Module Fnmatch.

Inductive item : Type :=
| Single (c : ascii)
| Range (lo hi : ascii).

Inductive token : Type :=
| Star                                 (* [*] *)
| AnyChar                              (* [?] *)
| Class (negated : bool) (items : list item)   (* [[seq]], [[!seq]] *)
| Lit (c : ascii).

Definition code (c : ascii) : N := N_of_ascii c.

(** The characters between the brackets, read left to right: [a-b] with a
  character on both sides is a range, anything else stands for itself. *)
Fixpoint class_items (l : list ascii) : list item :=
match l with
| [] => []
| a :: r =>
    match r with
    | dash :: b :: r' =>
        if Ascii.eqb dash "-" then Range a b :: class_items r'
        else Single a :: class_items r
    | _ => Single a :: class_items r
    end
end.

Definition class_token (stuff : list ascii) : token :=
match stuff with
| c :: r => if Ascii.eqb c "!" then Class true (class_items r)
            else Class false (class_items stuff)
| [] => Class false []
end.

Fixpoint find_close (l : list ascii) : option nat :=
match l with
| [] => None
| c :: r => if Ascii.eqb c "]" then Some O else S <$> find_close r
end.

(** The offset of the bracket that closes a class opened just before [l]:
  a leading [!] and a [']'] right after it do not close. *)
Definition bracket_end (l : list ascii) : option nat :=
let j1 := match l with
          | c :: _ => if Ascii.eqb c "!" then 1%nat else 0%nat
          | [] => 0%nat
          end in
let j2 := match drop j1 l with
          | c :: _ => if Ascii.eqb c "]" then S j1 else j1
          | [] => j1
          end in
(fun k => (j2 + k)%nat) <$> find_close (drop j2 l).

(** [fnmatch.translate], as tokens; [skip] characters were already
  consumed by a class. *)
Fixpoint translate_from (skip : nat) (pat : list ascii) : list token :=
match pat with
| [] => []
| c :: r =>
    match skip with
    | S k => translate_from k r
    | O =>
        if Ascii.eqb c "*" then Star :: translate_from 0 r
        else if Ascii.eqb c "?" then AnyChar :: translate_from 0 r
        else if Ascii.eqb c "[" then
          match bracket_end r with
          | None => Lit c :: translate_from 0 r
          | Some j => class_token (take j r) :: translate_from (S j) r
          end
        else Lit c :: translate_from 0 r
    end
end.

Definition in_item (c : ascii) (it : item) : bool :=
match it with
| Single a => Ascii.eqb c a
| Range lo hi => (code lo <=? code c)%N && (code c <=? code hi)%N
end.

Definition in_class (negated : bool) (items : list item) (c : ascii) : bool :=
xorb negated (existsb (in_item c) items).

(** Whole-string match of the translated pattern. *)
Fixpoint matches (ts : list token) (s : list ascii) : bool :=
match ts with
| [] => match s with [] => true | _ => false end
| Star :: ts' =>
    (fix star (s : list ascii) : bool :=
       matches ts' s || match s with [] => false | _ :: s' => star s' end) s
| AnyChar :: ts' =>
    match s with _ :: s' => matches ts' s' | [] => false end
| Class neg items :: ts' =>
    match s with c :: s' => in_class neg items c && matches ts' s' | [] => false end
| Lit a :: ts' =>
    match s with c :: s' => Ascii.eqb c a && matches ts' s' | [] => false end
end.

Definition translate (pat : string) : list token :=
translate_from 0 (list_ascii_of_string pat).

Definition fnmatch (name pat : string) : bool :=
matches (translate pat) (list_ascii_of_string name).

End Fnmatch.

(** ** The flat storage *)

Record HyFS : Type := MkHyFS {
  nodes : Dict.t FSNode;                 (* eid -> FSNode *)
  path_index : gmap Path string;         (* path -> eid *)
  children_index : DefaultDict.t;        (* parent_eid -> {child_eids} *)
  tags : DefaultDict.t;                  (* tag_name -> {eid, ...} *)
  eid_tags : DefaultDict.t               (* eid -> {tag_name, ...} *)
}.

Definition HyFS_init : HyFS := MkHyFS [] ∅ ∅ ∅ ∅.

Definition is_OSError (e : Exn) : bool :=
  match e with OSError _ => true | _ => false end.

(** [k in metadata] *)
Definition has_key (k : string) (metadata : list (string * string)) : bool :=
  existsb (fun kv => bool_decide (kv.1 = k)) metadata.

(** Add a node to the flat storage.  [eid] is the optional keyword argument;
    [rnd] is the randomness the Identity Resolver may consume.  A keyword
    in [**metadata] that names a parameter of [add_node] itself is refused
    when the call is bound, and [type=] clashes with the [type=] passed to
    [FSNode]: both raise [TypeError]. *)
Definition add_node (self : HyFS) (path : Path) (eid : option string) (rnd : Z)
    (metadata : list (string * string)) : M (string * HyFS) :=
  if has_key "self" metadata || has_key "path" metadata || has_key "eid" metadata
  then raise TypeError else
  let! eid := match eid with
              | None => _compute_eid rnd path
              | Some e => ret e
              end in
  let! w := get_world in
  if has_key "type" metadata then raise TypeError else
  let node := MkNode path eid (if OS.is_dir w path then TDir else TFile) metadata None in
  let nodes' := Dict.set eid node (nodes self) in
  let path_index' := <[path := eid]> (path_index self) in
  (* Update children index *)
  let parent_path := PathOps.parent path in
  let parent_eid := path_index' !! parent_path in
  let children_index' :=
    if truthy parent_eid
    then DefaultDict.add (children_index self) (default EmptyString parent_eid) eid
    else children_index self in
  ret (eid, MkHyFS nodes' path_index' children_index' (tags self) (eid_tags self)).

(** O(1) lookup by eid. *)
Definition get (self : HyFS) (eid : string) : result FSNode :=
  match Dict.get eid (nodes self) with
  | Some n => Ok n
  | None => Raise (KeyError eid)
  end.

(** Find node by path. *)
Definition find_by_path (self : HyFS) (path : Path) : option FSNode :=
  let eid := path_index self !! path in
  if truthy eid then Dict.get (default EmptyString eid) (nodes self) else None.

(** [for x in l: out.append(f(x))], stopping at the first exception. *)
Fixpoint for_each {A B} (f : A -> result B) (l : list A) : result (list B) :=
  match l with
  | [] => Ok []
  | x :: r =>
      match f x with
      | Raise e => Raise e
      | Ok y => match for_each f r with
                | Raise e => Raise e
                | Ok ys => Ok (y :: ys)
                end
      end
  end.

(** Recursively build tree structure for a node.  The child eids are
    visited in the order [elements] lists them; Python's set order is
    unspecified. *)
Fixpoint _build_tree_node (fuel : nat) (self : HyFS) (node : FSNode)
  : result TreeNode :=
  match fuel with
  | O => Raise RecursionError
  | S fuel' =>
      match type node with
      | TDir =>
          let child_eids := DefaultDict.get (children_index self) (eid node) in
          match for_each (fun child_eid =>
                            match get self child_eid with
                            | Raise e => Raise e
                            | Ok child_node => _build_tree_node fuel' self child_node
                            end)
                         (elements child_eids) with
          | Raise e => Raise e
          | Ok children => Ok (TNode node (Some children))
          end
      | TFile => Ok (TNode node None)
      end
  end.

(** The nodes with no parent in our set. *)
Definition find_roots (self : HyFS) : list FSNode :=
  let all := Dict.values (nodes self) in
  List.filter
    (fun node =>
       negb (existsb (fun other =>
                        PathOps.is_relative_to (path node) (path other)
                        && negb (bool_decide (path node = path other)))
                     all))
    all.

Definition AmbiguousRoot : Exn :=
  ValueError "Multiple roots found, specify root_path".
Definition NotFound (root_path : Path) : Exn :=
  ValueError ("Root path " +:+ PathOps.to_str root_path +:+ " not found in nodes").

(** Build hierarchical tree view from flat storage. *)
Definition tree (fuel : nat) (self : HyFS) (root_path : option Path)
  : result TreeNode :=
  let chosen :=
    match root_path with
    | None =>
        match find_roots self with
        | [r] => Ok (path r)
        | _ => Raise AmbiguousRoot
        end
    | Some p => Ok p
    end in
  match chosen with
  | Raise e => Raise e
  | Ok root_path =>
      match find_by_path self root_path with
      | None => Raise (NotFound root_path)
      | Some root_node => _build_tree_node fuel self root_node
      end
  end.

(** Filter nodes by predicate, returns flat list. *)
Definition filter (self : HyFS) (pred : FSNode -> bool) : list FSNode :=
  List.filter pred (Dict.values (nodes self)).

(** Find nodes matching glob pattern. *)
Definition find (self : HyFS) (pattern : string) : list FSNode :=
  filter self (fun n => Fnmatch.fnmatch (PathOps.name (path n)) pattern).

(** ** The tree view *)

Definition node_data (t : TreeNode) : FSNode :=
  match t with TNode d _ => d end.

(** [s * n] *)
Fixpoint str_mul (s : string) (n : nat) : string :=
  match n with
  | O => EmptyString
  | S n' => s +:+ str_mul s n'
  end.

Module TreeView.

(** Display tree node (works on tree view): the lines printed. *)
Fixpoint show (indent : nat) (self : TreeNode) : list string :=
match self with
| TNode d children =>
    (str_mul "    " indent +:+ PathOps.name (path d))
    :: match children with
       | Some l => flat_map (show (S indent)) l
       | None => []
       end
end.

(** Filter tree node recursively (works on tree view). *)
Fixpoint filter (pred : TreeNode -> bool) (self : TreeNode) : list TreeNode :=
match self with
| TNode d children =>
    (if pred self then [self] else [])
    ++ match children with
       | Some l => flat_map (filter pred) l
       | None => []
       end
end.

(** Find in tree node (works on tree view). *)
Definition find (pattern : string) (self : TreeNode) : list TreeNode :=
filter (fun n => Fnmatch.fnmatch (PathOps.name (path (node_data n))) pattern) self.

End TreeView.

(** ** Tags *)

(** Add a tag to an eid (idempotent). *)
Definition tag (self : HyFS) (eid tag : string) : HyFS :=
  MkHyFS (nodes self) (path_index self) (children_index self)
         (DefaultDict.add (tags self) tag eid)
         (DefaultDict.add (eid_tags self) eid tag).

(** Remove a tag from an eid (idempotent). *)
Definition untag (self : HyFS) (eid tag : string) : HyFS :=
  let tags1 := DefaultDict.discard (tags self) tag eid in
  let eid_tags1 := DefaultDict.discard (eid_tags self) eid tag in
  (* Clean up empty sets *)
  let tags2 := DefaultDict.del_if_empty tags1 tag in
  let eid_tags2 := DefaultDict.del_if_empty eid_tags1 eid in
  MkHyFS (nodes self) (path_index self) (children_index self) tags2 eid_tags2.

(** Get all eids with this tag: the set, and the index after the lookup. *)
Definition tagged (self : HyFS) (tag : string) : gset string * HyFS :=
  let '(s, tags') := DefaultDict.getitem (tags self) tag in
  (s, MkHyFS (nodes self) (path_index self) (children_index self)
             tags' (eid_tags self)).

(** Get all tags for this eid: the set, and the index after the lookup. *)
Definition tags_of (self : HyFS) (eid : string) : gset string * HyFS :=
  let '(s, eid_tags') := DefaultDict.getitem (eid_tags self) eid in
  (s, MkHyFS (nodes self) (path_index self) (children_index self)
             (tags self) eid_tags').

(** ** The lazy [cid] property and the refresh pass *)

(** [node.cid]: the value, and the node after the access. *)
Definition cid (self : FSNode) : M (option string * FSNode) :=
  match cid_key self with
  | Some v => ret (v, self)
  | None =>
      let! c := _compute_cid (path self) in
      ret (c, set_cid_slot self (Some c))
  end.

(** [try: os.removexattr(...) except OSError: pass] *)
Definition try_removexattr (path : Path) (attr : string) : M unit :=
  fun w => match OS.removexattr w path attr with
           | (Raise e, w') => if is_OSError e then (Ok tt, w') else (Raise e, w')
           | (Ok _, w') => (Ok tt, w')
           end.

(** The body of the loop of [update_cids], for one node. *)
Definition update_cids_body (node : FSNode) : M FSNode :=
  match type node with
  | TFile =>
      (* Clear node dict cache *)
      let node1 := set_cid_slot node None in
      (* Clear xattr cache to force recompute *)
      let! _ := try_removexattr (path node1) "user.hyfs.cid" in
      (* Now access will recompute from file content *)
      let! (_, node2) := cid node1 in
      ret node2
  | TDir => ret node
  end.

(** Update cids for a list of nodes (chainable), recomputing from disk. *)
Fixpoint update_cids (self : list FSNode) : M (list FSNode) :=
  match self with
  | [] => ret []
  | node :: rest =>
      let! node' := update_cids_body node in
      let! rest' := update_cids rest in
      ret (node' :: rest')
  end.

(** ** Populating the index *)

(** A sequence of [add_node] calls, each with its path, its optional [eid]
    argument and the randomness available to it. *)
Fixpoint add_nodes (hyfs : HyFS) (calls : list (Path * option string * Z)) : M HyFS :=
  match calls with
  | [] => ret hyfs
  | (path, eid, rnd) :: rest =>
      let! (_, hyfs') := add_node hyfs path eid rnd [] in
      add_nodes hyfs' rest
  end.

(** Scan filesystem and populate HyFS flat storage.  [listing] is what
    [[root_path] + list(root_path.rglob('*'))] enumerates, and [rnds] the
    randomness available to the successive [add_node] calls. *)
Fixpoint scan_calls (listing : list Path) (rnds : list Z)
  : list (Path * option string * Z) :=
  match listing with
  | [] => []
  | path :: rest => (path, None, hd 0 rnds) :: scan_calls rest (tl rnds)
  end.

Definition scan_fs (listing : list Path) (rnds : list Z) : M HyFS :=
  add_nodes HyFS_init (scan_calls listing rnds).

(** ** What the specification calls things *)

(** Consecutive groups of the given sizes. *)
Fixpoint groups (sizes : list nat) (cs : list ascii) : list string :=
  match sizes with
  | [] => []
  | n :: r => string_of_list_ascii (take n cs) :: groups r (drop n cs)
  end.

(** The fallback identifier as the specification words it: the first 32 hex
    characters of the digest of [device:inode:ctime], cut into groups of
    8, 4, 4, 4 and 12 characters joined by hyphens. *)
Definition spec_fallback_eid (dev ino : Z) (ctime : string) : string :=
  let digest := sha256_hexdigest
                  (encode (str_int dev +:+ ":" +:+ str_int ino +:+ ":" +:+ ctime)) in
  let first32 := take 32 (list_ascii_of_string digest) in
  PathOps.join "-" (groups [8; 4; 4; 4; 12]%nat first32).

(** Lowercase hex digits in the shape 8-4-4-4-12. *)
Fixpoint shaped (sizes : list nat) (cs : list ascii) : bool :=
  match sizes with
  | [] => match cs with [] => true | _ => false end
  | n :: r =>
      forallb Hex.is_lower_hex (take n cs)
      && bool_decide (length (take n cs) = n)
      && match r, drop n cs with
         | [], [] => true
         | _ :: _, c :: cs' => Ascii.eqb c "-" && shaped r cs'
         | _, _ => false
         end
  end.

Definition uuid_shaped (s : string) : bool :=
  shaped [8; 4; 4; 4; 12]%nat (list_ascii_of_string s).

(** The text an attribute of the entry decodes to, if it is stored and
    decodes. *)
Definition attr_text (i : Inode) (attr : string) : option string :=
  match xattrs i !! attr with
  | Some (Utf8 text) => Some text
  | _ => None
  end.

(** The attribute is absent or decodes: reading it does not raise. *)
Definition decodable (i : Inode) (attr : string) : Prop :=
  forall raw, xattrs i !! attr ≠ Some (NotUtf8 raw).

(** The creation-time marker of an entry: the stored [ctime] attribute, or
    else the modification time. *)
Definition ctime_marker (i : Inode) : string :=
  default (st_mtime i) (attr_text i (xattr_key "ctime")).

(** The world after the creation-time marker has been ensured. *)
Definition ensured (path : Path) (i : Inode) : Inode :=
  match xattrs i !! xattr_key "ctime" with
  | Some _ => i
  | None =>
      if xattr_writable i
      then with_xattrs i (<[xattr_key "ctime" := Utf8 (st_mtime i)]> (xattrs i))
      else i
  end.

(** The identifier the code builds on its fallback path. *)
Definition code_fallback_eid (s : Inode) (ctime : string) : string :=
  let data := encode (str_int (st_dev s) +:+ ":" +:+ str_int (st_ino s) +:+ ":" +:+ ctime) in
  let hash_hex := sha256_hexdigest data in
  slice 0 8 hash_hex +:+ "-" +:+ slice 8 12 hash_hex +:+ "-" +:+
  slice 12 16 hash_hex +:+ "-" +:+ slice 16 20 hash_hex +:+ "-" +:+
  slice 20 32 hash_hex.

(** No key of the dict maps to an empty set. *)
Definition no_empty_entry (d : gmap string (gset string)) : Prop :=
  forall k s, d !! k = Some s -> s ≠ ∅.

(** The states of the index that [tag] and [untag] calls lead to. *)
Inductive reachable_by_tagging : HyFS -> Prop :=
| reach_init : reachable_by_tagging HyFS_init
| reach_tag h e t : reachable_by_tagging h -> reachable_by_tagging (tag h e t)
| reach_untag h e t : reachable_by_tagging h -> reachable_by_tagging (untag h e t).

Definition mutual_inverse (h : HyFS) : Prop :=
  forall e t, e ∈ DefaultDict.get (tags h) t <-> t ∈ DefaultDict.get (eid_tags h) e.

(** The filesystem once the cached cid of [p] has been dropped, where the
    store allows it. *)
Definition cleared (p : Path) (w : World) : World :=
  match w !! p with
  | Some i =>
      if xattr_writable i
      then <[p := with_xattrs i (delete "user.hyfs.cid" (xattrs i))]> w
      else w
  | None => w
  end.

(** Same entries, of the same kind, content and writability. *)
Definition same_files (w w' : World) : Prop :=
  forall q, match w !! q, w' !! q with
            | Some i, Some i' =>
                kind i' = kind i /\ xattr_writable i' = xattr_writable i
            | None, None => True
            | _, _ => False
            end.

(** The cached cid of [q], where there can be one, is the digest of the
    content. *)
Definition fresh_at (w : World) (q : Path) : Prop :=
  forall i content,
    w !! q = Some i -> kind i = RegularFile content -> xattr_writable i = true ->
    xattrs i !! "user.hyfs.cid" = Some (Utf8 (sha256_hexdigest content)).

(** What the refresh pass leaves of a node [n], started in [w] and ended
    in [w']: a directory node is untouched; a file node carries a cid
    again, and where the store takes writes this cid is the digest of the
    file's content, cached in the store once more. *)
Definition refreshed (w w' : World) (n n' : FSNode) : Prop :=
  match type n with
  | TDir => n' = n
  | TFile =>
      exists v, n' = set_cid_slot n (Some v)
      /\ forall i content,
           w !! path n = Some i -> kind i = RegularFile content ->
           xattr_writable i = true ->
           v = Some (sha256_hexdigest content)
           /\ (_get_xattr (path n) "cid" None w').1 = Ok (Some (sha256_hexdigest content))
  end.

(** The refresh pass as the specification words it: on return the node has
    no cid and the store has none for its path. *)
Definition lazily_invalidated (w' : World) (n' : FSNode) : Prop :=
  cid_slot n' = None /\ (_get_xattr (path n') "cid" None w').1 = Ok None.

Definition children_closed (h : HyFS) : Prop :=
  forall k c, c ∈ DefaultDict.get (children_index h) k ->
              is_Some (Dict.get c (nodes h)).

Definition keys_consistent (h : HyFS) : Prop :=
  forall c n, Dict.get c (nodes h) = Some n -> eid n = c.

(** The sum of [mu] over the nodes of a tree. *)
Fixpoint tree_sum (mu : FSNode -> nat) (t : TreeNode) : nat :=
  match t with
  | TNode d None => mu d
  | TNode d (Some l) => mu d + sum_list_with (tree_sum mu) l
  end.

(** Total node count. *)
Definition tree_size (t : TreeNode) : nat := tree_sum (fun _ => 1%nat) t.

(** How many nodes of the tree carry the eid [x]. *)
Definition occurrences (x : string) (t : TreeNode) : nat :=
  tree_sum (fun d => if decide (eid d = x) then 1%nat else 0%nat) t.

Definition root_eid (t : TreeNode) : string :=
  match t with TNode d _ => eid d end.

(** Every directory node of the tree lists exactly the eids that the
    children index holds for it, every file node lists none. *)
Fixpoint children_match (h : HyFS) (t : TreeNode) : Prop :=
  match t with
  | TNode d None => type d = TFile
  | TNode d (Some l) =>
      type d = TDir
      /\ map root_eid l = elements (DefaultDict.get (children_index h) (eid d))
      /\ (fix all (l : list TreeNode) : Prop :=
            match l with
            | [] => True
            | t :: r => children_match h t /\ all r
            end) l
  end.

(** The entries of a population: a path and the eid given to it. *)
Definition node_of (w : World) (pe : Path * string) : FSNode :=
  MkNode pe.1 pe.2 (if OS.is_dir w pe.1 then TDir else TFile) [] None.

Definition explicit_calls (entries : list (Path * string))
  : list (Path * option string * Z) :=
  map (fun pe => (pe.1, Some pe.2, 0%Z)) entries.

(** [add_node] with an explicit eid, as a function of the index alone. *)
Definition add_entry (w : World) (h : HyFS) (pe : Path * string) : HyFS :=
  let path_index' := <[pe.1 := pe.2]> (path_index h) in
  let parent_eid := path_index' !! PathOps.parent pe.1 in
  MkHyFS (Dict.set pe.2 (node_of w pe) (nodes h)) path_index'
         (if truthy parent_eid
          then DefaultDict.add (children_index h) (default EmptyString parent_eid) pe.2
          else children_index h)
         (tags h) (eid_tags h).

(** Top-down order: the parent directory of every entry but the first was
    entered before it. *)
Fixpoint top_down_from (w : World) (seen : list Path) (l : list (Path * string)) : Prop :=
  match l with
  | [] => True
  | pe :: r =>
      (PathOps.parent pe.1 ∈ seen /\ OS.is_dir w (PathOps.parent pe.1) = true)
      /\ top_down_from w (seen ++ [pe.1]) r
  end.

(** The dict that holds [f pe] under the eid of each entry [pe]. *)
Definition as_dict {V : Type} (f : Path * string -> V) (l : list (Path * string))
  : Dict.t V :=
  (fun pe => (pe.2, f pe)) <$> l.

(** The index after the entries [done] have been added, in that order. *)
Record indexed (w : World) (done : list (Path * string)) (h : HyFS) : Prop := {
  idx_nodes : nodes h = as_dict (node_of w) done;
  idx_paths : forall p c, path_index h !! p = Some c <-> (p, c) ∈ done;
  idx_children : forall k c,
    c ∈ DefaultDict.get (children_index h) k -> c ∈ done.*2 /\ k ∈ done.*2
}.

(** An entry that may follow [done]: its path and eid are new, the eid is not
    empty, and the path is not its own parent. *)
Record admissible (done : list (Path * string)) (x : Path * string) : Prop := {
  adm_path : x.1 ∉ done.*1;
  adm_eid : x.2 ∉ done.*2;
  adm_nonempty : x.2 ≠ EmptyString;
  adm_parent : PathOps.parent x.1 ≠ x.1
}.

Definition nonempty_eids (done : list (Path * string)) : Prop :=
  forall pe, pe ∈ done -> pe.2 ≠ EmptyString.

(** Every node of the index builds, before and after a further entry. *)
Definition all_build (w : World) (done : list (Path * string)) (h : HyFS) : Prop :=
  forall pe, pe ∈ done -> exists fuel t, _build_tree_node fuel h (node_of w pe) = Ok t.

(** The tree at [root] holds every entry of [done] once. *)
Definition tree_covers (w : World) (root : Path * string)
    (done : list (Path * string)) (h : HyFS) : Prop :=
  exists fuel t,
    _build_tree_node fuel h (node_of w root) = Ok t
    /\ tree_size t = length done
    /\ forall x, occurrences x t = if decide (x ∈ done.*2) then 1%nat else 0%nat.

(** The node with eid [pe], under which a leaf is hung, is a directory. *)
Definition parent_is_dir (h : HyFS) (pe : string) : Prop :=
  forall n, Dict.get pe (nodes h) = Some n -> type n = TDir.

(** [t'] is [t] with the leaf [newnode] once under every occurrence of its
    parent [pe], provided that parent is a directory. *)
Definition grown (h : HyFS) (pe : string) (newnode : FSNode) (t t' : TreeNode) : Prop :=
  parent_is_dir h pe ->
  forall mu, tree_sum mu t' = (tree_sum mu t + occurrences pe t * mu newnode)%nat.

(** ** Further vocabulary *)

(** Two paths of one file: their entries have the same device and inode
    (the same path, or hard links). *)
Definition same_inode (w : World) (p q : Path) : Prop :=
  exists i j, w !! p = Some i /\ w !! q = Some j
              /\ st_dev i = st_dev j /\ st_ino i = st_ino j.

(** What a resolution may change on the filesystem: nothing at the paths of
    another inode, and at the path itself nothing but the [ctime] and
    [uuid] attributes, neither of them once it holds a usable value. *)
Definition only_identity_attrs_change (path : Path) (w w' : World) : Prop :=
  (forall q, ~ same_inode w q path -> w' !! q = w !! q)
  /\ match w !! path, w' !! path with
     | Some i, Some i' =>
         kind i' = kind i /\ st_dev i' = st_dev i /\ st_ino i' = st_ino i
         /\ st_mtime i' = st_mtime i /\ xattr_writable i' = xattr_writable i
         /\ readable i' = readable i
         /\ (forall k, k ≠ xattr_key "ctime" -> k ≠ xattr_key "uuid" ->
                       xattrs i' !! k = xattrs i !! k)
         /\ (forall c, xattrs i !! xattr_key "ctime" = Some c ->
                       xattrs i' !! xattr_key "ctime" = Some c)
         /\ (forall u, xattrs i !! xattr_key "uuid" = Some u -> u ≠ Utf8 EmptyString ->
                       xattrs i' !! xattr_key "uuid" = Some u)
     | None, None => True
     | _, _ => False
     end.

(** The states of the index that [tag], [untag], [tagged] and [tags_of]
    calls lead to. *)
Inductive reachable_by_tag_calls : HyFS -> Prop :=
| calls_init : reachable_by_tag_calls HyFS_init
| calls_tag h e t : reachable_by_tag_calls h -> reachable_by_tag_calls (tag h e t)
| calls_untag h e t : reachable_by_tag_calls h -> reachable_by_tag_calls (untag h e t)
| calls_tagged h t : reachable_by_tag_calls h -> reachable_by_tag_calls (tagged h t).2
| calls_tags_of h e : reachable_by_tag_calls h -> reachable_by_tag_calls (tags_of h e).2.

(** What every index built by [add_node] calls satisfies. *)
Record well_formed (h : HyFS) : Prop := {
  wf_keys : keys_consistent h;
  wf_children : children_closed h;
  wf_paths : forall p e, path_index h !! p = Some e -> is_Some (Dict.get e (nodes h));
  wf_nodes : forall e n, Dict.get e (nodes h) = Some n -> is_Some (path_index h !! path n)
}.

(** The nodes of a tree, parents before children. *)
Fixpoint tree_nodes (t : TreeNode) : list FSNode :=
  match t with
  | TNode d None => [d]
  | TNode d (Some l) => d :: flat_map tree_nodes l
  end.

(** What one turn of the refresh pass makes of the entry of a file node:
    the cid the node gets, or the exception, and the entry afterwards. *)
Definition refresh_inode (i : Inode) : result (option string) * Inode :=
  let i1 := if xattr_writable i
            then with_xattrs i (delete "user.hyfs.cid" (xattrs i))
            else i in
  match kind i1 with
  | RegularFile content =>
      match xattrs i1 !! "user.hyfs.cid" with
      | Some (NotUtf8 _) => (Raise UnicodeDecodeError, i1)
      | Some (Utf8 (String a s)) => (Ok (Some (String a s)), i1)
      | _ =>
          if readable i1
          then (Ok (Some (sha256_hexdigest content)),
                if xattr_writable i1
                then with_xattrs i1 (<["user.hyfs.cid" := Utf8 (sha256_hexdigest content)]>
                                       (xattrs i1))
                else i1)
          else (Raise (OSError EACCES), i1)
      end
  | _ => (Ok None, i1)
  end.

(** What a refresh pass may change on the filesystem: nothing at the paths
    of other inodes than those of [touched], and nowhere anything but the
    cached cid. *)
Definition only_cid_attr_changes (touched : list Path) (w w' : World) : Prop :=
  (forall q, (forall p, p ∈ touched -> ~ same_inode w q p) -> w' !! q = w !! q)
  /\ forall q, match w !! q, w' !! q with
               | Some i, Some i' =>
                   kind i' = kind i /\ st_dev i' = st_dev i /\ st_ino i' = st_ino i
                   /\ st_mtime i' = st_mtime i /\ xattr_writable i' = xattr_writable i
                   /\ readable i' = readable i
                   /\ forall k, k ≠ "user.hyfs.cid" -> xattrs i' !! k = xattrs i !! k
               | None, None => True
               | _, _ => False
               end.

(** The paths of the file nodes of a list. *)
Definition file_paths (ns : list FSNode) : list Path :=
  map path (List.filter (fun n => match type n with TFile => true | TDir => false end) ns).

(** The entry of [p] has been refreshed, with cid [v]. *)
Definition settled_at (w : World) (p : Path) (v : option string) : Prop :=
  match w !! p with
  | Some i => refresh_inode i = (Ok v, i)
  | None => v = None
  end.

(** Every listed attribute of the entry of [p], if there is one, is absent
    or decodes. *)
Definition resolvable (w : World) (p : Path) : Prop :=
  exists i, w !! p = Some i
            /\ decodable i (xattr_key "ctime") /\ decodable i (xattr_key "uuid").

(** ** Example filesystems *)

Module Examples.

Definition dir_inode (ino : Z) : Inode :=
MkInode Directory 2049 ino "1700000000.0" ∅ false true.

Definition file_inode (ino : Z) (content : string) : Inode :=
MkInode (RegularFile (list_byte_of_string content)) 2049 ino "1700000000.0" ∅ false true.

(** A scan of the current directory, [scan_fs('.')], without user xattrs. *)
Definition dot : Path := MkPath false [].
Definition docs : Path := MkPath false ["docs"].
Definition docs_a : Path := MkPath false ["docs"; "a.txt"].

Definition cwd_world : World :=
list_to_map [(dot, dir_inode 2); (docs, dir_inode 3); (docs_a, file_inode 4 "hello")].

Definition cwd_listing : list Path := [dot; docs; docs_a].

Definition cwd_index : HyFS :=
Eval vm_compute in
  match (scan_fs cwd_listing [] cwd_world).1 with
  | Ok h => h
  | Raise _ => HyFS_init
  end.

(** Two unrelated roots added by hand: the current directory and [/srv]. *)
Definition srv : Path := MkPath true ["srv"].

Definition two_roots_world : World :=
list_to_map [(dot, dir_inode 2); (srv, dir_inode 7)].

Definition two_roots_calls : list (Path * option string * Z) :=
[(dot, Some "eid-of-dot", 0); (srv, Some "eid-of-srv", 0)].

Definition two_roots_index : HyFS :=
Eval vm_compute in
  match (add_nodes HyFS_init two_roots_calls two_roots_world).1 with
  | Ok h => h
  | Raise _ => HyFS_init
  end.

(** A project with Python files at two depths. *)
Definition proj : Path := MkPath true ["proj"].
Definition a_py : Path := MkPath true ["proj"; "a.py"].
Definition b_txt : Path := MkPath true ["proj"; "b.txt"].
Definition proj_dir : Path := MkPath true ["proj"; "dir"].
Definition c_py : Path := MkPath true ["proj"; "dir"; "c.py"].

Definition proj_world : World :=
list_to_map [(proj, dir_inode 10); (a_py, file_inode 11 "print(1)");
             (b_txt, file_inode 12 "notes"); (proj_dir, dir_inode 13);
             (c_py, file_inode 14 "print(2)")].

Definition proj_index : HyFS :=
Eval vm_compute in
  match (scan_fs [proj; a_py; b_txt; proj_dir; c_py] [] proj_world).1 with
  | Ok h => h
  | Raise _ => HyFS_init
  end.

(** The same three files and nothing else, added by hand. *)
Definition flat_index : HyFS :=
Eval vm_compute in
  match (add_nodes HyFS_init
           [(a_py, Some "1", 0); (b_txt, Some "2", 0); (c_py, Some "3", 0)]
           proj_world).1 with
  | Ok h => h
  | Raise _ => HyFS_init
  end.

(** A file whose cid is cached, stale, both on the node and in the store. *)
Definition abc_txt : Path := MkPath true ["tmp"; "abc.txt"].

Definition stale_world : World :=
{[ abc_txt := MkInode (RegularFile (list_byte_of_string "abc")) 2049 21
                      "1700000000.5" {[ "user.hyfs.cid" := Utf8 "stale" ]} true true ]}.

Definition stale_node : FSNode :=
MkNode abc_txt "eid-abc" TFile [] (Some (Some "stale")).

Definition readonly_abc_inode : Inode :=
MkInode (RegularFile (list_byte_of_string "abc")) 2049 21 "1700000000.5" ∅ false true.

Definition readonly_abc_world : World := {[ abc_txt := readonly_abc_inode ]}.

(** The same file on a store that takes writes, with nothing cached yet. *)
Definition writable_abc_world : World :=
{[ abc_txt := MkInode (RegularFile (list_byte_of_string "abc")) 2049 21
                      "1700000000.5" ∅ true true ]}.

(** The project entered by hand, top-down, with eids of its own. *)
Definition proj_entries : list (Path * string) :=
  [(proj, "e0"); (a_py, "e1"); (b_txt, "e2");
   (proj_dir, "e3"); (c_py, "e4")]%string.

Definition writable_abc_inode : Inode :=
MkInode (RegularFile (list_byte_of_string "abc")) 2049 21 "1700000000.5" ∅ true true.

(** A file with a stale cached cid on a store that refuses writes. *)
Definition readonly_stale_world : World :=
{[ abc_txt := MkInode (RegularFile (list_byte_of_string "abc")) 2049 21
                      "1700000000.5" {[ "user.hyfs.cid" := Utf8 "stale" ]} false true ]}.

(** A file that the caller may neither read nor annotate. *)
Definition unreadable_abc_world : World :=
{[ abc_txt := MkInode (RegularFile (list_byte_of_string "abc")) 2049 21
                      "1700000000.5" ∅ false false ]}.

(** A file whose [uuid] attribute holds bytes that are not UTF-8. *)
Definition undecodable_uuid_world : World :=
{[ abc_txt := MkInode (RegularFile (list_byte_of_string "abc")) 2049 21
                      "1700000000.5" {[ "user.hyfs.uuid" := NotUtf8 [xff] ]} true true ]}.

End Examples.

(** Settle a decidable closed goal by evaluation. *)
Ltac by_computation :=
  match goal with
  | |- ?P => apply (bool_decide_unpack P); vm_compute; exact I
  end.

(** * Properties *)

(** ** Hex and digests *)

Lemma digit_is_lower_hex n : Hex.is_lower_hex (Hex.digit n) = true.
Proof.
  destruct n as [|p|p]; try reflexivity.
  do 4 (try destruct p as [p|p|]; try reflexivity).
Qed.

Lemma fixed_length n x : String.length (Hex.fixed n x) = n.
Proof. induction n as [|n IH]; simpl; [reflexivity | now rewrite IH]. Qed.

Lemma all_chars_app p s1 s2 :
  Hex.all_chars p (s1 +:+ s2) = Hex.all_chars p s1 && Hex.all_chars p s2.
Proof.
  induction s1 as [|c s1 IH]; simpl; [reflexivity|].
  rewrite IH. now rewrite andb_assoc.
Qed.

Lemma fixed_lower_hex n x : Hex.all_chars Hex.is_lower_hex (Hex.fixed n x) = true.
Proof.
  induction n as [|n IH]; simpl; [reflexivity|].
  now rewrite digit_is_lower_hex, IH.
Qed.

Lemma string_length_app (s1 s2 : string) :
  String.length (s1 +:+ s2) = (String.length s1 + String.length s2)%nat.
Proof. induction s1 as [|c s1 IH]; simpl; [reflexivity | now rewrite IH]. Qed.

Lemma hexdigest_of_length msg : String.length (SHA256.hexdigest_of msg) = 64%nat.
Proof.
  unfold SHA256.hexdigest_of. destruct (SHA256.digest_words msg).
  now rewrite !string_length_app, !fixed_length.
Qed.

Lemma hexdigest_of_lower_hex msg :
  Hex.all_chars Hex.is_lower_hex (SHA256.hexdigest_of msg) = true.
Proof.
  unfold SHA256.hexdigest_of. destruct (SHA256.digest_words msg).
  now rewrite !all_chars_app, !fixed_lower_hex.
Qed.

(** Feeding a file chunk by chunk feeds the hasher the whole file. *)
Lemma hash_chunks_fed n h f :
  (0 < n)%nat -> SHA256.fed (hash_chunks n h f) = SHA256.fed h ++ f.
Proof.
  intros Hn. funelim (hash_chunks n h f).
  - match goal with H : take n f = [] |- _ => rename H into Ht end.
    destruct n as [|n]; [lia|]. destruct f; [|discriminate].
    now rewrite app_nil_r.
  - match goal with H : take n f = _ :: _ |- _ => rename H into Ht end.
    match goal with IH : (0 < _)%nat -> _ |- _ => rewrite IH by assumption end.
    simpl. rewrite <- Ht, <- app_assoc. now rewrite take_drop.
Qed.

Lemma chunk_size_pos : (0 < chunk_size)%nat.
Proof. unfold chunk_size. lia. Qed.

Lemma hash_chunks_whole content :
  SHA256.hexdigest (hash_chunks chunk_size SHA256.new content)
  = sha256_hexdigest content.
Proof.
  unfold SHA256.hexdigest, sha256_hexdigest.
  now rewrite hash_chunks_fed by apply chunk_size_pos.
Qed.

(** ** The xattr helpers, in terms of the filesystem *)

#[local] Arguments sha256_hexdigest : simpl never.
#[local] Arguments str_uuid : simpl never.
#[local] Arguments uuid4 : simpl never.
#[local] Arguments xattr_key : simpl never.
#[local] Arguments hash_chunks : simpl never.

Lemma get_xattr_missing path key d w :
  w !! path = None -> _get_xattr path key d w = (Ok d, w).
Proof. intros H. unfold _get_xattr, OS.getxattr. now rewrite H. Qed.

Lemma get_xattr_present path key d w i :
  w !! path = Some i ->
  _get_xattr path key d w
  = match xattrs i !! xattr_key key with
    | Some (Utf8 v) => (Ok (Some v), w)
    | Some (NotUtf8 _) => (Raise UnicodeDecodeError, w)
    | None => (Ok d, w)
    end.
Proof.
  intros H. unfold _get_xattr, OS.getxattr. rewrite H.
  now destruct (xattrs i !! xattr_key key) as [[v|raw]|].
Qed.

Lemma set_xattr_missing path key v w :
  w !! path = None -> _set_xattr path key v w = (Ok false, w).
Proof. intros H. unfold _set_xattr, OS.setxattr. now rewrite H. Qed.

Lemma set_xattr_present path key v w i :
  w !! path = Some i ->
  _set_xattr path key v w
  = if xattr_writable i
    then (Ok true, <[path := with_xattrs i (<[xattr_key key := Utf8 v]> (xattrs i))]> w)
    else (Ok false, w).
Proof.
  intros H. unfold _set_xattr, OS.setxattr, encode_attr. rewrite H.
  now destruct (xattr_writable i).
Qed.

Lemma xattr_key_inj k1 k2 : xattr_key k1 = xattr_key k2 -> k1 = k2.
Proof. unfold xattr_key. cbn. intros H. now injection H. Qed.

Lemma str_uuid_truthy u : truthy (Some (str_uuid u)) = true.
Proof. reflexivity. Qed.

Lemma decodable_cases i attr :
  decodable i attr \/ exists raw, xattrs i !! attr = Some (NotUtf8 raw).
Proof.
  unfold decodable. destruct (xattrs i !! attr) as [[v|raw]|]; eauto; left; congruence.
Qed.

(** One resolution, case by case. *)
Lemma compute_eid_missing rnd path w :
  w !! path = None -> _compute_eid rnd path w = (Raise (OSError ENOENT), w).
Proof.
  intros H. unfold _compute_eid, _ensure_xattr, bind, lift, ret, OS.stat.
  rewrite (get_xattr_missing _ _ _ _ H). now rewrite H.
Qed.

Lemma compute_eid_undecodable_ctime rnd path w i raw :
  w !! path = Some i -> xattrs i !! xattr_key "ctime" = Some (NotUtf8 raw) ->
  _compute_eid rnd path w = (Raise UnicodeDecodeError, w).
Proof.
  intros H Hc. unfold _compute_eid, _ensure_xattr, bind.
  now rewrite (get_xattr_present _ _ _ _ _ H), Hc.
Qed.

Lemma ensure_ctime path w i :
  w !! path = Some i -> decodable i (xattr_key "ctime") ->
  _ensure_xattr path "ctime"
    (let! s := lift (fun w => OS.stat w path) in ret (st_mtime s)) w
  = (Ok (ctime_marker i,
         match xattrs i !! xattr_key "ctime" with
         | Some _ => true | None => xattr_writable i end),
     <[path := ensured path i]> w).
Proof.
  intros H Hd. unfold _ensure_xattr, bind, ctime_marker, attr_text, ensured.
  rewrite (get_xattr_present _ _ _ _ _ H).
  destruct (xattrs i !! xattr_key "ctime") as [[c|raw]|] eqn:Hc; simpl.
  - unfold ret. now rewrite insert_id by assumption.
  - now destruct (Hd raw).
  - unfold lift, ret, OS.stat. rewrite H.
    rewrite (set_xattr_present _ _ _ _ _ H).
    destruct (xattr_writable i); [reflexivity|]. now rewrite insert_id by assumption.
Qed.

Lemma ensured_uuid path i :
  xattrs (ensured path i) !! xattr_key "uuid" = xattrs i !! xattr_key "uuid".
Proof.
  unfold ensured. destruct (xattrs i !! xattr_key "ctime"); [reflexivity|].
  destruct (xattr_writable i); [|reflexivity]. simpl.
  apply lookup_insert_ne. intros E. apply xattr_key_inj in E. discriminate.
Qed.

Lemma ensured_writable path i : xattr_writable (ensured path i) = xattr_writable i.
Proof.
  unfold ensured. destruct (xattrs i !! xattr_key "ctime"); [reflexivity|].
  destruct (xattr_writable i) eqn:E; simpl; congruence.
Qed.

Lemma ensured_stat path i :
  st_dev (ensured path i) = st_dev i /\ st_ino (ensured path i) = st_ino i
  /\ st_mtime (ensured path i) = st_mtime i /\ kind (ensured path i) = kind i.
Proof.
  unfold ensured. destruct (xattrs i !! xattr_key "ctime"); [easy|].
  now destruct (xattr_writable i).
Qed.

Lemma ensured_decodable path i :
  decodable i (xattr_key "ctime") -> decodable (ensured path i) (xattr_key "ctime").
Proof.
  unfold ensured, decodable. intros Hd raw.
  destruct (xattrs i !! xattr_key "ctime") eqn:Hc; [now rewrite Hc|].
  destruct (xattr_writable i); [|now rewrite Hc].
  cbn [xattrs with_xattrs]. now rewrite lookup_insert_eq.
Qed.

Lemma ensured_twice path i : ensured path (ensured path i) = ensured path i.
Proof.
  unfold ensured at 2 3. destruct (xattrs i !! xattr_key "ctime") eqn:Hc.
  - unfold ensured. now rewrite Hc.
  - destruct (xattr_writable i) eqn:Hw.
    + unfold ensured. cbn [xattrs with_xattrs]. now rewrite lookup_insert_eq.
    + unfold ensured. now rewrite Hc, Hw.
Qed.

Lemma ctime_marker_ensured path i : ctime_marker (ensured path i) = ctime_marker i.
Proof.
  unfold ctime_marker, attr_text, ensured.
  destruct (xattrs i !! xattr_key "ctime") as [c|] eqn:Hc; [now rewrite Hc|].
  destruct (xattr_writable i); [|now rewrite Hc].
  cbn [xattrs with_xattrs st_mtime]. now rewrite lookup_insert_eq.
Qed.

Lemma compute_eid_present rnd path w i :
  w !! path = Some i -> decodable i (xattr_key "ctime") ->
  _compute_eid rnd path w =
  let i1 := ensured path i in
  match xattrs i !! xattr_key "uuid" with
  | Some (NotUtf8 _) => (Raise UnicodeDecodeError, <[path := i1]> w)
  | Some (Utf8 (String c u)) => (Ok (String c u), <[path := i1]> w)
  | _ =>
      if xattr_writable i
      then (Ok (str_uuid (uuid4 rnd)),
            <[path := with_xattrs i1 (<[xattr_key "uuid" := Utf8 (str_uuid (uuid4 rnd))]>
                                        (xattrs i1))]> w)
      else (Ok (code_fallback_eid i (ctime_marker i)), <[path := i1]> w)
  end.
Proof.
  intros H Hd. unfold _compute_eid. unfold bind at 1.
  rewrite (ensure_ctime _ _ _ H Hd).
  assert (H1 : <[path := ensured path i]> w !! path = Some (ensured path i))
    by apply lookup_insert_eq.
  unfold bind at 1. rewrite (get_xattr_present _ _ _ _ _ H1), ensured_uuid.
  destruct (xattrs i !! xattr_key "uuid") as [[[|c u]|raw]|] eqn:Hu; simpl;
    try reflexivity.
  all: unfold bind at 1; rewrite (set_xattr_present _ _ _ _ _ H1), ensured_writable.
  all: destruct (xattr_writable i); simpl.
  all: try (unfold ret; now rewrite insert_insert_eq).
  all: unfold bind, lift, ret, OS.stat; rewrite H1.
  all: unfold code_fallback_eid; destruct (ensured_stat path i) as (-> & -> & _); reflexivity.
Qed.

Lemma str_uuid_nonempty u : exists c r, str_uuid u = String c r.
Proof. unfold str_uuid. cbn. eauto. Qed.

Lemma ensured_read_only path i : xattr_writable i = false -> ensured path i = i.
Proof.
  intros H. unfold ensured. rewrite H.
  now destruct (xattrs i !! xattr_key "ctime").
Qed.

Lemma with_uuid_decodable i u :
  decodable i (xattr_key "ctime") ->
  decodable (with_xattrs i (<[xattr_key "uuid" := u]> (xattrs i))) (xattr_key "ctime").
Proof.
  unfold decodable. intros Hd raw. cbn [xattrs with_xattrs].
  rewrite lookup_insert_ne; [apply Hd|].
  intros E. apply xattr_key_inj in E. discriminate.
Qed.

(** ** Identity Resolver *)


Lemma code_fallback_is_spec i ctime :
  code_fallback_eid i ctime = spec_fallback_eid (st_dev i) (st_ino i) ctime.
Proof.
  unfold code_fallback_eid, spec_fallback_eid, sha256_hexdigest, SHA256.hexdigest.
  cbn [SHA256.update SHA256.new SHA256.fed app].
  unfold SHA256.hexdigest_of.
  destruct (SHA256.digest_words _) as [a b c d e f g h].
  reflexivity.
Qed.

Lemma spec_fallback_shaped dev ino ctime :
  uuid_shaped (spec_fallback_eid dev ino ctime) = true.
Proof.
  unfold uuid_shaped, spec_fallback_eid, sha256_hexdigest, SHA256.hexdigest.
  cbn [SHA256.update SHA256.new SHA256.fed app].
  unfold SHA256.hexdigest_of.
  destruct (SHA256.digest_words _) as [a b c d e f g h].
  cbv - [Hex.is_lower_hex Hex.digit Hex.nibble].
  now rewrite !digit_is_lower_hex.
Qed.

(** C2. When the creation-time marker can be read, no usable uuid is stored
    and the attribute store rejects the write of the new one, the resolver
    returns the fallback identifier, a function of the device, the inode
    and the creation-time marker alone: the first 32 hex digits of
    sha256("dev:inode:ctime"), lowercase, grouped 8-4-4-4-12.  The
    filesystem is left as it was.  (A [ctime] or [uuid] attribute that is
    not UTF-8 makes the lookup raise before any fallback is reached.) *)
Theorem fallback_eid_deterministic (rnd : Z) (path : Path) (w : World) (i : Inode) :
  w !! path = Some i ->
  (exists c, (_get_xattr path "ctime" None w).1 = Ok c) ->
  (exists o, (_get_xattr path "uuid" None w).1 = Ok o /\ truthy o = false) ->
  (_set_xattr path "uuid" (str_uuid (uuid4 rnd)) w).1 = Ok false ->
  _compute_eid rnd path w
  = (Ok (spec_fallback_eid (st_dev i) (st_ino i) (ctime_marker i)), w)
  /\ uuid_shaped (spec_fallback_eid (st_dev i) (st_ino i) (ctime_marker i)) = true.
Proof.
  intros Hw (c0 & Hctime) (o & Hget & Ho) Hset. split; [|apply spec_fallback_shaped].
  rewrite (get_xattr_present _ _ _ _ _ Hw) in Hget.
  rewrite (get_xattr_present _ _ _ _ _ Hw) in Hctime.
  rewrite (set_xattr_present _ _ _ _ _ Hw) in Hset.
  destruct (xattr_writable i) eqn:Hwr; [discriminate|].
  assert (Hd : decodable i (xattr_key "ctime")).
  { intros raw E. rewrite E in Hctime. discriminate. }
  rewrite (compute_eid_present _ _ _ _ Hw Hd). cbv zeta.
  rewrite Hwr, (ensured_read_only _ _ Hwr), insert_id by assumption.
  rewrite code_fallback_is_spec.
  destruct (xattrs i !! xattr_key "uuid") as [[[|c u]|raw]|]; try reflexivity.
  - injection Hget as <-. discriminate.
  - discriminate.
Qed.

(** ** Content Hasher *)

(** C7. [_compute_cid] returns [None] for a path that is not a file; for a
    file with no cached cid that the caller may read, it returns the
    SHA-256 hex digest of the whole content, 64 lowercase hex characters,
    although it reads the file in 64 KiB chunks.  (On a file it may not
    read, [open] raises.) *)
Theorem compute_cid_correct (path : Path) (w : World) :
  (OS.is_file w path = false -> _compute_cid path w = (Ok None, w))
  /\ (forall i content,
        w !! path = Some i -> kind i = RegularFile content ->
        readable i = true ->
        (_get_xattr path "cid" None w).1 = Ok None ->
        (_compute_cid path w).1 = Ok (Some (sha256_hexdigest content))
        /\ String.length (sha256_hexdigest content) = 64%nat
        /\ Hex.all_chars Hex.is_lower_hex (sha256_hexdigest content) = true).
Proof.
  split.
  - unfold OS.is_file, _compute_cid, bind, get_world.
    destruct (w !! path) as [[[]]|]; intros; try discriminate; reflexivity.
  - intros i content Hw Hk Hr Hget. split; [|split].
    + rewrite (get_xattr_present _ _ _ _ _ Hw) in Hget.
      unfold _compute_cid, bind at 1, get_world.
      rewrite Hw. destruct i as [k dev ino mt xs wr rd]. cbn in Hk, Hr. subst k rd.
      unfold bind at 1. rewrite (get_xattr_present _ _ _ _ _ Hw).
      destruct (xattrs _ !! xattr_key "cid") as [[v|raw]|]; [discriminate..|].
      cbn [truthy negb].
      rewrite hash_chunks_whole. unfold bind, ret.
      rewrite (set_xattr_present _ _ _ _ _ Hw). cbn [xattr_writable].
      now destruct wr.
    + apply hexdigest_of_length.
    + apply hexdigest_of_lower_hex.
Qed.

(** ** Tag Index *)

Section DefaultDictFacts.
Import DefaultDict.
Implicit Types (d : gmap string (gset string)) (k x : string).

Lemma getitem_fst d k : (getitem d k).1 = get d k.
Proof. unfold getitem, get. now destruct (d !! k). Qed.

Lemma getitem_snd_get d k k' : get (getitem d k).2 k' = get d k'.
Proof.
unfold getitem, get. destruct (d !! k) eqn:E; [reflexivity|]. cbn [snd].
destruct (decide (k = k')) as [->|Hne].
- now rewrite lookup_insert_eq, E.
- now rewrite lookup_insert_ne.
Qed.

Lemma get_add d k x k' :
get (add d k x) k' = if decide (k = k') then get d k ∪ {[x]} else get d k'.
Proof.
unfold add, getitem, get.
destruct (d !! k) eqn:E; destruct (decide (k = k')) as [->|Hne];
  rewrite ?lookup_insert_eq, ?lookup_insert_ne by assumption;
  rewrite ?lookup_insert_ne by assumption; reflexivity.
Qed.

Lemma get_discard d k x k' :
get (discard d k x) k' = if decide (k = k') then get d k ∖ {[x]} else get d k'.
Proof.
unfold discard, getitem, get.
destruct (d !! k) eqn:E; destruct (decide (k = k')) as [->|Hne];
  rewrite ?lookup_insert_eq, ?lookup_insert_ne by assumption;
  rewrite ?lookup_insert_ne by assumption; reflexivity.
Qed.

Lemma get_del_if_empty d k k' : get (del_if_empty d k) k' = get d k'.
Proof.
unfold del_if_empty, getitem, get.
destruct (d !! k) as [s|] eqn:E.
- destruct (decide (s = ∅)) as [->|]; [|reflexivity].
  destruct (decide (k = k')) as [->|Hne].
  + now rewrite lookup_delete_eq, E.
  + now rewrite lookup_delete_ne.
- rewrite decide_True by reflexivity.
  destruct (decide (k = k')) as [->|Hne].
  + now rewrite lookup_delete_eq, E.
  + now rewrite lookup_delete_ne, lookup_insert_ne.
Qed.

Lemma no_empty_entry_add d k x : no_empty_entry d -> no_empty_entry (add d k x).
Proof.
intros H k' s. unfold add, getitem.
destruct (d !! k) eqn:E; destruct (decide (k = k')) as [->|Hne];
  rewrite ?lookup_insert_eq, ?lookup_insert_ne by assumption;
  rewrite ?lookup_insert_ne by assumption;
  try (intros [= <-]; set_solver); apply H.
Qed.

Lemma no_empty_entry_discard d k x :
no_empty_entry d -> no_empty_entry (del_if_empty (discard d k x) k).
Proof.
intros H k' s. unfold del_if_empty, discard, getitem.
destruct (d !! k) as [s0|] eqn:E; rewrite !lookup_insert_eq.
all: destruct (decide (_ = ∅)) as [He|He].
all: destruct (decide (k = k')) as [->|Hne].
all: rewrite ?lookup_delete_eq, ?lookup_delete_ne by assumption.
all: rewrite ?lookup_insert_eq, ?lookup_insert_ne by assumption.
all: rewrite ?lookup_insert_ne by assumption.
all: try discriminate; try (intros [= <-]; assumption); try apply H.
Qed.

End DefaultDictFacts.

Lemma mutual_inverse_init : mutual_inverse HyFS_init.
Proof. intros e t. unfold DefaultDict.get. cbn. now rewrite !lookup_empty. Qed.

Lemma mutual_inverse_tag h e t : mutual_inverse h -> mutual_inverse (tag h e t).
Proof.
  intros Hinv e' t'. cbn [tag tags eid_tags]. rewrite !get_add.
  specialize (Hinv e' t').
  destruct (decide (t = t')) as [->|Ht]; destruct (decide (e = e')) as [->|He];
    set_solver.
Qed.

Lemma mutual_inverse_untag h e t : mutual_inverse h -> mutual_inverse (untag h e t).
Proof.
  intros Hinv e' t'. cbn [untag tags eid_tags].
  rewrite !get_del_if_empty, !get_discard.
  specialize (Hinv e' t').
  destruct (decide (t = t')) as [->|Ht]; destruct (decide (e = e')) as [->|He];
    set_solver.
Qed.

Lemma reachable_mutual_inverse h : reachable_by_tagging h -> mutual_inverse h.
Proof.
  induction 1; auto using mutual_inverse_init, mutual_inverse_tag, mutual_inverse_untag.
Qed.

(** C3. In every state reached from the empty index by [tag] and [untag]
    calls, an eid is in [tagged(t)] exactly when [t] is in [tags_of] that
    eid. *)
Theorem tag_mutual_inverse (h : HyFS) (e t : string) :
  reachable_by_tagging h ->
  e ∈ (tagged h t).1 <-> t ∈ (tags_of h e).1.
Proof.
  intros Hr. unfold tagged, tags_of.
  pose proof (getitem_fst (tags h) t) as Ht.
  pose proof (getitem_fst (eid_tags h) e) as He.
  destruct (DefaultDict.getitem (tags h) t) as [s1 d1].
  destruct (DefaultDict.getitem (eid_tags h) e) as [s2 d2].
  cbn [fst] in *. subst. now apply reachable_mutual_inverse.
Qed.

(** [tag] and [untag] alone never leave an empty entry behind. *)
Lemma tagging_leaves_no_empty_entry h :
  reachable_by_tagging h ->
  no_empty_entry (tags h) /\ no_empty_entry (eid_tags h).
Proof.
  induction 1 as [|h e t _ [IH1 IH2]|h e t _ [IH1 IH2]]; cbn [tag untag tags eid_tags].
  - split; intros k s; cbn; now rewrite lookup_empty.
  - split; now apply no_empty_entry_add.
  - split; now apply no_empty_entry_discard.
Qed.

(** C4. A lookup of an unknown tag leaves that tag in the index with an
    empty set; after [untag] has removed a tag's last eid the tag is gone,
    and asking [tagged] for it brings it back, empty.  The same holds for
    [tags_of] and the reverse map. *)
Theorem tagged_leaves_empty_entry :
  tags (tagged HyFS_init "draft").2 !! "draft" = Some ∅
  /\ eid_tags (tags_of HyFS_init "e1").2 !! "e1" = Some ∅
  /\ tags (untag (tag HyFS_init "e1" "draft") "e1" "draft") !! "draft" = None
  /\ tags (tagged (untag (tag HyFS_init "e1" "draft") "e1" "draft") "draft").2
       !! "draft" = Some ∅.
Proof. repeat split; vm_compute; reflexivity. Qed.

(** ** Tree Builder *)

Lemma dict_get_set {V} k k' (v : V) d :
  Dict.get k' (Dict.set k v d) = if decide (k' = k) then Some v else Dict.get k' d.
Proof.
  induction d as [|[k0 v0] d IH]; simpl.
  - reflexivity.
  - destruct (decide (k = k0)) as [->|Hne]; simpl.
    + destruct (decide (k' = k0)); reflexivity.
    + rewrite IH. destruct (decide (k' = k0)) as [->|]; [|reflexivity].
      now rewrite decide_False by congruence.
Qed.

Lemma add_node_ok h p e rnd md w eid' h' w' :
  add_node h p e rnd md w = (Ok (eid', h'), w') ->
  let node := MkNode p eid' (if OS.is_dir w' p then TDir else TFile) md None in
  nodes h' = Dict.set eid' node (nodes h)
  /\ path_index h' = <[p := eid']> (path_index h)
  /\ children_index h' =
       (if truthy (<[p := eid']> (path_index h) !! PathOps.parent p)
        then DefaultDict.add (children_index h)
               (default EmptyString (<[p := eid']> (path_index h) !! PathOps.parent p)) eid'
        else children_index h)
  /\ tags h' = tags h /\ eid_tags h' = eid_tags h.
Proof.
  unfold add_node, bind, get_world, ret, raise.
  destruct (has_key "self" md || has_key "path" md || has_key "eid" md); [discriminate|].
  destruct e as [e0|].
  - destruct (has_key "type" md); [discriminate|]. intros [= <- <- <-]. cbn. auto.
  - destruct (_compute_eid rnd p w) as [[x|ex] w1]; [|discriminate].
    destruct (has_key "type" md); [discriminate|]. intros [= <- <- <-]. cbn. auto.
Qed.

Lemma add_node_children_closed h p e rnd md w eid' h' w' :
  add_node h p e rnd md w = (Ok (eid', h'), w') ->
  children_closed h -> children_closed h'.
Proof.
  intros Hadd Hc. apply add_node_ok in Hadd. cbv zeta in Hadd.
  destruct Hadd as (Hn & _ & Hci & _). intros k c.
  rewrite Hn, Hci, dict_get_set.
  destruct (decide (c = eid')) as [->|Hne]; [eauto|].
  destruct (truthy _); [|apply Hc].
  rewrite get_add. destruct (decide _); [|apply Hc].
  rewrite elem_of_union, elem_of_singleton. intros [Hin|]; [|congruence].
  now apply Hc in Hin.
Qed.

Lemma add_nodes_children_closed calls : forall h w h',
  (add_nodes h calls w).1 = Ok h' -> children_closed h -> children_closed h'.
Proof.
  induction calls as [|[[p e] rnd] calls IH]; intros h w h'; simpl.
  - unfold ret. now intros [= <-].
  - unfold bind at 1.
    destruct (add_node h p e rnd [] w) as [[[x h1]|ex] w1] eqn:Hadd; [|discriminate].
    intros Hrest Hc. eapply IH; [exact Hrest|].
    eapply add_node_children_closed; eauto.
Qed.

Lemma children_closed_init : children_closed HyFS_init.
Proof. intros k c. unfold DefaultDict.get. cbn. rewrite lookup_empty. set_solver. Qed.

Lemma for_each_raise_inv {A B} (f : A -> result B) l e :
  for_each f l = Raise e -> exists x, In x l /\ f x = Raise e.
Proof.
  induction l as [|x l IH]; simpl; [discriminate|].
  destruct (f x) as [y|e'] eqn:Hx.
  - destruct (for_each f l) as [ys|e'']; [discriminate|].
    intros [= ->]. destruct IH as (x' & Hin & Hx'); eauto.
  - intros [= ->]. eauto.
Qed.

Lemma for_each_raises {A B} (f : A -> result B) l x e :
  In x l -> f x = Raise e ->
  (forall y e', In y l -> f y = Raise e' -> e' = e) ->
  for_each f l = Raise e.
Proof.
  intros Hin Hx Hall.
  destruct (for_each f l) as [ys|e'] eqn:Hfe.
  - exfalso. clear Hall. revert ys Hfe.
    induction l as [|y l IH]; simpl in *; [contradiction|].
    intros ys. destruct Hin as [->|Hin].
    + now rewrite Hx.
    + destruct (f y); [|discriminate].
      destruct (for_each f l); [|discriminate]. eauto.
  - apply for_each_raise_inv in Hfe as (y & Hy & Hfy).
    f_equal. eauto.
Qed.

(** On an index whose child eids all have nodes, running out of stack is
    the only way the builder fails. *)
Lemma build_only_recursion_error h :
  children_closed h ->
  forall fuel node e, _build_tree_node fuel h node = Raise e -> e = RecursionError.
Proof.
  intros Hc. induction fuel as [|fuel IH]; intros node e; simpl.
  - now intros [= <-].
  - destruct (type node); [discriminate|].
    destruct (for_each _ _) as [ts|e'] eqn:Hfe; [discriminate|].
    intros [= ->]. apply for_each_raise_inv in Hfe as (c & Hin & Hfc).
    apply list_elem_of_In, elem_of_elements, Hc in Hin as [cn Hcn].
    unfold get in Hfc. rewrite Hcn in Hfc. eauto.
Qed.

(** A directory node that is listed among its own children is never built:
    the recursion does not bottom out, whatever the stack allows. *)
Lemma self_child_never_builds h node :
  children_closed h ->
  type node = TDir ->
  Dict.get (eid node) (nodes h) = Some node ->
  eid node ∈ DefaultDict.get (children_index h) (eid node) ->
  forall fuel, _build_tree_node fuel h node = Raise RecursionError.
Proof.
  intros Hc Hty Hget Hin. induction fuel as [|fuel IH]; simpl; [reflexivity|].
  rewrite Hty.
  erewrite (for_each_raises _ _ (eid node) RecursionError); [reflexivity| | |].
  - now apply list_elem_of_In, elem_of_elements.
  - unfold get. now rewrite Hget.
  - intros y e' Hy. unfold get.
    apply list_elem_of_In, elem_of_elements, Hc in Hy as [cn ->].
    apply build_only_recursion_error, Hc.
Qed.

Lemma is_prefix_length l1 l2 :
  PathOps.is_prefix l1 l2 = true -> (length l1 <= length l2)%nat.
Proof.
  revert l2. induction l1 as [|x l1 IH]; intros [|y l2]; simpl; try lia; try discriminate.
  intros H. apply andb_prop in H as [_ H]. apply IH in H. lia.
Qed.

Lemma is_prefix_same_length l1 l2 :
  PathOps.is_prefix l1 l2 = true -> length l1 = length l2 -> l1 = l2.
Proof.
  revert l2. induction l1 as [|x l1 IH]; intros [|y l2]; simpl; try discriminate; auto.
  intros H [= Hlen]. apply andb_prop in H as [Hxy H].
  apply bool_decide_eq_true in Hxy. f_equal; auto.
Qed.

(** A proper ancestor has a shorter path. *)
Lemma proper_ancestor_shorter p other :
  PathOps.is_relative_to p other && negb (bool_decide (p = other)) = true ->
  (length (parts other) < length (parts p))%nat.
Proof.
  unfold PathOps.is_relative_to. intros H.
  apply andb_prop in H as [H Hne]. apply andb_prop in H as [Ha Hp].
  apply bool_decide_eq_true in Ha. apply negb_true_iff, bool_decide_eq_false in Hne.
  pose proof (is_prefix_length _ _ Hp) as Hle.
  destruct (decide (length (parts other) = length (parts p))) as [E|]; [|lia].
  exfalso. apply Hne. apply is_prefix_same_length in Hp; [|assumption].
  destruct p, other. cbn in *. congruence.
Qed.

Lemma shortest_exists (l : list FSNode) :
  l ≠ [] ->
  exists n, In n l /\ forall m, In m l ->
    (length (parts (path n)) <= length (parts (path m)))%nat.
Proof.
  induction l as [|a l IH]; [congruence|]. intros _.
  destruct l as [|b l].
  - exists a. split; [now left|]. intros m [<-|[]]. lia.
  - destruct IH as (n & Hin & Hmin); [discriminate|].
    destruct (le_lt_dec (length (parts (path a))) (length (parts (path n)))) as [Hle|Hlt].
    + exists a. split; [now left|]. intros m [<-|Hm]; [lia|].
      specialize (Hmin m Hm). lia.
    + exists n. split; [now right|]. intros m [<-|Hm]; [lia|]. now apply Hmin.
Qed.

(** Only the empty index has no ancestor-free node. *)
Lemma no_roots_iff_empty h : find_roots h = [] <-> nodes h = [].
Proof.
  split.
  - intros Hroots. destruct (nodes h) as [|kv d] eqn:Hn; [reflexivity|]. exfalso.
    destruct (shortest_exists (Dict.values (nodes h))) as (n & Hin & Hmin).
    { rewrite Hn. discriminate. }
    assert (Hroot : In n (find_roots h)).
    { unfold find_roots. apply filter_In. split; [assumption|].
      apply negb_true_iff. apply not_true_is_false. intros Hex.
      apply existsb_exists in Hex as (m & Hm & Hanc).
      apply proper_ancestor_shorter in Hanc. specialize (Hmin m Hm). lia. }
    now rewrite Hroots in Hroot.
  - intros Hn. unfold find_roots. now rewrite Hn.
Qed.

Lemma ambiguous_root_error fuel h :
  length (find_roots h) ≠ 1%nat -> tree fuel h None = Raise AmbiguousRoot.
Proof.
  unfold tree. destruct (find_roots h) as [|r [|r' l]]; simpl; congruence.
Qed.

Lemma unknown_root_not_found fuel h p :
  path_index h !! p = None -> tree fuel h (Some p) = Raise (NotFound p).
Proof. intros H. unfold tree, find_by_path. now rewrite H. Qed.

(** C10. With no explicit root, the builder fails with the "Multiple roots
    found" error whenever the number of ancestor-free nodes differs from
    one: also when there is none, as in the empty index.  That error is not
    the one for a missing root. *)
Theorem no_root_is_ambiguous (fuel : nat) (h : HyFS) :
  (length (find_roots h) ≠ 1%nat -> tree fuel h None = Raise AmbiguousRoot)
  /\ (find_roots h = [] -> tree fuel h None = Raise AmbiguousRoot)
  /\ (find_roots HyFS_init = [] /\ tree fuel HyFS_init None = Raise AmbiguousRoot)
  /\ (forall p, AmbiguousRoot ≠ NotFound p).
Proof.
  split; [apply ambiguous_root_error|].
  split; [intros H; apply ambiguous_root_error; now rewrite H|].
  split; [split; reflexivity|].
  intros p. unfold AmbiguousRoot, NotFound. cbn. discriminate.
Qed.

Lemma add_node_explicit w h p e rnd :
  add_node h p (Some e) rnd [] w = (Ok (e, add_entry w h (p, e)), w).
Proof. reflexivity. Qed.

Lemma add_nodes_explicit w entries : forall h,
  add_nodes h (explicit_calls entries) w = (Ok (fold_left (add_entry w) entries h), w).
Proof.
  induction entries as [|[p e] entries IH]; intros h; simpl; [reflexivity|].
  unfold bind at 1. rewrite add_node_explicit. apply IH.
Qed.

Lemma tree_sum_dir mu d l :
  tree_sum mu (TNode d (Some l)) = (mu d + sum_list_with (tree_sum mu) l)%nat.
Proof. reflexivity. Qed.

Lemma occurrences_dir x d l :
  occurrences x (TNode d (Some l))
  = ((if decide (eid d = x) then 1 else 0) + sum_list_with (occurrences x) l)%nat.
Proof. reflexivity. Qed.

Lemma for_each_perm {A B} (f : A -> result B) l l' :
  l ≡ₚ l' -> forall ys, for_each f l = Ok ys ->
  exists ys', for_each f l' = Ok ys' /\ ys ≡ₚ ys'.
Proof.
  induction 1 as [|x l l' Hp IH|x y l|l l' l'' Hp1 IH1 Hp2 IH2]; intros ys; simpl.
  - intros [= <-]. eauto.
  - destruct (f x) as [b|]; [|discriminate].
    destruct (for_each f l) as [bs|]; [|discriminate].
    intros [= <-]. destruct (IH _ eq_refl) as (bs' & -> & Hbs).
    eexists. split; [reflexivity|]. now constructor.
  - destruct (f y) as [b|]; [|discriminate].
    destruct (f x) as [a|]; [|discriminate].
    destruct (for_each f l) as [bs|]; [|discriminate].
    intros [= <-]. eexists. split; [reflexivity|]. apply perm_swap.
  - intros Hys. destruct (IH1 _ Hys) as (ys1 & H1 & Hq1).
    destruct (IH2 _ H1) as (ys2 & H2 & Hq2).
    exists ys2. split; [assumption|]. now transitivity ys1.
Qed.

Lemma for_each_ok_inv {A B} (f : A -> result B) x l ys :
  for_each f (x :: l) = Ok ys ->
  exists y ys', f x = Ok y /\ for_each f l = Ok ys' /\ ys = y :: ys'.
Proof.
  simpl. destruct (f x) as [y|]; [|discriminate].
  destruct (for_each f l) as [ys'|]; [|discriminate].
  intros [= <-]. eauto.
Qed.

Lemma build_unfold fuel h n :
  _build_tree_node (S fuel) h n =
  match type n with
  | TDir =>
      match for_each (fun c => match get h c with
                               | Raise ex => Raise ex
                               | Ok cn => _build_tree_node fuel h cn
                               end)
                     (elements (DefaultDict.get (children_index h) (eid n))) with
      | Raise ex => Raise ex
      | Ok children => Ok (TNode n (Some children))
      end
  | TFile => Ok (TNode n None)
  end.
Proof. reflexivity. Qed.

Lemma for_each_ext_in {A B} (f g : A -> result B) l :
  (forall x, In x l -> f x = g x) -> for_each f l = for_each g l.
Proof.
  induction l as [|x l IH]; intros H; simpl; [reflexivity|].
  rewrite (H x (or_introl eq_refl)), IH; [reflexivity|].
  intros y Hy. apply H. now right.
Qed.

(** Adding a node that nothing lists as a child, without touching the
    children index, changes no tree. *)
Lemma build_stable h h' e :
  (forall c, c ≠ e -> Dict.get c (nodes h') = Dict.get c (nodes h)) ->
  children_index h' = children_index h ->
  (forall k, e ∉ DefaultDict.get (children_index h) k) ->
  forall fuel n, _build_tree_node fuel h' n = _build_tree_node fuel h n.
Proof.
  intros Hnodes Hci Hfresh. induction fuel as [|fuel IH]; intros n; [reflexivity|].
  rewrite !build_unfold, Hci. destruct (type n); [reflexivity|].
  erewrite for_each_ext_in; [reflexivity|].
  intros c Hc. unfold get. rewrite Hnodes.
  - destruct (Dict.get c (nodes h)); [apply IH|reflexivity].
  - intros ->. apply (Hfresh (eid n)). now apply elem_of_elements, list_elem_of_In.
Qed.

Section AddLeaf.
Variables (h h' : HyFS) (pe e : string) (newnode : FSNode).
Hypothesis Hnodes : forall c, c ≠ e -> Dict.get c (nodes h') = Dict.get c (nodes h).
Hypothesis Hnew : Dict.get e (nodes h') = Some newnode.
Hypothesis Hci : forall k,
  DefaultDict.get (children_index h') k
  = if decide (pe = k) then DefaultDict.get (children_index h) pe ∪ {[e]}
    else DefaultDict.get (children_index h) k.
Hypothesis Hfresh : forall k, e ∉ DefaultDict.get (children_index h) k.
Hypothesis Hleaf : DefaultDict.get (children_index h) e = ∅.
Hypothesis Hpe : pe ≠ e.
Hypothesis Hkeys : keys_consistent h.
Hypothesis Hclosed : children_closed h.
Hypothesis Hnew_eid : eid newnode = e.

Local Abbreviation parent_is_dir := (parent_is_dir h pe).
Local Abbreviation grown := (grown h pe newnode).

Lemma new_leaf_builds fuel :
  exists t, _build_tree_node (S fuel) h' newnode = Ok t
            /\ forall mu, tree_sum mu t = mu newnode.
Proof.
  rewrite build_unfold. destruct (type newnode).
  - eexists. split; reflexivity.
  - rewrite Hnew_eid, Hci, decide_False, Hleaf, elements_empty by assumption.
    eexists. split; [reflexivity|]. intros mu. simpl. lia.
Qed.

(** The children of an old node, rebuilt in the new index. *)
Lemma old_children_rebuild fuel
  (IH : forall n t, Dict.get (eid n) (nodes h) = Some n ->
                    _build_tree_node fuel h n = Ok t ->
                    exists t', _build_tree_node (S fuel) h' n = Ok t' /\ grown t t')
  k l :
  (forall c, In c l -> c ∈ DefaultDict.get (children_index h) k) ->
  forall ts,
    for_each (fun c => match get h c with
                       | Raise ex => Raise ex
                       | Ok cn => _build_tree_node fuel h cn
                       end) l = Ok ts ->
    exists ts',
      for_each (fun c => match get h' c with
                         | Raise ex => Raise ex
                         | Ok cn => _build_tree_node (S fuel) h' cn
                         end) l = Ok ts'
      /\ (parent_is_dir ->
          forall mu, sum_list_with (tree_sum mu) ts'
                     = (sum_list_with (tree_sum mu) ts
                        + sum_list_with (occurrences pe) ts * mu newnode)%nat).
Proof.
  induction l as [|c l IHl]; intros Hin ts Hts.
  - injection Hts as <-. exists []. split; [reflexivity|]. intros _ mu. reflexivity.
  - apply for_each_ok_inv in Hts as (tc & ts0 & Hc & Hl & ->).
    destruct (IHl (fun c' Hc' => Hin c' (or_intror Hc')) _ Hl) as (ts0' & Hl' & Hsum).
    pose proof (Hin c (or_introl eq_refl)) as Hcin.
    assert (Hce : c ≠ e) by (intros ->; exact (Hfresh _ Hcin)).
    destruct (Hclosed _ _ Hcin) as [cn Hcn].
    unfold get in Hc. rewrite Hcn in Hc.
    pose proof (Hkeys _ _ Hcn) as Hk.
    destruct (IH cn tc) as (tc' & Hc' & Hsumc); [now rewrite Hk|assumption|].
    exists (tc' :: ts0'). split.
    + cbn [for_each]. unfold get at 1. rewrite (Hnodes _ Hce), Hcn, Hc', Hl'. reflexivity.
    + intros Hdir mu. cbn [sum_list_with]. rewrite (Hsumc Hdir), (Hsum Hdir). lia.
Qed.

(** Rebuilding any old node in the new index succeeds, with one more unit
    of fuel; where the parent is a directory the tree has grown by the new
    leaf. *)
Lemma build_after_add : forall fuel n t,
  Dict.get (eid n) (nodes h) = Some n ->
  _build_tree_node fuel h n = Ok t ->
  exists t', _build_tree_node (S fuel) h' n = Ok t' /\ grown t t'.
Proof.
  induction fuel as [|fuel IH]; intros n t Hn; [discriminate|].
  rewrite build_unfold, (build_unfold (S fuel)).
  destruct (type n) eqn:Hty.
  - intros [= <-]. eexists. split; [reflexivity|]. intros Hdir mu.
    unfold occurrences. cbn [tree_sum].
    destruct (decide (eid n = pe)) as [E|]; [|lia].
    rewrite E in Hn. apply Hdir in Hn. congruence.
  - destruct (for_each _ _) as [ts|] eqn:Hts; [|discriminate].
    intros [= <-].
    destruct (old_children_rebuild fuel IH (eid n) _
                (fun c Hc => proj1 (elem_of_elements _ _) (proj2 (list_elem_of_In _ _) Hc))
                _ Hts) as (ts' & Hts' & Hsum).
    rewrite Hci. destruct (decide (pe = eid n)) as [E|Hne].
    + destruct (new_leaf_builds fuel) as (tl & Htl & Hleafsum).
      assert (Hperm : e :: elements (DefaultDict.get (children_index h) (eid n))
                      ≡ₚ elements (DefaultDict.get (children_index h) pe ∪ {[e]})).
      { rewrite E, (union_comm_L _ {[e]}). symmetry.
        apply elements_union_singleton, Hfresh. }
      destruct (for_each_perm
                  (fun c => match get h' c with
                            | Raise ex => Raise ex
                            | Ok cn => _build_tree_node (S fuel) h' cn
                            end) _ _ Hperm (tl :: ts')) as (ts'' & Hts'' & Hp).
      { cbn [for_each]. unfold get at 1. rewrite Hnew, Htl, Hts'. reflexivity. }
      rewrite Hts''. eexists. split; [reflexivity|]. intros Hdir mu.
      rewrite !tree_sum_dir. rewrite <- Hp. cbn [sum_list_with].
      rewrite Hleafsum, (Hsum Hdir), occurrences_dir.
      rewrite decide_True by congruence. lia.
    + rewrite Hts'. eexists. split; [reflexivity|]. intros Hdir mu.
      rewrite !tree_sum_dir, (Hsum Hdir), occurrences_dir.
      rewrite decide_False by congruence. lia.
Qed.

End AddLeaf.

(** ** Populating the index with explicit eids *)

Lemma dict_set_fresh {V} k (v : V) d :
  Dict.get k d = None -> Dict.set k v d = d ++ [(k, v)].
Proof.
  induction d as [|[k0 v0] d IH]; simpl; [reflexivity|].
  destruct (decide (k = k0)); [discriminate|]. intros H. now rewrite IH.
Qed.

Section Entries.
Context {V : Type} (f : Path * string -> V).
Implicit Types (l : list (Path * string)).

Lemma as_dict_get_inv l c v :
  Dict.get c (as_dict f l) = Some v -> exists pe, pe ∈ l /\ pe.2 = c /\ v = f pe.
Proof.
  induction l as [|pe0 l IH]; simpl; [discriminate|].
  destruct (decide (c = pe0.2)) as [->|Hne].
  - intros [= <-]. exists pe0. split; [left|auto].
  - intros H. destruct (IH H) as (pe & Hin & Hk & Hv).
    exists pe. split; [now right|auto].
Qed.

Lemma as_dict_get_none l c : c ∉ l.*2 -> Dict.get c (as_dict f l) = None.
Proof.
  intros Hc. destruct (Dict.get c (as_dict f l)) as [v|] eqn:E; [|reflexivity].
  apply as_dict_get_inv in E as (pe & Hin & <- & _).
  exfalso. apply Hc. now apply list_elem_of_fmap_2.
Qed.

Lemma as_dict_get l pe :
  NoDup l.*2 -> pe ∈ l -> Dict.get pe.2 (as_dict f l) = Some (f pe).
Proof.
  induction l as [|pe0 l IH]; intros Hnd Hin; [now apply elem_of_nil in Hin|].
  cbn in Hnd. apply NoDup_cons in Hnd as [Hfresh Hnd]. simpl.
  apply elem_of_cons in Hin as [->|Hin].
  - now rewrite decide_True.
  - rewrite decide_False; [now apply IH|].
    intros E. apply Hfresh. rewrite <- E. now apply list_elem_of_fmap_2.
Qed.

Lemma as_dict_snoc l pe :
  pe.2 ∉ l.*2 -> Dict.set pe.2 (f pe) (as_dict f l) = as_dict f (l ++ [pe]).
Proof.
  intros H. rewrite dict_set_fresh by now apply as_dict_get_none.
  unfold as_dict. now rewrite fmap_app.
Qed.

End Entries.

Lemma NoDup_snd_unique (l : list (Path * string)) pe1 pe2 :
  NoDup l.*2 -> pe1 ∈ l -> pe2 ∈ l -> pe1.2 = pe2.2 -> pe1 = pe2.
Proof.
  induction l as [|pe0 l IH]; intros Hnd H1 H2 E; [now apply elem_of_nil in H1|].
  cbn in Hnd. apply NoDup_cons in Hnd as [Hfresh Hnd].
  apply elem_of_cons in H1 as [->|H1]; apply elem_of_cons in H2 as [->|H2]; auto.
  - exfalso. apply Hfresh. rewrite E. now apply list_elem_of_fmap_2.
  - exfalso. apply Hfresh. rewrite <- E. now apply list_elem_of_fmap_2.
Qed.

Lemma indexed_init w : indexed w [] HyFS_init.
Proof.
  split.
  - reflexivity.
  - intros p c. cbn. rewrite lookup_empty, elem_of_nil. split; [discriminate|tauto].
  - intros k c. unfold DefaultDict.get. cbn. rewrite lookup_empty. cbn. set_solver.
Qed.

Lemma indexed_keys w done h : indexed w done h -> keys_consistent h.
Proof.
  intros [Hn _ _] c n. rewrite Hn. intros H.
  now apply as_dict_get_inv in H as (pe & _ & <- & ->).
Qed.

Lemma indexed_closed w done h :
  NoDup done.*2 -> indexed w done h -> children_closed h.
Proof.
  intros Hnd [Hn _ Hc] k c Hin. apply Hc in Hin as [Hin _].
  apply list_elem_of_fmap in Hin as (pe & -> & Hpe).
  rewrite Hn, (as_dict_get _ _ _ Hnd Hpe). eauto.
Qed.

(** Where [add_node] hangs the new entry. *)
Lemma step_children_index w done h x :
  indexed w done h -> nonempty_eids done -> admissible done x ->
  children_index (add_entry w h x)
  = match path_index h !! PathOps.parent x.1 with
    | Some pe => DefaultDict.add (children_index h) pe x.2
    | None => children_index h
    end.
Proof.
  intros [_ Hp _] Hne [_ _ _ Hpar]. unfold add_entry. cbn [children_index].
  rewrite lookup_insert_ne by congruence.
  destruct (path_index h !! PathOps.parent x.1) as [pe|] eqn:E; [|reflexivity].
  apply Hp, Hne in E. cbn in E. now destruct pe.
Qed.

Lemma indexed_step w done h x :
  indexed w done h -> nonempty_eids done -> admissible done x ->
  indexed w (done ++ [x]) (add_entry w h x).
Proof.
  intros Hidx Hne Hadm. pose proof Hidx as [Hn Hp Hc].
  pose proof Hadm as [Hpf Hef _ _]. split.
  - cbn [add_entry nodes]. rewrite Hn. now apply (as_dict_snoc (node_of w) done x).
  - intros p' c. cbn [add_entry path_index].
    rewrite elem_of_app, list_elem_of_singleton.
    destruct x as [p e]. cbn [fst snd] in *.
    destruct (decide (p = p')) as [<-|Hne'].
    + rewrite lookup_insert_eq. split.
      * intros [= <-]. now right.
      * intros [Hin|[= <-]]; [|reflexivity].
        exfalso. apply Hpf. now apply (list_elem_of_fmap_2 fst _ (p, c)).
    + rewrite lookup_insert_ne by assumption. rewrite Hp. split; [auto|].
      intros [Hin|[= <- <-]]; [assumption|congruence].
  - intros k c. rewrite (step_children_index _ _ _ _ Hidx Hne Hadm).
    rewrite fmap_app, !elem_of_app. cbn. rewrite !list_elem_of_singleton.
    destruct (path_index h !! PathOps.parent x.1) as [pe|] eqn:E.
    + apply Hp in E. apply (list_elem_of_fmap_2 snd) in E. cbn in E.
      rewrite get_add. destruct (decide (pe = k)) as [<-|Hk].
      * rewrite elem_of_union, elem_of_singleton. intros [Hin| ->]; [|auto].
        apply Hc in Hin as [? ?]. auto.
      * intros Hin. apply Hc in Hin as [? ?]. auto.
    + intros Hin. apply Hc in Hin as [? ?]. auto.
Qed.

Lemma step_old_nodes w done h x c :
  indexed w done h -> admissible done x -> c ≠ x.2 ->
  Dict.get c (nodes (add_entry w h x)) = Dict.get c (nodes h).
Proof.
  intros _ _ Hc. cbn [add_entry nodes]. now rewrite dict_get_set, decide_False.
Qed.

Lemma step_new_node w done h x :
  indexed w done h -> admissible done x ->
  Dict.get x.2 (nodes (add_entry w h x)) = Some (node_of w x).
Proof.
  intros _ _. cbn [add_entry nodes]. now rewrite dict_get_set, decide_True.
Qed.

Lemma step_fresh w done h x k :
  indexed w done h -> admissible done x ->
  x.2 ∉ DefaultDict.get (children_index h) k.
Proof. intros [_ _ Hc] [_ Hef _ _] Hin. apply Hc in Hin as [Hin _]. contradiction. Qed.

Lemma step_leaf w done h x :
  indexed w done h -> admissible done x ->
  DefaultDict.get (children_index h) x.2 = ∅.
Proof.
  intros [_ _ Hc] [_ Hef _ _]. apply elem_of_equiv_empty_L.
  intros c Hin. apply Hc in Hin as [_ Hin]. contradiction.
Qed.

Lemma all_build_step w done h x :
  indexed w done h -> NoDup done.*2 -> nonempty_eids done -> admissible done x ->
  all_build w done h -> all_build w (done ++ [x]) (add_entry w h x).
Proof.
  intros Hidx Hnd Hne Hadm Hall pe Hin.
  pose proof (step_children_index _ _ _ _ Hidx Hne Hadm) as Hci.
  pose proof Hidx as [Hn Hp Hc].
  destruct (path_index h !! PathOps.parent x.1) as [ppe|] eqn:E.
  - assert (Hppe : ppe ≠ x.2).
    { intros ->. apply Hp, (list_elem_of_fmap_2 snd) in E. now apply Hadm in E. }
    assert (Hci' : forall k, DefaultDict.get (children_index (add_entry w h x)) k
                   = if decide (ppe = k)
                     then DefaultDict.get (children_index h) ppe ∪ {[x.2]}
                     else DefaultDict.get (children_index h) k)
      by (intros k; now rewrite Hci, get_add).
    apply elem_of_app in Hin as [Hin|Hin].
    + destruct (Hall pe Hin) as (fuel & t & Hb).
      destruct (build_after_add h (add_entry w h x) ppe x.2 (node_of w x))
        with (fuel := fuel) (n := node_of w pe) (t := t) as (t' & Hb' & _);
        eauto using step_old_nodes, step_new_node, step_fresh, step_leaf,
                    indexed_keys, indexed_closed.
      rewrite Hn. now apply (as_dict_get (node_of w)).
    + apply list_elem_of_singleton in Hin as ->.
      destruct (new_leaf_builds h (add_entry w h x) ppe x.2 (node_of w x))
        with (fuel := 0%nat) as (t & Hb & _);
        eauto using step_leaf.
  - apply elem_of_app in Hin as [Hin|Hin].
    + destruct (Hall pe Hin) as (fuel & t & Hb). exists fuel, t.
      rewrite (build_stable h (add_entry w h x) x.2);
        eauto using step_old_nodes, step_fresh.
    + apply list_elem_of_singleton in Hin as ->. exists 1%nat.
      rewrite build_unfold, Hci. cbn [node_of eid].
      rewrite (step_leaf _ _ _ _ Hidx Hadm), elements_empty. cbn [for_each].
      destruct (type _); eauto.
Qed.

Lemma NoDup_snoc_admissible (done : list (Path * string)) x rest :
  NoDup (done ++ x :: rest).*1 -> NoDup (done ++ x :: rest).*2 ->
  x.2 ≠ EmptyString -> PathOps.parent x.1 ≠ x.1 ->
  admissible done x /\ NoDup done.*2.
Proof.
  intros Hnd1 Hnd2 Hne Hpar.
  rewrite fmap_app in Hnd1. rewrite fmap_app in Hnd2. cbn in Hnd1, Hnd2.
  apply NoDup_app in Hnd1 as (_ & H1 & _). apply NoDup_app in Hnd2 as (Hnd & H2 & _).
  split; [split|]; try assumption.
  - intros H. apply (H1 _ H). now left.
  - intros H. apply (H2 _ H). now left.
Qed.

Lemma all_build_fold w rest : forall done h,
  indexed w done h -> all_build w done h ->
  NoDup (done ++ rest).*1 -> NoDup (done ++ rest).*2 ->
  (forall pe, pe ∈ done ++ rest -> pe.2 ≠ EmptyString) ->
  (forall pe, pe ∈ rest -> PathOps.parent pe.1 ≠ pe.1) ->
  indexed w (done ++ rest) (fold_left (add_entry w) rest h)
  /\ all_build w (done ++ rest) (fold_left (add_entry w) rest h).
Proof.
  induction rest as [|x rest IH]; intros done h Hidx Hall Hnd1 Hnd2 Hne Hpar.
  - now rewrite app_nil_r.
  - cbn [fold_left].
    destruct (NoDup_snoc_admissible done x rest Hnd1 Hnd2) as [Hadm Hnd].
    { apply Hne. apply elem_of_app. right. now left. }
    { apply Hpar. now left. }
    assert (Hne' : nonempty_eids done).
    { intros pe Hin. apply Hne. apply elem_of_app. now left. }
    rewrite (cons_middle x done rest), app_assoc in *.
    apply IH; try assumption.
    + now apply indexed_step.
    + now apply all_build_step.
    + intros pe Hin. apply Hpar. now right.
Qed.

Lemma build_root fuel h n t : _build_tree_node fuel h n = Ok t -> root_eid t = eid n.
Proof.
  destruct fuel as [|fuel]; [discriminate|]. rewrite build_unfold.
  destruct (type n); [now intros [= <-]|].
  destruct (for_each _ _); [|discriminate]. now intros [= <-].
Qed.

(** Whatever the builder returns lists, under each directory, the eids of
    the children index, and nothing under a file. *)
Lemma build_children_match h :
  keys_consistent h ->
  forall fuel n t, _build_tree_node fuel h n = Ok t -> children_match h t.
Proof.
  intros Hkeys. induction fuel as [|fuel IH]; intros n t; [discriminate|].
  rewrite build_unfold. destruct (type n) eqn:Hty; [now intros [= <-]|].
  destruct (for_each _ _) as [ts|] eqn:Hts; [|discriminate].
  intros [= <-]. cbn [children_match]. split; [assumption|].
  revert ts Hts.
  generalize (elements (DefaultDict.get (children_index h) (eid n))) as l.
  induction l as [|c l IHl]; intros ts Hts.
  - injection Hts as <-. auto.
  - apply for_each_ok_inv in Hts as (tc & ts0 & Hc & Hl & ->).
    destruct (IHl _ Hl) as [Hmap Hall].
    unfold get in Hc. destruct (Dict.get c (nodes h)) as [cn|] eqn:Hcn; [|discriminate].
    split.
    + cbn [map]. rewrite Hmap, (build_root _ _ _ _ Hc). f_equal. now apply Hkeys.
    + split; [eapply IH; eassumption|assumption].
Qed.

Lemma find_by_path_indexed w done h pe :
  indexed w done h -> NoDup done.*2 -> pe ∈ done -> pe.2 ≠ EmptyString ->
  find_by_path h pe.1 = Some (node_of w pe).
Proof.
  intros [Hn Hp _] Hnd Hin Hne. unfold find_by_path.
  assert (Hlook : path_index h !! pe.1 = Some pe.2) by (apply Hp; now destruct pe).
  rewrite Hlook. cbn [default]. unfold id.
  assert (Ht : truthy (Some pe.2) = true) by now destruct (pe.2).
  rewrite Ht, Hn. now apply (as_dict_get (node_of w)).
Qed.


(** ** Top-down populations *)

Lemma tree_covers_root w root :
  PathOps.parent root.1 ≠ root.1 ->
  tree_covers w root [root] (add_entry w HyFS_init root).
Proof.
  intros Hpar.
  assert (Hci : children_index (add_entry w HyFS_init root) = ∅).
  { unfold add_entry. cbn [path_index HyFS_init children_index].
    now rewrite lookup_insert_ne, lookup_empty by congruence. }
  exists 1%nat. rewrite build_unfold, Hci.
  unfold DefaultDict.get. rewrite lookup_empty. cbn [default].
  rewrite elements_empty. cbn [for_each].
  assert (Hocc : forall t, tree_sum (fun _ => 1%nat) t = 1%nat ->
            (forall x, occurrences x t = if decide (root.2 = x) then 1%nat else 0%nat) ->
            tree_size t = length [root]
            /\ forall x, occurrences x t
                         = if decide (x ∈ [root].*2) then 1%nat else 0%nat).
  { intros t Hs Ho. split; [exact Hs|]. intros x. rewrite Ho. cbn.
    destruct (decide (root.2 = x)) as [<-|Hx].
    - rewrite decide_True; [reflexivity|]. now left.
    - rewrite decide_False; [reflexivity|].
      intros H. apply list_elem_of_singleton in H. congruence. }
  destruct (type (node_of w root));
    (eexists; split; [reflexivity|]; apply Hocc; [reflexivity|]; intros x;
     unfold occurrences; cbn; destruct (decide (root.2 = x)); lia).
Qed.

Lemma tree_covers_step w root done h x :
  indexed w done h -> NoDup done.*2 -> nonempty_eids done -> admissible done x ->
  root ∈ done ->
  PathOps.parent x.1 ∈ done.*1 -> OS.is_dir w (PathOps.parent x.1) = true ->
  tree_covers w root done h ->
  tree_covers w root (done ++ [x]) (add_entry w h x).
Proof.
  intros Hidx Hnd Hne Hadm Hroot Hpar Hdir (fuel & t & Hbuild & Hsize & Hocc).
  pose proof (step_children_index _ _ _ _ Hidx Hne Hadm) as Hci.
  pose proof Hidx as [Hn Hp Hc].
  apply list_elem_of_fmap in Hpar as ([pp ppe] & Epp & Hppin). cbn in Epp.
  assert (Hlook : path_index h !! PathOps.parent x.1 = Some ppe)
    by (rewrite Epp; now apply Hp).
  rewrite Hlook in Hci.
  assert (Hppe_in : ppe ∈ done.*2) by now apply (list_elem_of_fmap_2 snd _ (pp, ppe)).
  assert (Hppe : ppe ≠ x.2) by (intros ->; now apply Hadm in Hppe_in).
  destruct (build_after_add h (add_entry w h x) ppe x.2 (node_of w x))
    with (fuel := fuel) (n := node_of w root) (t := t) as (t' & Hb' & Hgrown);
    eauto using step_old_nodes, step_new_node, step_fresh, step_leaf,
                indexed_keys, indexed_closed.
  { intros k. now rewrite Hci, get_add. }
  { rewrite Hn. now apply (as_dict_get (node_of w)). }
  assert (Hsum : forall mu, tree_sum mu t'
                 = (tree_sum mu t + occurrences ppe t * mu (node_of w x))%nat).
  { apply Hgrown. intros n. rewrite Hn. intros Hget.
    apply as_dict_get_inv in Hget as (pe' & Hin' & Hk & ->).
    assert (pe' = (pp, ppe)) as -> by (apply (NoDup_snd_unique done); auto).
    unfold node_of. cbn [fst type]. now rewrite <- Epp, Hdir. }
  exists (S fuel), t'. split; [exact Hb'|]. split.
  - unfold tree_size. rewrite Hsum. fold (tree_size t).
    rewrite Hsize, Hocc, decide_True by assumption.
    rewrite length_app. cbn. lia.
  - intros y. unfold occurrences at 1. rewrite Hsum. fold (occurrences y t).
    rewrite (Hocc ppe), (decide_True (P := ppe ∈ done.*2)) by assumption.
    rewrite (Hocc y). cbn [node_of eid]. rewrite fmap_app. cbn.
    destruct (decide (x.2 = y)) as [<-|Hy].
    + rewrite decide_False by apply Hadm.
      rewrite decide_True; [lia|]. apply elem_of_app. right. now left.
    + destruct (decide (y ∈ done.*2)) as [Hin|Hnin].
      * rewrite decide_True; [lia|]. apply elem_of_app. now left.
      * rewrite decide_False; [lia|]. rewrite elem_of_app, list_elem_of_singleton.
        intros [?|?]; congruence.
Qed.

Lemma tree_covers_fold w root rest : forall done h,
  indexed w done h -> tree_covers w root done h -> root ∈ done ->
  NoDup (done ++ rest).*1 -> NoDup (done ++ rest).*2 ->
  (forall pe, pe ∈ done ++ rest -> pe.2 ≠ EmptyString) ->
  top_down_from w done.*1 rest ->
  indexed w (done ++ rest) (fold_left (add_entry w) rest h)
  /\ tree_covers w root (done ++ rest) (fold_left (add_entry w) rest h).
Proof.
  induction rest as [|x rest IH]; intros done h Hidx Hcov Hroot Hnd1 Hnd2 Hne Htd.
  - now rewrite app_nil_r.
  - cbn [fold_left]. destruct Htd as [[Hpar Hdir] Htd].
    destruct (NoDup_snoc_admissible done x rest Hnd1 Hnd2) as [Hadm Hnd].
    { apply Hne. apply elem_of_app. right. now left. }
    { intros E. rewrite E in Hpar.
      rewrite fmap_app in Hnd1. apply NoDup_app in Hnd1 as (_ & H1 & _).
      apply (H1 _ Hpar). now left. }
    assert (Hne' : nonempty_eids done).
    { intros pe Hin. apply Hne. apply elem_of_app. now left. }
    rewrite (cons_middle x done rest), app_assoc in *.
    apply IH; try assumption.
    + now apply indexed_step.
    + now apply tree_covers_step.
    + apply elem_of_app. now left.
    + now rewrite fmap_app.
Qed.


(** C5. After [scan_fs('.')] over a directory holding one sub-directory and
    one file, three nodes are indexed and the current directory is the only
    candidate root, yet no tree is built: the root is listed among its own
    children and the recursion never ends, with or without [root_path]. *)
Theorem scan_of_cwd_never_builds :
  (scan_fs Examples.cwd_listing [] Examples.cwd_world).1 = Ok Examples.cwd_index
  /\ length (nodes Examples.cwd_index) = 3%nat
  /\ map path (find_roots Examples.cwd_index) = [Examples.dot]
  /\ (forall fuel, tree fuel Examples.cwd_index (Some Examples.dot) = Raise RecursionError)
  /\ (forall fuel, tree fuel Examples.cwd_index None = Raise RecursionError).
Proof.
  assert (Hscan : (scan_fs Examples.cwd_listing [] Examples.cwd_world).1
                  = Ok Examples.cwd_index)
    by (vm_compute; reflexivity).
  assert (Hc : children_closed Examples.cwd_index).
  { eapply add_nodes_children_closed; [exact Hscan | apply children_closed_init]. }
  assert (Hroots : map path (find_roots Examples.cwd_index) = [Examples.dot])
    by (vm_compute; reflexivity).
  destruct (find_by_path Examples.cwd_index Examples.dot) as [n|] eqn:Hf;
    [|vm_compute in Hf; discriminate].
  assert (Hbuild : forall fuel, _build_tree_node fuel Examples.cwd_index n
                                = Raise RecursionError).
  { vm_compute in Hf. injection Hf as <-.
    apply self_child_never_builds; [exact Hc | reflexivity | vm_compute; reflexivity |].
    by_computation. }
  split; [exact Hscan|]. split; [vm_compute; reflexivity|].
  split; [exact Hroots|]. split.
  - intros fuel. unfold tree. rewrite Hf. apply Hbuild.
  - intros fuel. unfold tree.
    destruct (find_roots Examples.cwd_index) as [|r [|? ?]];
      [discriminate Hroots| |discriminate Hroots].
    injection Hroots as ->. rewrite Hf. apply Hbuild.
Qed.

(** C6. In an index holding the current directory and [/srv], both are
    ancestor-free and building without a root is refused as ambiguous;
    naming [/srv] works, but naming the current directory never returns a
    tree. *)
Theorem explicit_self_parent_root_never_builds :
  (add_nodes HyFS_init Examples.two_roots_calls Examples.two_roots_world).1
  = Ok Examples.two_roots_index
  /\ map path (find_roots Examples.two_roots_index) = [Examples.dot; Examples.srv]
  /\ (forall fuel, tree fuel Examples.two_roots_index None = Raise AmbiguousRoot)
  /\ (exists t, tree 1 Examples.two_roots_index (Some Examples.srv) = Ok t)
  /\ (forall fuel, tree fuel Examples.two_roots_index (Some Examples.dot)
                   = Raise RecursionError).
Proof.
  assert (Hadd : (add_nodes HyFS_init Examples.two_roots_calls
                    Examples.two_roots_world).1 = Ok Examples.two_roots_index)
    by (vm_compute; reflexivity).
  assert (Hc : children_closed Examples.two_roots_index).
  { eapply add_nodes_children_closed; [exact Hadd | apply children_closed_init]. }
  split; [exact Hadd|]. split; [vm_compute; reflexivity|].
  split; [|split].
  - intros fuel. apply ambiguous_root_error. vm_compute. discriminate.
  - eexists. vm_compute. reflexivity.
  - intros fuel. unfold tree.
    destruct (find_by_path Examples.two_roots_index Examples.dot) as [n|] eqn:Hf;
      [|vm_compute in Hf; discriminate].
    vm_compute in Hf. injection Hf as <-.
    apply self_child_never_builds; [exact Hc | reflexivity | vm_compute; reflexivity |].
    by_computation.
Qed.

(** ** Query Engine *)

(** C9. [find] returns the nodes of the flat collection whose final path
    component matches the pattern, at whatever depth they lie: over a.py,
    b.txt and dir/c.py, [find("*.py")] returns a.py and dir/c.py, both in
    the index of these three files alone and in the scan of their tree. *)
Theorem find_matches_final_component :
  (forall h pattern n,
      In n (find h pattern)
      <-> In n (Dict.values (nodes h))
          /\ Fnmatch.fnmatch (PathOps.name (path n)) pattern = true)
  /\ map path (find Examples.flat_index "*.py") = [Examples.a_py; Examples.c_py]
  /\ map path (Dict.values (nodes Examples.flat_index))
     = [Examples.a_py; Examples.b_txt; Examples.c_py]
  /\ map path (find Examples.proj_index "*.py") = [Examples.a_py; Examples.c_py].
Proof.
  split; [|split; [|split]; vm_compute; reflexivity].
  intros h pattern n. unfold find, filter. apply filter_In.
Qed.

(** ** The refresh pass *)

Lemma with_xattrs_same i : with_xattrs i (xattrs i) = i.
Proof. now destruct i. Qed.

Lemma with_xattrs_twice i x y : with_xattrs (with_xattrs i x) y = with_xattrs i y.
Proof. reflexivity. Qed.

Lemma try_removexattr_cleared p w :
  try_removexattr p "user.hyfs.cid" w = (Ok tt, cleared p w).
Proof.
  unfold try_removexattr, OS.removexattr, cleared.
  destruct (w !! p) as [i|] eqn:Hw; [|reflexivity].
  destruct (xattr_writable i); [|reflexivity].
  destruct (xattrs i !! "user.hyfs.cid") eqn:Hx; [reflexivity|]. cbn.
  now rewrite delete_id, with_xattrs_same, insert_id.
Qed.

Lemma compute_cid_spec p w :
  _compute_cid p w =
  match w !! p with
  | Some i =>
      match kind i with
      | RegularFile content =>
          match xattrs i !! "user.hyfs.cid" with
          | Some (NotUtf8 _) => (Raise UnicodeDecodeError, w)
          | Some (Utf8 (String a s)) => (Ok (Some (String a s)), w)
          | _ =>
              if readable i
              then (Ok (Some (sha256_hexdigest content)),
                    if xattr_writable i
                    then <[p := with_xattrs i
                                  (<["user.hyfs.cid" := Utf8 (sha256_hexdigest content)]>
                                     (xattrs i))]> w
                    else w)
              else (Raise (OSError EACCES), w)
          end
      | _ => (Ok None, w)
      end
  | None => (Ok None, w)
  end.
Proof.
  unfold _compute_cid, bind at 1, get_world.
  destruct (w !! p) as [i|] eqn:Hw; [|reflexivity].
  destruct i as [[content| |] dev ino mt xs wr rd]; try reflexivity.
  unfold bind at 1. rewrite (get_xattr_present _ _ _ _ _ Hw).
  change (xattr_key "cid") with "user.hyfs.cid". cbn [xattrs kind xattr_writable readable].
  destruct (xs !! "user.hyfs.cid") as [[[|a s]|raw]|]; cbn [truthy]; try reflexivity.
  all: destruct rd; cbn [negb]; [|reflexivity].
  all: rewrite hash_chunks_whole; unfold bind, ret.
  all: rewrite (set_xattr_present _ _ _ _ _ Hw); cbn [xattr_writable xattrs].
  all: now destruct wr.
Qed.

Lemma meta_del_twice k md : meta_del k (meta_del k md) = meta_del k md.
Proof.
  unfold meta_del. induction md as [|kv md IH]; simpl; [reflexivity|].
  destruct (negb (bool_decide (kv.1 = k))) eqn:E; simpl; [|exact IH].
  now rewrite E, IH.
Qed.

Lemma meta_get_del k md : meta_get k (meta_del k md) = None.
Proof.
  unfold meta_get, meta_del. induction md as [|kv md IH]; simpl; [reflexivity|].
  destruct (bool_decide (kv.1 = k)) eqn:E; simpl; [exact IH|]. now rewrite E.
Qed.

Lemma set_cid_slot_twice n a b : set_cid_slot (set_cid_slot n a) b = set_cid_slot n b.
Proof.
  unfold set_cid_slot. cbn [path eid type metadata]. now rewrite meta_del_twice.
Qed.

Lemma cid_key_set n c : cid_key (set_cid_slot n c) = c.
Proof.
  unfold cid_key, set_cid_slot. cbn [cid_slot metadata]. destruct c; [reflexivity|].
  now rewrite meta_get_del.
Qed.

(** One turn of the loop on a file node, in terms of its entry. *)
Lemma update_cids_body_exact node w :
  type node = TFile ->
  update_cids_body node w
  = match w !! path node with
    | Some i =>
        match refresh_inode i with
        | (Ok v, i') => (Ok (set_cid_slot node (Some v)), <[path node := i']> w)
        | (Raise e, i') => (Raise e, <[path node := i']> w)
        end
    | None => (Ok (set_cid_slot node (Some None)), w)
    end.
Proof.
  intros Hty. unfold update_cids_body. rewrite Hty.
  unfold bind at 1. rewrite try_removexattr_cleared.
  unfold cid. rewrite cid_key_set.
  change (path (set_cid_slot node None)) with (path node).
  unfold bind, ret. rewrite compute_cid_spec.
  set (p := path node). unfold cleared, refresh_inode.
  destruct (w !! p) as [i|] eqn:Hw; [|now rewrite Hw, set_cid_slot_twice].
  destruct i as [k dev ino mt xs wr rd].
  cbn [xattr_writable xattrs with_xattrs kind readable].
  destruct wr.
  - rewrite lookup_insert_eq. cbn [kind xattrs xattr_writable with_xattrs readable].
    rewrite lookup_delete_eq.
    destruct k as [content| |]; [destruct rd|..]; cbn [fst snd];
      rewrite ?set_cid_slot_twice, ?insert_insert_eq; reflexivity.
  - rewrite Hw. cbn [kind xattrs xattr_writable readable].
    destruct k as [content| |];
      [destruct (xs !! "user.hyfs.cid") as [[[|a s]|raw]|]; try destruct rd|..];
      cbn [fst snd]; rewrite ?set_cid_slot_twice; now rewrite insert_id.
Qed.

Lemma same_files_refl w : same_files w w.
Proof. intros q. now destruct (w !! q). Qed.

Lemma same_files_trans w1 w2 w3 :
  same_files w1 w2 -> same_files w2 w3 -> same_files w1 w3.
Proof.
  intros H12 H23 q. specialize (H12 q). specialize (H23 q).
  destruct (w1 !! q), (w2 !! q), (w3 !! q); try easy.
  destruct H12, H23. split; congruence.
Qed.

Lemma same_files_insert w p i x :
  w !! p = Some i -> same_files w (<[p := with_xattrs i x]> w).
Proof.
  intros Hw q. destruct (decide (p = q)) as [<-|Hne].
  - rewrite Hw, lookup_insert_eq. now destruct i.
  - rewrite lookup_insert_ne by assumption. now destruct (w !! q).
Qed.

(** What a turn that returns leaves of the entry. *)
Lemma refresh_inode_ok i v i' :
  refresh_inode i = (Ok v, i') ->
  kind i' = kind i /\ xattr_writable i' = xattr_writable i
  /\ (forall content, kind i = RegularFile content -> xattr_writable i = true ->
        v = Some (sha256_hexdigest content)
        /\ xattrs i' !! "user.hyfs.cid" = Some (Utf8 (sha256_hexdigest content))).
Proof.
  destruct i as [k dev ino mt xs wr rd]. unfold refresh_inode.
  cbn [xattr_writable xattrs with_xattrs kind readable].
  destruct wr; cbn [xattr_writable xattrs with_xattrs kind readable].
  - rewrite lookup_delete_eq.
    destruct k as [content| |]; [destruct rd|..]; intros [= <- <-]; cbn;
      (split; [reflexivity|]); (split; [reflexivity|]); intros c [= <-] _.
    split; [reflexivity|]. apply lookup_insert_eq.
  - destruct k as [content| |];
      [destruct (xs !! "user.hyfs.cid") as [[[|a s]|raw]|]; try destruct rd|..];
      intros [= <- <-]; cbn; (split; [reflexivity|]); (split; [reflexivity|]);
      intros c _ [=].
Qed.

(** One turn of the loop on a file node, when it returns. *)
Lemma update_cids_body_file node w node' w' :
  type node = TFile ->
  update_cids_body node w = (Ok node', w') ->
  exists v,
    node' = set_cid_slot node (Some v)
    /\ same_files w w'
    /\ (forall q, q ≠ path node -> w' !! q = w !! q)
    /\ fresh_at w' (path node)
    /\ (forall i content,
          w !! path node = Some i -> kind i = RegularFile content ->
          xattr_writable i = true -> v = Some (sha256_hexdigest content)).
Proof.
  intros Hty. rewrite update_cids_body_exact by assumption.
  destruct (w !! path node) as [i|] eqn:Hw.
  - destruct (refresh_inode i) as [[v|e] i'] eqn:Hr; [|discriminate].
    intros [= <- <-]. destruct (refresh_inode_ok _ _ _ Hr) as (Hk & Hwr & Hv).
    exists v. split; [reflexivity|]. split; [|split; [|split]].
    + intros q. destruct (decide (path node = q)) as [<-|Hne].
      * rewrite Hw, lookup_insert_eq. auto.
      * rewrite lookup_insert_ne by assumption. now destruct (w !! q).
    + intros q Hq. now rewrite lookup_insert_ne by congruence.
    + intros j c. rewrite lookup_insert_eq. intros [= <-] Hkj Hwj.
      apply (Hv c); congruence.
    + intros j c [= <-] Hkj Hwj. now apply (Hv c).
  - intros [= <- <-]. exists None. split; [reflexivity|].
    repeat split; auto using same_files_refl.
    + intros j c Hj. congruence.
    + intros j c Hj. congruence.
Qed.

Lemma same_files_lookup_l w w' q i :
  same_files w w' -> w !! q = Some i ->
  exists i', w' !! q = Some i' /\ kind i' = kind i /\ xattr_writable i' = xattr_writable i.
Proof.
  intros Hs Hq. specialize (Hs q). rewrite Hq in Hs.
  destruct (w' !! q) as [i'|]; [|contradiction]. eauto.
Qed.

Lemma refreshed_mono w0 w w' n n' :
  same_files w0 w -> refreshed w w' n n' -> refreshed w0 w' n n'.
Proof.
  unfold refreshed. intros Hs. destruct (type n); [|trivial].
  intros (v & -> & Hv). exists v. split; [reflexivity|].
  intros i c Hi Hk Hwr.
  destruct (same_files_lookup_l _ _ _ _ Hs Hi) as (i' & Hi' & Hk' & Hwr').
  apply (Hv i' c); congruence.
Qed.

Lemma update_cids_spec ns : forall w ns' w',
  update_cids ns w = (Ok ns', w') ->
  same_files w w'
  /\ (forall q, fresh_at w q -> fresh_at w' q)
  /\ Forall2 (refreshed w w') ns ns'.
Proof.
  induction ns as [|n ns IH]; intros w ns' w'; simpl.
  - unfold ret. intros [= <- <-]. auto using same_files_refl.
  - unfold bind at 1.
    destruct (update_cids_body n w) as [[n1|e] w1] eqn:Hb; [|discriminate].
    unfold bind at 1.
    destruct (update_cids ns w1) as [[ns1|e] w2] eqn:Hrest; [|discriminate].
    unfold ret. intros [= <- <-].
    destruct (IH _ _ _ Hrest) as (Hs2 & Hpres & Hall).
    destruct (type n) eqn:Hty.
    + destruct (update_cids_body_file n w n1 w1 Hty Hb)
        as (v & -> & Hs1 & Hoth & Hfr & Hv).
      split; [eauto using same_files_trans|]. split.
      * intros q Hq. apply Hpres. destruct (decide (q = path n)) as [->|Hne]; [exact Hfr|].
        intros i c. rewrite (Hoth q Hne). apply Hq.
      * constructor.
        -- unfold refreshed. rewrite Hty. exists v. split; [reflexivity|].
           intros i c Hi Hk Hwr. split; [eauto|].
           destruct (same_files_lookup_l _ _ _ _ (same_files_trans _ _ _ Hs1 Hs2) Hi)
             as (i' & Hi' & Hk' & Hwr').
           rewrite (get_xattr_present _ _ _ _ _ Hi').
           change (xattr_key "cid") with "user.hyfs.cid".
           erewrite (Hpres _ Hfr i' c); [reflexivity|assumption|congruence|congruence].
        -- eapply Forall2_impl; [exact Hall|]. intros a b. now apply refreshed_mono.
    + unfold update_cids_body in Hb. rewrite Hty in Hb. unfold ret in Hb.
      injection Hb as <- <-.
      split; [assumption|]. split; [assumption|].
      constructor; [|exact Hall]. unfold refreshed. now rewrite Hty.
Qed.

(** C8, as stated, fails: for a file with content "abc" whose cid is cached
    on the node and in a writable store, the pass returns the node with a
    cid, and the store with one: the recomputed digest. *)
Lemma update_cids_is_not_lazy :
  ~ (forall ns' w',
        update_cids [Examples.stale_node] Examples.stale_world = (Ok ns', w') ->
        forall n', In n' ns' -> type n' = TFile -> lazily_invalidated w' n').
Proof.
  intros Hlazy.
  destruct (update_cids [Examples.stale_node] Examples.stale_world) as [r w'] eqn:Hrun.
  assert (Hr : (update_cids [Examples.stale_node] Examples.stale_world).1
               = Ok [set_cid_slot Examples.stale_node
                       (Some (Some "ba7816bf8f01cfea414140de5dae2223b00361a396177a9cb410ff61f20015ad"))])
    by (vm_compute; reflexivity).
  rewrite Hrun in Hr. cbn [fst] in Hr. subst r.
  destruct (Hlazy _ _ eq_refl _ (or_introl eq_refl) eq_refl) as [Hslot _].
  discriminate Hslot.
Qed.

(** C8, amended. [update_cids] recomputes eagerly: it drops the cid of each
    file node and the cached entry in the store, then reads [node.cid]
    within the same pass.  When it returns, every file node carries a cid
    again; for a regular file on a store that takes writes it is the
    SHA-256 digest of the content, whatever was cached before, and the
    store caches that digest again.  Directory nodes are returned as they
    were.  (The pass raises where [node.cid] does: on a file that cannot be
    read, or a cached cid that is not UTF-8 and cannot be removed.) *)
Theorem update_cids_recomputes_eagerly (ns ns' : list FSNode) (w w' : World) :
  update_cids ns w = (Ok ns', w') ->
  Forall2 (refreshed w w') ns ns'.
Proof.
  intros Hrun. now destruct (update_cids_spec ns w ns' w' Hrun) as (_ & _ & Hall).
Qed.

(** * Further properties of the code *)

Section AttributesAndResolver.
#[local] Arguments sha256_hexdigest : simpl never.
#[local] Arguments str_uuid : simpl never.
#[local] Arguments uuid4 : simpl never.
#[local] Arguments xattr_key : simpl never.
#[local] Arguments hash_chunks : simpl never.

(** ** Attribute helpers *)

Lemma same_inode_refl w p i : w !! p = Some i -> same_inode w p p.
Proof. intros H. exists i, i. auto. Qed.



Lemma str_uuid_shaped u : uuid_shaped (str_uuid u) = true.
Proof.
  unfold uuid_shaped, str_uuid.
  cbv - [Hex.is_lower_hex Hex.digit Hex.nibble].
  now rewrite !digit_is_lower_hex.
Qed.

Lemma uuid_shaped_nonempty s : uuid_shaped s = true -> s ≠ EmptyString.
Proof. intros H ->. discriminate. Qed.

(** The ways a resolution can go on an existing path. *)
Lemma compute_eid_cases rnd path w i :
  w !! path = Some i ->
  (exists raw, xattrs i !! xattr_key "ctime" = Some (NotUtf8 raw)
               /\ _compute_eid rnd path w = (Raise UnicodeDecodeError, w))
  \/ (decodable i (xattr_key "ctime")
      /\ ((exists raw, xattrs i !! xattr_key "uuid" = Some (NotUtf8 raw)
                       /\ _compute_eid rnd path w
                          = (Raise UnicodeDecodeError, <[path := ensured path i]> w))
          \/ (exists c u, xattrs i !! xattr_key "uuid" = Some (Utf8 (String c u))
                          /\ _compute_eid rnd path w
                             = (Ok (String c u), <[path := ensured path i]> w))
          \/ ((xattrs i !! xattr_key "uuid" = None
               \/ xattrs i !! xattr_key "uuid" = Some (Utf8 EmptyString))
              /\ _compute_eid rnd path w
                 = if xattr_writable i
                   then (Ok (str_uuid (uuid4 rnd)),
                         <[path := with_xattrs (ensured path i)
                                     (<[xattr_key "uuid" := Utf8 (str_uuid (uuid4 rnd))]>
                                        (xattrs (ensured path i)))]> w)
                   else (Ok (code_fallback_eid i (ctime_marker i)),
                         <[path := ensured path i]> w)))).
Proof.
  intros Hw. destruct (decodable_cases i (xattr_key "ctime")) as [Hd|[raw Hc]].
  - right. split; [exact Hd|].
    rewrite (compute_eid_present _ _ _ _ Hw Hd). cbv zeta.
    destruct (xattrs i !! xattr_key "uuid") as [[[|c u]|raw]|]; eauto 10.
  - left. exists raw. split; [exact Hc|].
    eapply compute_eid_undecodable_ctime; eassumption.
Qed.

Lemma compute_eid_nonempty rnd path w e w' :
  _compute_eid rnd path w = (Ok e, w') -> e ≠ EmptyString.
Proof.
  destruct (w !! path) as [i|] eqn:Hw.
  - destruct (compute_eid_cases rnd path w i Hw)
      as [(raw & _ & ->)|(_ & [(raw & _ & ->)|[(c & u & _ & ->)|(_ & ->)]])];
      try discriminate.
    + now intros [= <- _].
    + destruct (xattr_writable i); intros [= <- _].
      * apply uuid_shaped_nonempty, str_uuid_shaped.
      * rewrite code_fallback_is_spec. apply uuid_shaped_nonempty, spec_fallback_shaped.
  - rewrite (compute_eid_missing _ _ _ Hw). discriminate.
Qed.

Lemma compute_eid_keeps_entries rnd path w q :
  is_Some ((_compute_eid rnd path w).2 !! q) <-> is_Some (w !! q).
Proof.
  destruct (w !! path) as [i|] eqn:Hw.
  - assert (H : forall j, is_Some (<[path := j]> w !! q) <-> is_Some (w !! q)).
    { intros j. destruct (decide (path = q)) as [<-|Hne].
      - rewrite lookup_insert_eq, Hw. split; eauto.
      - now rewrite lookup_insert_ne. }
    destruct (compute_eid_cases rnd path w i Hw)
      as [(raw & _ & ->)|(_ & [(raw & _ & ->)|[(c & u & _ & ->)|(_ & ->)]])];
      try destruct (xattr_writable i); cbn [snd]; try apply H; reflexivity.
  - now rewrite (compute_eid_missing _ _ _ Hw).
Qed.

(** X3. Whatever [_compute_eid] returns is not empty.  If the [uuid]
    attribute held a non-empty value before the call, that value is
    returned; otherwise the result has the 8-4-4-4-12 lowercase hex shape,
    be it the fresh uuid4 or the fallback digest. *)
Theorem resolver_eid_shape (rnd : Z) (path : Path) (w w' : World) (e : string)
    (o : option string) :
  _compute_eid rnd path w = (Ok e, w') ->
  (_get_xattr path "uuid" None w).1 = Ok o ->
  e ≠ EmptyString
  /\ (if truthy o then o = Some e else uuid_shaped e = true).
Proof.
  intros Hrun Hget. split; [eapply compute_eid_nonempty; eassumption|].
  destruct (w !! path) as [i|] eqn:Hw.
  - rewrite (get_xattr_present _ _ _ _ _ Hw) in Hget.
    destruct (compute_eid_cases rnd path w i Hw)
      as [(raw & _ & E)|(_ & [(raw & _ & E)|[(c & u & Hu & E)|([Hu|Hu] & E)]])];
      rewrite E in Hrun; try discriminate; rewrite Hu in Hget;
      injection Hget as <-; cbn [truthy].
    + now injection Hrun as <- _.
    + destruct (xattr_writable i); injection Hrun as <- _;
        rewrite ?code_fallback_is_spec;
        auto using str_uuid_shaped, spec_fallback_shaped.
    + destruct (xattr_writable i); injection Hrun as <- _;
        rewrite ?code_fallback_is_spec;
        auto using str_uuid_shaped, spec_fallback_shaped.
  - rewrite (compute_eid_missing _ _ _ Hw) in Hrun. discriminate.
Qed.

Lemma ensured_frame path i :
  (forall k, k ≠ xattr_key "ctime" -> xattrs (ensured path i) !! k = xattrs i !! k)
  /\ (forall c, xattrs i !! xattr_key "ctime" = Some c ->
                xattrs (ensured path i) !! xattr_key "ctime" = Some c)
  /\ readable (ensured path i) = readable i.
Proof.
  unfold ensured. destruct (xattrs i !! xattr_key "ctime") eqn:E.
  - split; [reflexivity|]. split; [now rewrite E|reflexivity].
  - destruct (xattr_writable i); cbn.
    + split; [|split; [discriminate|reflexivity]].
      intros k Hk. now rewrite lookup_insert_ne.
    + split; [reflexivity|]. split; [now rewrite E|reflexivity].
Qed.

Lemma identity_frame_at path w i i' :
  w !! path = Some i ->
  kind i' = kind i -> st_dev i' = st_dev i -> st_ino i' = st_ino i ->
  st_mtime i' = st_mtime i -> xattr_writable i' = xattr_writable i ->
  readable i' = readable i ->
  (forall k, k ≠ xattr_key "ctime" -> k ≠ xattr_key "uuid" ->
             xattrs i' !! k = xattrs i !! k) ->
  (forall c, xattrs i !! xattr_key "ctime" = Some c ->
             xattrs i' !! xattr_key "ctime" = Some c) ->
  (forall u, xattrs i !! xattr_key "uuid" = Some u -> u ≠ Utf8 EmptyString ->
             xattrs i' !! xattr_key "uuid" = Some u) ->
  only_identity_attrs_change path w (<[path := i']> w).
Proof.
  intros Hw. intros. unfold only_identity_attrs_change. split.
  - intros q Hq. rewrite lookup_insert_ne; [reflexivity|].
    intros <-. apply Hq. eapply same_inode_refl; eassumption.
  - rewrite Hw, lookup_insert_eq. auto 12.
Qed.




(** ** Content hasher *)

Lemma sha256_hexdigest_nonempty data : exists c r, sha256_hexdigest data = String c r.
Proof.
  unfold sha256_hexdigest, SHA256.hexdigest, SHA256.hexdigest_of.
  destruct (SHA256.digest_words _). cbn. eauto.
Qed.

(** X7. For a regular file with a non-empty cached [cid] attribute,
    [_compute_cid] returns the cached value without reading the content and
    without touching the filesystem, whatever the content is. *)
Theorem compute_cid_trusts_cache (path : Path) (w : World) (c : string) :
  OS.is_file w path = true ->
  (_get_xattr path "cid" None w).1 = Ok (Some c) -> c ≠ EmptyString ->
  _compute_cid path w = (Ok (Some c), w).
Proof.
  intros Hf Hget Hne. rewrite compute_cid_spec. unfold OS.is_file in Hf.
  destruct (w !! path) as [i|] eqn:Hw; [|discriminate].
  rewrite (get_xattr_present _ _ _ _ _ Hw) in Hget.
  change (xattr_key "cid") with "user.hyfs.cid" in Hget.
  destruct i as [[content| |] dev ino mt xs wr rd]; try discriminate. cbn in *.
  destruct (xs !! "user.hyfs.cid") as [[[|a s]|raw]|]; cbn in Hget; congruence.
Qed.

(** X8. When [_compute_cid] returns, calling it again on the filesystem it
    left returns the same value and changes nothing.  (It raises on a
    regular file that it has to read and may not, and on a cached cid that
    is not UTF-8.) *)
Theorem compute_cid_idempotent (path : Path) (w w' : World) (o : option string) :
  _compute_cid path w = (Ok o, w') ->
  _compute_cid path w' = (Ok o, w').
Proof.
  rewrite !compute_cid_spec.
  destruct (w !! path) as [i|] eqn:Hw.
  2: { intros [= <- <-]. now rewrite Hw. }
  destruct i as [[content| |] dev ino mt xs wr rd];
    cbn [kind xattrs xattr_writable readable].
  2,3: intros [= <- <-]; now rewrite Hw.
  destruct (sha256_hexdigest_nonempty content) as (a & s & Hd).
  assert (Hfresh : (if rd
                    then (Ok (Some (sha256_hexdigest content)),
                          if wr
                          then <[path := with_xattrs
                                           (MkInode (RegularFile content) dev ino mt xs wr rd)
                                           (<["user.hyfs.cid" := Utf8 (sha256_hexdigest content)]>
                                              xs)]> w
                          else w)
                    else (Raise (OSError EACCES), w)) = (Ok o, w') ->
                   xs !! "user.hyfs.cid" = None
                   \/ xs !! "user.hyfs.cid" = Some (Utf8 EmptyString) ->
                   match w' !! path with
                   | Some i =>
                       match kind i with
                       | RegularFile content =>
                           match xattrs i !! "user.hyfs.cid" with
                           | Some (NotUtf8 _) => (Raise UnicodeDecodeError, w')
                           | Some (Utf8 (String a s)) => (Ok (Some (String a s)), w')
                           | _ =>
                               if readable i
                               then (Ok (Some (sha256_hexdigest content)),
                                     if xattr_writable i
                                     then <[path := with_xattrs i
                                              (<["user.hyfs.cid" :=
                                                   Utf8 (sha256_hexdigest content)]>
                                                 (xattrs i))]> w'
                                     else w')
                               else (Raise (OSError EACCES), w')
                           end
                       | _ => (Ok None, w')
                       end
                   | None => (Ok None, w')
                   end = (Ok o, w')).
  { destruct rd; [|discriminate]. intros [= <- <-] Hx. destruct wr.
    - rewrite lookup_insert_eq. cbn [kind xattrs with_xattrs].
      now rewrite lookup_insert_eq, Hd.
    - rewrite Hw. cbn [kind xattrs readable xattr_writable].
      now destruct Hx as [-> | ->]. }
  destruct (xs !! "user.hyfs.cid") as [[[|a0 s0]|raw]|] eqn:Hx; auto.
  - intros [= <- <-]. rewrite Hw. cbn [kind xattrs]. now rewrite Hx.
  - discriminate.
Qed.

(** X9. Once the [cid] property has been read, the node keeps the value:
    every later read returns it without touching the filesystem, whatever
    the filesystem has become. *)
Theorem cid_property_is_pinned (n n' : FSNode) (w w' : World) (v : option string) :
  cid n w = (Ok (v, n'), w') ->
  forall w2, cid n' w2 = (Ok (v, n'), w2).
Proof.
  unfold cid. destruct (cid_key n) as [v0|] eqn:Hs.
  - unfold ret. intros [= <- <- <-] w2. now rewrite Hs.
  - unfold bind, ret. destruct (_compute_cid (path n) w) as [[c|e] w1]; [|discriminate].
    intros [= <- <- <-] w2. now rewrite cid_key_set.
Qed.

End AttributesAndResolver.

(** ** Tag index, continued *)

Section DefaultDictLookups.
Import DefaultDict.
Implicit Types (d : gmap string (gset string)) (k x : string).

Lemma lookup_add d k x k' :
  add d k x !! k' = if decide (k = k') then Some (get d k ∪ {[x]}) else d !! k'.
Proof.
  unfold add, getitem, get.
  destruct (d !! k) eqn:E; destruct (decide (k = k')) as [->|Hne]; cbn;
    rewrite ?lookup_insert_eq, ?lookup_insert_ne by assumption;
    rewrite ?lookup_insert_ne by assumption; reflexivity.
Qed.

Lemma lookup_discard_cleanup d k x k' :
  del_if_empty (discard d k x) k !! k'
  = if decide (k = k')
    then (if decide (get d k ∖ {[x]} = ∅) then None else Some (get d k ∖ {[x]}))
    else d !! k'.
Proof.
  unfold del_if_empty, discard, getitem, get.
  destruct (d !! k) as [s|] eqn:E; cbn; rewrite !lookup_insert_eq.
  all: destruct (decide (_ = ∅)) as [He|He].
  all: destruct (decide (k = k')) as [->|Hne].
  all: rewrite ?lookup_delete_eq, ?lookup_delete_ne by assumption.
  all: rewrite ?lookup_insert_eq, ?lookup_insert_ne by assumption.
  all: rewrite ?lookup_insert_ne by assumption.
  all: reflexivity.
Qed.

Lemma get_lookup d k : d !! k = Some (get d k) \/ (d !! k = None /\ get d k = ∅).
Proof. unfold DefaultDict.get. destruct (d !! k); auto. Qed.

Lemma add_idempotent d k x : add (add d k x) k x = add d k x.
Proof.
  apply map_eq. intros k'. rewrite !lookup_add, get_add.
  destruct (decide (k = k')); [|reflexivity].
  rewrite decide_True by reflexivity.
  assert (E : get d k ∪ {[x]} ∪ {[x]} = get d k ∪ {[x]}) by set_solver.
  now rewrite E.
Qed.

Lemma discard_cleanup_idempotent d k x :
  del_if_empty (discard (del_if_empty (discard d k x) k) k x) k
  = del_if_empty (discard d k x) k.
Proof.
  apply map_eq. intros k'. rewrite !lookup_discard_cleanup.
  destruct (decide (k = k')) as [<-|]; [|reflexivity].
  rewrite get_del_if_empty, get_discard.
  destruct (decide (k = k)); [|congruence].
  replace (get d k ∖ {[x]} ∖ {[x]}) with (get d k ∖ {[x]}) by set_solver.
  reflexivity.
Qed.

Lemma discard_cleanup_add d k x :
  no_empty_entry d -> x ∉ get d k ->
  del_if_empty (discard (add d k x) k x) k = d.
Proof.
  intros Hne Hx. apply map_eq. intros k'.
  rewrite lookup_discard_cleanup, lookup_add, get_add.
  destruct (decide (k = k')) as [<-|]; [|reflexivity].
  destruct (decide (k = k)); [|congruence].
  replace ((get d k ∪ {[x]}) ∖ {[x]}) with (get d k) by set_solver.
  destruct (get_lookup d k) as [E|[E E']].
  - rewrite decide_False; [now rewrite E|]. now apply (Hne k).
  - rewrite decide_True; [now rewrite E|assumption].
Qed.

End DefaultDictLookups.

(** X10. [tag(eid, tag)] adds the pair to both directions of the tag
    index and nothing else: every other lookup answers as before, and
    nodes, paths and children are untouched. *)
Theorem tag_adds_exactly_one_pair (h : HyFS) (e t e' t' : string) :
  (e' ∈ (tagged (tag h e t) t').1 <-> (e' = e /\ t' = t) \/ e' ∈ (tagged h t').1)
  /\ (t' ∈ (tags_of (tag h e t) e').1 <-> (e' = e /\ t' = t) \/ t' ∈ (tags_of h e').1)
  /\ nodes (tag h e t) = nodes h
  /\ path_index (tag h e t) = path_index h
  /\ children_index (tag h e t) = children_index h.
Proof.
  unfold tagged, tags_of.
  repeat match goal with
         | |- context [DefaultDict.getitem ?d ?k] =>
             let H := fresh in
             pose proof (getitem_fst d k) as H;
             destruct (DefaultDict.getitem d k); cbn [fst] in H; subst
         end.
  cbn [fst tag tags eid_tags]. rewrite !get_add.
  repeat split; try reflexivity.
  all: repeat case_decide; set_solver.
Qed.

(** X11. [untag(eid, tag)] removes the pair from both directions of
    the tag index and nothing else: every other lookup answers as before,
    and nodes, paths and children are untouched. *)
Theorem untag_removes_exactly_one_pair (h : HyFS) (e t e' t' : string) :
  (e' ∈ (tagged (untag h e t) t').1
   <-> e' ∈ (tagged h t').1 /\ ~ (e' = e /\ t' = t))
  /\ (t' ∈ (tags_of (untag h e t) e').1
      <-> t' ∈ (tags_of h e').1 /\ ~ (e' = e /\ t' = t))
  /\ nodes (untag h e t) = nodes h
  /\ path_index (untag h e t) = path_index h
  /\ children_index (untag h e t) = children_index h.
Proof.
  unfold tagged, tags_of.
  repeat match goal with
         | |- context [DefaultDict.getitem ?d ?k] =>
             let H := fresh in
             pose proof (getitem_fst d k) as H;
             destruct (DefaultDict.getitem d k); cbn [fst] in H; subst
         end.
  cbn [fst untag tags eid_tags]. rewrite !get_del_if_empty, !get_discard.
  repeat split; try reflexivity.
  all: repeat case_decide; set_solver.
Qed.

(** X12. [tag] and [untag] are idempotent, as their docstrings say:
    repeating the call leaves the index exactly as the first call did. *)
Theorem tag_untag_idempotent (h : HyFS) (e t : string) :
  tag (tag h e t) e t = tag h e t
  /\ untag (untag h e t) e t = untag h e t.
Proof.
  split.
  - unfold tag. cbn. now rewrite !add_idempotent.
  - unfold untag. cbn. now rewrite !discard_cleanup_idempotent.
Qed.

(** X13. In a state reached by [tag] and [untag] calls, tagging an eid
    that did not carry the tag and untagging it again restores the index
    exactly, empty-set clean-up included. *)
Theorem untag_undoes_tag (h : HyFS) (e t : string) :
  reachable_by_tagging h ->
  e ∉ (tagged h t).1 ->
  untag (tag h e t) e t = h.
Proof.
  intros Hr. pose proof (getitem_fst (tags h) t) as Hf.
  unfold tagged. destruct (DefaultDict.getitem (tags h) t) as [s d]. cbn [fst] in *.
  subst s. intros He.
  destruct (tagging_leaves_no_empty_entry h Hr) as [Hn1 Hn2].
  pose proof (reachable_mutual_inverse h Hr e t) as Hinv.
  unfold untag, tag. cbn.
  rewrite !discard_cleanup_add by tauto. now destruct h.
Qed.

(** X14. After [untag(eid, tag)], in any state, neither [tags[tag]]
    nor [eid_tags[eid]] is an empty set: the entry is gone or not empty. *)
Theorem untag_leaves_no_empty_set (h : HyFS) (e t : string) :
  tags (untag h e t) !! t ≠ Some ∅
  /\ eid_tags (untag h e t) !! e ≠ Some ∅.
Proof.
  unfold untag. cbn. rewrite !lookup_discard_cleanup.
  split; repeat case_decide; try discriminate; try congruence;
    intros [= E]; contradiction.
Qed.

Lemma mutual_inverse_tagged h t : mutual_inverse h -> mutual_inverse (tagged h t).2.
Proof.
  intros H e' t'. unfold tagged.
  pose proof (getitem_snd_get (tags h) t t') as Hg.
  destruct (DefaultDict.getitem (tags h) t). cbn in *. rewrite Hg. apply H.
Qed.

Lemma mutual_inverse_tags_of h e : mutual_inverse h -> mutual_inverse (tags_of h e).2.
Proof.
  intros H e' t'. unfold tags_of.
  pose proof (getitem_snd_get (eid_tags h) e e') as Hg.
  destruct (DefaultDict.getitem (eid_tags h) e). cbn in *. rewrite Hg. apply H.
Qed.

(** X15. In every state reached by [tag], [untag], [tagged] and
    [tags_of] calls the two directions agree, and a lookup changes the
    answer of no later lookup, although it may insert an empty entry. *)
Theorem lookups_keep_tagging (h : HyFS) (e t : string) :
  reachable_by_tag_calls h ->
  (e ∈ (tagged h t).1 <-> t ∈ (tags_of h e).1)
  /\ (forall t', (tagged (tagged h t').2 t).1 = (tagged h t).1)
  /\ (forall e', (tagged (tags_of h e').2 t).1 = (tagged h t).1)
  /\ (forall t', (tags_of (tagged h t').2 e).1 = (tags_of h e).1)
  /\ (forall e', (tags_of (tags_of h e').2 e).1 = (tags_of h e).1).
Proof.
  intros Hr.
  assert (Hinv : mutual_inverse h).
  { induction Hr; auto using mutual_inverse_init, mutual_inverse_tag,
      mutual_inverse_untag, mutual_inverse_tagged, mutual_inverse_tags_of. }
  assert (Ht : forall h0 t0, (tagged h0 t0).1 = DefaultDict.get (tags h0) t0).
  { intros h0 t0. unfold tagged. pose proof (getitem_fst (tags h0) t0).
    now destruct (DefaultDict.getitem (tags h0) t0). }
  assert (He : forall h0 e0, (tags_of h0 e0).1 = DefaultDict.get (eid_tags h0) e0).
  { intros h0 e0. unfold tags_of. pose proof (getitem_fst (eid_tags h0) e0).
    now destruct (DefaultDict.getitem (eid_tags h0) e0). }
  rewrite !Ht, !He. split; [apply Hinv|].
  repeat split; intros k; rewrite ?Ht, ?He.
  - unfold tagged. pose proof (getitem_snd_get (tags h) k t).
    now destruct (DefaultDict.getitem (tags h) k).
  - unfold tags_of. now destruct (DefaultDict.getitem (eid_tags h) k).
  - unfold tagged. now destruct (DefaultDict.getitem (tags h) k).
  - unfold tags_of. pose proof (getitem_snd_get (eid_tags h) k e).
    now destruct (DefaultDict.getitem (eid_tags h) k).
Qed.

(** ** Flat index, continued *)

Lemma truthy_nonempty o : truthy o = true -> exists e, o = Some e /\ e ≠ EmptyString.
Proof. destruct o as [[|c s]|]; try discriminate. eauto. Qed.

Lemma add_node_eid_nonempty h path rnd md w e h' w' :
  add_node h path None rnd md w = (Ok (e, h'), w') -> e ≠ EmptyString.
Proof.
  unfold add_node, bind, get_world, ret, raise.
  destruct (has_key "self" md || has_key "path" md || has_key "eid" md); [intros [=]|].
  destruct (_compute_eid rnd path w) as [[e0|ex] w1] eqn:Hrun; [|intros [=]].
  destruct (has_key "type" md); [intros [=]|].
  intros [= <- _ _]. eapply compute_eid_nonempty; eassumption.
Qed.

(** X16. After a successful [add_node], [get] of the returned eid
    gives the new node and the path index maps the path to that eid;
    [find_by_path] gives the node provided the eid is not empty, which is
    always so when the eid was resolved rather than passed in. *)
Theorem add_node_then_lookup (h : HyFS) (path : Path) (eid : option string)
    (rnd : Z) (metadata : list (string * string)) (w w' : World)
    (e : string) (h' : HyFS) :
  add_node h path eid rnd metadata w = (Ok (e, h'), w') ->
  let node := MkNode path e (if OS.is_dir w' path then TDir else TFile) metadata None in
  get h' e = Ok node
  /\ path_index h' !! path = Some e
  /\ (e ≠ EmptyString -> find_by_path h' path = Some node)
  /\ (eid = None -> e ≠ EmptyString).
Proof.
  intros Hadd node. pose proof (add_node_ok _ _ _ _ _ _ _ _ _ Hadd) as (Hn & Hp & _).
  assert (Hget : Dict.get e (nodes h') = Some node).
  { rewrite Hn, dict_get_set. now rewrite decide_True. }
  split; [unfold get; now rewrite Hget|].
  split; [rewrite Hp; apply lookup_insert_eq|]. split.
  - intros Hne. unfold find_by_path. rewrite Hp, lookup_insert_eq.
    destruct e; [congruence|]. cbn. exact Hget.
  - intros ->. eapply add_node_eid_nonempty; eassumption.
Qed.


Lemma add_node_children h p e rnd md w e' h' w' k c :
  add_node h p e rnd md w = (Ok (e', h'), w') ->
  c ∈ DefaultDict.get (children_index h') k ->
  c ∈ DefaultDict.get (children_index h) k
  \/ (c = e' /\ k ≠ EmptyString
      /\ <[p := e']> (path_index h) !! PathOps.parent p = Some k).
Proof.
  intros Hadd. apply add_node_ok in Hadd as (_ & _ & Hci & _). rewrite Hci.
  destruct (truthy _) eqn:Ht; [|auto].
  apply truthy_nonempty in Ht as (pe & Hpe & Hne). rewrite Hpe. cbn [default].
  unfold id. rewrite get_add. destruct (decide (pe = k)) as [->|]; [|auto].
  rewrite elem_of_union, elem_of_singleton. intros [?| ->]; auto.
Qed.


Lemma well_formed_init : well_formed HyFS_init.
Proof.
  split.
  - intros c n. discriminate.
  - apply children_closed_init.
  - intros p e. cbn. now rewrite lookup_empty.
  - intros e n. discriminate.
Qed.

Lemma add_node_well_formed h p e rnd md w eid' h' w' :
  add_node h p e rnd md w = (Ok (eid', h'), w') ->
  well_formed h -> well_formed h'.
Proof.
  intros Hadd [Hk Hc Hp Hn].
  pose proof (add_node_children_closed _ _ _ _ _ _ _ _ _ Hadd Hc) as Hc'.
  apply add_node_ok in Hadd. cbv zeta in Hadd. destruct Hadd as (En & Ep & _).
  split; [| exact Hc' | |].
  - intros c n. rewrite En, dict_get_set. case_decide; [intros [= <-]; now subst|apply Hk].
  - intros q c. rewrite En, Ep, dict_get_set.
    destruct (decide (q = p)) as [->|Hq].
    + rewrite lookup_insert_eq. intros [= <-]. rewrite decide_True by reflexivity. eauto.
    + rewrite lookup_insert_ne by congruence. intros Hqc. case_decide; eauto.
  - intros c n. rewrite En, Ep, dict_get_set. case_decide.
    + intros [= <-]. cbn. rewrite lookup_insert_eq. eauto.
    + intros Hcn. destruct (decide (path n = p)) as [->|Hq].
      * rewrite lookup_insert_eq. eauto.
      * rewrite lookup_insert_ne by congruence. eauto.
Qed.

Lemma add_nodes_well_formed calls : forall h w h',
  (add_nodes h calls w).1 = Ok h' -> well_formed h -> well_formed h'.
Proof.
  induction calls as [|[[p e] rnd] calls IH]; intros h w h'; simpl.
  - unfold ret. now intros [= <-].
  - unfold bind at 1.
    destruct (add_node h p e rnd [] w) as [[[x h1]|ex] w1] eqn:Hadd; [|discriminate].
    intros Hrest Hwf. eapply IH; [exact Hrest|].
    eapply add_node_well_formed; eauto.
Qed.

Lemma build_root_data fuel h n t :
  _build_tree_node fuel h n = Ok t -> match t with TNode d _ => d = n end.
Proof.
  destruct fuel as [|fuel]; simpl; [discriminate|].
  destruct (type n).
  - now intros [= <-].
  - destruct (for_each _ _); [|discriminate]. now intros [= <-].
Qed.

(** X20. On any index built by [add_node] calls, [tree] never raises
    [KeyError]: it fails only with the ambiguous-root error (and only
    without [root_path]), the not-found error, or by running out of stack.
    What it returns is rooted at a stored node, at the requested path when
    one is given, and lists under every directory the eids of the children
    index. *)
Theorem tree_of_built_index (calls : list (Path * option string * Z)) (w : World)
    (h : HyFS) :
  (add_nodes HyFS_init calls w).1 = Ok h ->
  forall fuel root,
    match tree fuel h root with
    | Ok (TNode d cs as t) =>
        children_match h t
        /\ get h (eid d) = Ok d
        /\ (forall p, root = Some p -> path_index h !! p = Some (eid d))
    | Raise e =>
        e = RecursionError
        \/ (root = None /\ e = AmbiguousRoot)
        \/ exists p, e = NotFound p
    end.
Proof.
  intros Hadd fuel root.
  pose proof (add_nodes_well_formed _ _ _ _ Hadd well_formed_init) as [Hk Hc Hp Hn].
  unfold tree.
  set (at_path := fun p =>
         match find_by_path h p with
         | None => Raise (NotFound p)
         | Some root_node => _build_tree_node fuel h root_node
         end).
  assert (Hat : forall p,
    match at_path p with
    | Ok (TNode d cs as t) =>
        children_match h t /\ get h (eid d) = Ok d /\ path_index h !! p = Some (eid d)
    | Raise e => e = RecursionError \/ exists p, e = NotFound p
    end).
  { intros p. unfold at_path, find_by_path.
    destruct (path_index h !! p) as [c|] eqn:Hpc; cbn [truthy]; [|eauto].
    destruct c as [|a c]; cbn [truthy default]; [eauto|]. unfold id.
    destruct (Dict.get (String a c) (nodes h)) as [n|] eqn:Hget; [|eauto].
    pose proof (Hk _ _ Hget) as Heid.
    destruct (_build_tree_node fuel h n) as [t|e] eqn:Hb.
    - pose proof (build_root_data _ _ _ _ Hb) as Hd. destruct t as [d cs]. subst d.
      split; [eapply build_children_match; eassumption|].
      rewrite Heid. unfold get. rewrite Hget. auto.
    - left. eapply build_only_recursion_error; eassumption. }
  destruct root as [p|].
  - specialize (Hat p). change (match at_path p with
                                | Ok (TNode d cs as t) =>
                                    children_match h t /\ get h (eid d) = Ok d
                                    /\ (forall p0, Some p = Some p0 ->
                                                   path_index h !! p0 = Some (eid d))
                                | Raise e =>
                                    e = RecursionError
                                    \/ (Some p = None /\ e = AmbiguousRoot)
                                    \/ exists p, e = NotFound p
                                end).
    destruct (at_path p) as [[d cs]|e].
    + destruct Hat as (? & ? & ?). repeat split; auto. now intros ? [= <-].
    + destruct Hat as [?|?]; auto.
  - destruct (find_roots h) as [|r [|r' l]]; [auto| |auto].
    specialize (Hat (path r)).
    change (match at_path (path r) with
            | Ok (TNode d cs as t) =>
                children_match h t /\ get h (eid d) = Ok d
                /\ (forall p0, @None Path = Some p0 -> path_index h !! p0 = Some (eid d))
            | Raise e =>
                e = RecursionError
                \/ (@None Path = None /\ e = AmbiguousRoot)
                \/ exists p, e = NotFound p
            end).
    destruct (at_path (path r)) as [[d cs]|e].
    + destruct Hat as (? & ? & ?). repeat split; auto. discriminate.
    + destruct Hat as [?|?]; auto.
Qed.

Lemma dict_keys_set_present {V} k (v v0 : V) d :
  Dict.get k d = Some v0 -> Dict.keys (Dict.set k v d) = Dict.keys d.
Proof.
  induction d as [|[k0 v1] d IH]; simpl; [discriminate|].
  destruct (decide (k = k0)) as [->|Hne]; simpl; [reflexivity|].
  intros H. now rewrite IH.
Qed.


(** ** The tree view *)

Lemma TreeNode_forall_ind (P : TreeNode -> Prop) :
  (forall d, P (TNode d None)) ->
  (forall d l, Forall P l -> P (TNode d (Some l))) ->
  forall t, P t.
Proof.
  intros Hleaf Hdir. fix IH 1. intros [d [l|]]; [|apply Hleaf].
  apply Hdir. induction l as [|c l IHl]; constructor; [apply IH|exact IHl].
Qed.

Lemma sum_list_with_flat_map {A B} (f : B -> nat) (g : A -> list B) l :
  sum_list_with f (flat_map g l) = sum_list_with (fun a => sum_list_with f (g a)) l.
Proof.
  induction l as [|a l IH]; simpl; [reflexivity|].
  now rewrite sum_list_with_app, IH.
Qed.

Lemma sum_list_with_ext_Forall {A} (f g : A -> nat) l :
  Forall (fun a => f a = g a) l -> sum_list_with f l = sum_list_with g l.
Proof. induction 1 as [|a l E _ IH]; simpl; [reflexivity|]. now rewrite E, IH. Qed.

Lemma tree_sum_nodes mu t : tree_sum mu t = sum_list_with mu (tree_nodes t).
Proof.
  induction t as [d|d l IH] using TreeNode_forall_ind; simpl; [lia|].
  f_equal. rewrite sum_list_with_flat_map. now apply sum_list_with_ext_Forall.
Qed.

Lemma flat_map_ext_Forall {A B} (f g : A -> list B) l :
  Forall (fun a => f a = g a) l -> flat_map f l = flat_map g l.
Proof. induction 1 as [|a l E _ IH]; simpl; [reflexivity|]. now rewrite E, IH. Qed.

Lemma map_flat_map {A B C} (f : B -> C) (g : A -> list B) l :
  map f (flat_map g l) = flat_map (fun a => map f (g a)) l.
Proof. induction l as [|a l IH]; simpl; [reflexivity|]. now rewrite map_app, IH. Qed.

Lemma filter_flat_map {A B} (p : B -> bool) (g : A -> list B) l :
  List.filter p (flat_map g l) = flat_map (fun a => List.filter p (g a)) l.
Proof.
  induction l as [|a l IH]; simpl; [reflexivity|]. now rewrite List.filter_app, IH.
Qed.

(** Filtering the tree by a predicate on the node's own fields is filtering
    the list of its nodes. *)
Lemma tree_filter_nodes (pred : FSNode -> bool) t :
  map node_data (TreeView.filter (fun n => pred (node_data n)) t)
  = List.filter pred (tree_nodes t).
Proof.
  induction t as [d|d l IH] using TreeNode_forall_ind; cbn [TreeView.filter tree_nodes].
  - cbn. destruct (pred d); reflexivity.
  - rewrite map_app, map_flat_map.
    cbn [List.filter node_data]. rewrite filter_flat_map.
    rewrite (flat_map_ext_Forall _ _ _ IH).
    destruct (pred d); reflexivity.
Qed.

Lemma indicator_sum_pos (l : list FSNode) x :
  (0 < sum_list_with (fun d => if decide (eid d = x) then 1 else 0) l)%nat
  <-> x ∈ map eid l.
Proof.
  induction l as [|d l IH]; simpl.
  - rewrite elem_of_nil. lia.
  - rewrite elem_of_cons, <- IH. destruct (decide (eid d = x)) as [->|Hne].
    + split; [auto|lia].
    + split; [auto|]. intros [?|?]; [congruence|lia].
Qed.

Lemma indicator_sum_NoDup (l : list FSNode) :
  (forall x, (sum_list_with (fun d => if decide (eid d = x) then 1 else 0) l <= 1)%nat) ->
  NoDup (map eid l).
Proof.
  induction l as [|d l IH]; intros H; simpl; constructor.
  - intros Hin. apply indicator_sum_pos in Hin.
    specialize (H (eid d)). simpl in H. rewrite decide_True in H by reflexivity. lia.
  - apply IH. intros x. specialize (H x). simpl in H. lia.
Qed.

(** Every node of a built tree is the node the index stores under its eid. *)
Lemma build_stored h :
  keys_consistent h ->
  forall fuel n t, _build_tree_node fuel h n = Ok t ->
    Dict.get (eid n) (nodes h) = Some n ->
    Forall (fun d => Dict.get (eid d) (nodes h) = Some d) (tree_nodes t).
Proof.
  intros Hkeys. induction fuel as [|fuel IH]; intros n t; [discriminate|].
  rewrite build_unfold. destruct (type n) eqn:Hty.
  { intros [= <-] Hn. cbn. auto. }
  destruct (for_each _ _) as [ts|] eqn:Hts; [|discriminate].
  intros [= <-] Hn. cbn [tree_nodes]. constructor; [exact Hn|].
  revert ts Hts.
  generalize (elements (DefaultDict.get (children_index h) (eid n))) as l.
  induction l as [|c l IHl]; intros ts Hts.
  - injection Hts as <-. constructor.
  - apply for_each_ok_inv in Hts as (tc & ts0 & Hc & Hl & ->).
    cbn [flat_map]. apply Forall_app. split; [|now apply IHl].
    unfold get in Hc. destruct (Dict.get c (nodes h)) as [cn|] eqn:Hcn; [|discriminate].
    eapply IH; [exact Hc|]. now rewrite (Hkeys _ _ Hcn).
Qed.

Lemma filter_Permutation {A} (p : A -> bool) l l' :
  l ≡ₚ l' -> List.filter p l ≡ₚ List.filter p l'.
Proof.
  induction 1 as [|x l l' _ IH|x y l|l l' l'' _ IH1 _ IH2]; simpl.
  - reflexivity.
  - destruct (p x); [now constructor|assumption].
  - destruct (p x), (p y); try reflexivity. apply perm_swap.
  - now transitivity (List.filter p l').
Qed.

(** The tree built at the root of a top-down population holds exactly the
    nodes of the flat storage. *)
Lemma tree_nodes_are_values w root done h fuel t :
  indexed w done h -> NoDup done.*2 -> root ∈ done ->
  _build_tree_node fuel h (node_of w root) = Ok t ->
  (forall x, occurrences x t = if decide (x ∈ done.*2) then 1%nat else 0%nat) ->
  tree_nodes t ≡ₚ Dict.values (nodes h).
Proof.
  intros Hidx Hnd Hroot Hbuild Hocc.
  pose proof (indexed_keys _ _ _ Hidx) as Hkeys.
  pose proof (idx_nodes _ _ _ Hidx) as Hn.
  set (lk := fun e => default (node_of w root) (Dict.get e (nodes h))).
  assert (Hstored : Forall (fun d => Dict.get (eid d) (nodes h) = Some d) (tree_nodes t)).
  { eapply build_stored; [exact Hkeys|exact Hbuild|].
    rewrite Hn. now apply (as_dict_get (node_of w)). }
  assert (E1 : tree_nodes t = map lk (map eid (tree_nodes t))).
  { rewrite map_map. induction Hstored as [|d l Hd _ IH]; simpl; [reflexivity|].
    f_equal; [|exact IH]. unfold lk. now rewrite Hd. }
  assert (E2 : Dict.values (nodes h) = map lk done.*2).
  { transitivity (map (node_of w) done).
    { rewrite Hn. unfold Dict.values, as_dict. rewrite <- list_fmap_compose. reflexivity. }
    transitivity (map (fun pe => lk pe.2) done).
    - apply map_ext_in. intros pe Hin. apply list_elem_of_In in Hin.
      unfold lk. rewrite Hn. now rewrite (as_dict_get (node_of w) _ _ Hnd Hin).
    - change (done.*2) with (map snd done). now rewrite map_map. }
  rewrite E1, E2. apply Permutation_map.
  apply NoDup_Permutation; [|assumption|].
  - apply indicator_sum_NoDup. intros x.
    rewrite <- tree_sum_nodes. fold (occurrences x t). rewrite Hocc.
    destruct (decide _); lia.
  - intros x. rewrite <- indicator_sum_pos, <- tree_sum_nodes.
    fold (occurrences x t). rewrite Hocc. destruct (decide _); [split; [auto|lia]|].
    split; [lia|contradiction].
Qed.


Lemma string_app_assoc (a b c : string) : (a +:+ b) +:+ c = a +:+ (b +:+ c).
Proof.
  induction a as [|x a IH]; [reflexivity|].
  change (String x ((a +:+ b) +:+ c) = String x (a +:+ (b +:+ c))). now rewrite IH.
Qed.

Lemma str_mul_add s k n : str_mul s (k + n) = str_mul s k +:+ str_mul s n.
Proof.
  induction k as [|k IH]; cbn [str_mul Nat.add]; [reflexivity|].
  now rewrite IH, string_app_assoc.
Qed.


Lemma is_prefix_removelast l1 : forall l2,
  PathOps.is_prefix l1 (removelast l2) = true -> PathOps.is_prefix l1 l2 = true.
Proof.
  induction l1 as [|x l1 IH]; intros [|y l2]; simpl; try reflexivity; try discriminate.
  destruct l2 as [|z l2]; [discriminate|]. cbn [PathOps.is_prefix].
  intros H. apply andb_prop in H as [-> H]. simpl. now apply IH.
Qed.

Lemma relative_to_parent p r :
  PathOps.is_relative_to (PathOps.parent p) r = true -> PathOps.is_relative_to p r = true.
Proof.
  unfold PathOps.is_relative_to, PathOps.parent. cbn [anchored parts].
  intros H. apply andb_prop in H as [-> H]. simpl. now apply is_prefix_removelast.
Qed.

Lemma is_prefix_refl l : PathOps.is_prefix l l = true.
Proof.
  induction l as [|x l IH]; simpl; [reflexivity|].
  now rewrite bool_decide_eq_true_2, IH.
Qed.

Lemma top_down_below_root w r : forall rest seen,
  (forall q, q ∈ seen -> PathOps.is_relative_to q r = true) ->
  top_down_from w seen rest ->
  forall pe, pe ∈ rest -> PathOps.is_relative_to pe.1 r = true.
Proof.
  induction rest as [|x rest IH]; intros seen Hseen Htd pe Hin;
    [now apply elem_of_nil in Hin|].
  destruct Htd as [[Hpar _] Htd].
  assert (Hx : PathOps.is_relative_to x.1 r = true) by (apply relative_to_parent; auto).
  apply elem_of_cons in Hin as [->|Hin]; [exact Hx|].
  eapply (IH (seen ++ [x.1])); [|exact Htd|exact Hin].
  intros q Hq. apply elem_of_app in Hq as [Hq|Hq]; [auto|].
  apply list_elem_of_singleton in Hq. now subst.
Qed.

Lemma lone_root (r : FSNode) (l : list FSNode) :
  (forall m, In m l ->
     PathOps.is_relative_to (path m) (path r)
     && negb (bool_decide (path m = path r)) = true) ->
  List.filter
    (fun node =>
       negb (existsb (fun other =>
                        PathOps.is_relative_to (path node) (path other)
                        && negb (bool_decide (path node = path other)))
                     (r :: l)))
    (r :: l) = [r].
Proof.
  intros Hbelow. cbn [List.filter].
  assert (Hr : existsb (fun other =>
                 PathOps.is_relative_to (path r) (path other)
                 && negb (bool_decide (path r = path other))) (r :: l) = false).
  { apply not_true_is_false. intros Hex.
    apply existsb_exists in Hex as (m & [<-|Hm] & Hanc).
    - rewrite bool_decide_eq_true_2 in Hanc by reflexivity.
      now rewrite andb_false_r in Hanc.
    - apply proper_ancestor_shorter in Hanc.
      pose proof (proper_ancestor_shorter _ _ (Hbelow m Hm)). lia. }
  rewrite Hr. cbn [negb]. f_equal.
  assert (Hall : forall m, In m l ->
            negb (existsb (fun other =>
                    PathOps.is_relative_to (path m) (path other)
                    && negb (bool_decide (path m = path other))) (r :: l)) = false).
  { intros m Hm. apply negb_false_iff, existsb_exists.
    exists r. split; [now left|auto]. }
  clear Hr Hbelow. revert Hall.
  generalize (r :: l) as all. intros all.
  induction l as [|m l IH]; intros Hall; cbn; [reflexivity|].
  rewrite (Hall m (or_introl eq_refl)). apply IH. intros m' Hm'. apply Hall. now right.
Qed.


Section RefreshPass.
#[local] Arguments sha256_hexdigest : simpl never.

Lemma refresh_inode_settles i v i' :
  refresh_inode i = (Ok v, i') -> refresh_inode i' = (Ok v, i').
Proof.
  destruct i as [k dev ino mt xs wr rd]. unfold refresh_inode.
  cbn [xattr_writable xattrs with_xattrs kind readable].
  destruct wr; cbn [xattr_writable xattrs with_xattrs kind readable].
  - rewrite lookup_delete_eq.
    destruct k as [content| |]; [destruct rd|..]; intros [= <- <-];
      cbn [xattr_writable xattrs with_xattrs kind readable].
    + rewrite !lookup_delete_eq. now rewrite delete_insert_eq, delete_delete_eq.
    + now rewrite delete_delete_eq.
    + now rewrite delete_delete_eq.
  - destruct k as [content| |]; [|intros [= <- <-]; reflexivity..].
    destruct (xs !! "user.hyfs.cid") as [[[|a s]|raw]|] eqn:Hx;
      try destruct rd; intros [= <- <-];
      cbn [xattr_writable xattrs with_xattrs kind readable]; now rewrite ?Hx.
Qed.

Lemma refresh_inode_frame i :
  let i' := (refresh_inode i).2 in
  kind i' = kind i /\ st_dev i' = st_dev i /\ st_ino i' = st_ino i
  /\ st_mtime i' = st_mtime i /\ xattr_writable i' = xattr_writable i
  /\ readable i' = readable i
  /\ forall k, k ≠ "user.hyfs.cid" -> xattrs i' !! k = xattrs i !! k.
Proof.
  destruct i as [k dev ino mt xs wr rd]. unfold refresh_inode.
  cbn [xattr_writable xattrs with_xattrs kind readable].
  destruct wr; cbn [xattr_writable xattrs with_xattrs kind readable].
  - rewrite lookup_delete_eq.
    destruct k as [content| |]; [destruct rd|..];
      cbn [fst snd xattr_writable xattrs with_xattrs kind st_dev st_ino st_mtime readable];
      repeat split; intros key Hkey;
      rewrite ?lookup_insert_ne by congruence; now rewrite lookup_delete_ne by congruence.
  - destruct k as [content| |]; [|cbn; auto 10..].
    destruct (xs !! "user.hyfs.cid") as [[[|a s]|raw]|]; try destruct rd; cbn; auto 10.
Qed.

(** Where the store refuses writes, a turn leaves the entry as it is. *)
Lemma refresh_inode_read_only i :
  xattr_writable i = false -> (refresh_inode i).2 = i.
Proof.
  destruct i as [k dev ino mt xs wr rd]. cbn. intros ->. unfold refresh_inode.
  cbn [xattr_writable xattrs with_xattrs kind readable].
  destruct k as [content| |]; [|reflexivity..].
  destruct (xs !! "user.hyfs.cid") as [[[|a s]|raw]|]; try destruct rd; reflexivity.
Qed.

(** What a turn changes on the filesystem, whether it returns or raises. *)
Lemma body_world node w :
  (update_cids_body node w).2
  = match type node, w !! path node with
    | TFile, Some i => <[path node := (refresh_inode i).2]> w
    | _, _ => w
    end.
Proof.
  destruct (type node) eqn:Hty.
  - rewrite update_cids_body_exact by assumption.
    destruct (w !! path node) as [i|]; [|reflexivity].
    now destruct (refresh_inode i) as [[v|e] i'].
  - unfold update_cids_body. now rewrite Hty.
Qed.

Lemma body_settles node w node' w' :
  type node = TFile ->
  update_cids_body node w = (Ok node', w') ->
  exists v, node' = set_cid_slot node (Some v) /\ settled_at w' (path node) v.
Proof.
  intros Hty. rewrite update_cids_body_exact by assumption. unfold settled_at.
  destruct (w !! path node) as [i|] eqn:Hw.
  - destruct (refresh_inode i) as [[v|e] i'] eqn:Hr; [|discriminate].
    intros [= <- <-]. exists v. split; [reflexivity|]. rewrite lookup_insert_eq.
    eapply refresh_inode_settles; eassumption.
  - intros [= <- <-]. exists None. split; [reflexivity|]. now rewrite Hw.
Qed.

Lemma body_keeps_settled m w p v :
  settled_at w p v -> settled_at (update_cids_body m w).2 p v.
Proof.
  intros Hs. rewrite body_world. destruct (type m); [|exact Hs].
  destruct (w !! path m) as [i|] eqn:Hw; [|exact Hs].
  unfold settled_at in *. destruct (decide (path m = p)) as [E|Hne].
  - rewrite E in *. rewrite Hw in Hs. rewrite lookup_insert_eq, Hs. cbn [snd]. exact Hs.
  - now rewrite lookup_insert_ne by assumption.
Qed.

Lemma update_cids_keeps_settled ns : forall w p v,
  settled_at w p v -> settled_at (update_cids ns w).2 p v.
Proof.
  induction ns as [|n ns IH]; intros w p v Hs; simpl; [exact Hs|].
  unfold bind at 1.
  pose proof (body_keeps_settled n w p v Hs) as H1.
  destruct (update_cids_body n w) as [[n1|ex] w1]; [|exact H1]. cbn [snd] in H1.
  unfold bind, ret. specialize (IH w1 p v H1).
  destruct (update_cids ns w1) as [[ns'|ex] w']; exact IH.
Qed.

Lemma settled_body_fixpoint n v w :
  type n = TFile -> settled_at w (path n) v ->
  update_cids_body (set_cid_slot n (Some v)) w = (Ok (set_cid_slot n (Some v)), w).
Proof.
  intros Hty Hs. rewrite update_cids_body_exact by assumption.
  unfold settled_at in Hs. cbn [set_cid_slot path].
  destruct (w !! path n) as [i|] eqn:Hw.
  - rewrite Hs. now rewrite set_cid_slot_twice, insert_id.
  - subst v. now rewrite set_cid_slot_twice.
Qed.

Lemma update_cids_fixpoint ns : forall w,
  Forall (fun n => type n = TFile ->
                   exists n0 v, n = set_cid_slot n0 (Some v)
                                /\ settled_at w (path n) v) ns ->
  update_cids ns w = (Ok ns, w).
Proof.
  induction ns as [|n ns IH]; intros w Hall; simpl; [reflexivity|].
  apply Forall_cons in Hall as [Hn Hall].
  assert (Hb : update_cids_body n w = (Ok n, w)).
  { destruct (type n) eqn:Hty.
    - destruct (Hn eq_refl) as (n0 & v & -> & Hs).
      now apply settled_body_fixpoint.
    - unfold update_cids_body. now rewrite Hty. }
  unfold bind at 1. rewrite Hb. unfold bind, ret. now rewrite IH.
Qed.

(** X26. When [update_cids] returns, a second pass over its result returns
    too and changes neither the nodes nor the filesystem.  (A pass raises
    where reading [node.cid] does: on a file node whose file cannot be
    read, or whose cached cid is not UTF-8 and cannot be removed.) *)
Theorem update_cids_idempotent (ns ns' : list FSNode) (w w' : World) :
  update_cids ns w = (Ok ns', w') ->
  update_cids ns' w' = (Ok ns', w').
Proof.
  intros Hrun. apply update_cids_fixpoint.
  revert w ns' w' Hrun. induction ns as [|n ns IH]; intros w ns' w'; simpl.
  - unfold ret. intros [= <- <-]. constructor.
  - unfold bind at 1.
    destruct (update_cids_body n w) as [[n1|e] w1] eqn:Hb; [|discriminate].
    unfold bind at 1.
    destruct (update_cids ns w1) as [[ns1|e] w2] eqn:Hrest; [|discriminate].
    unfold ret. intros [= <- <-]. constructor; [|eapply IH; eassumption].
    intros Hty1.
    destruct (type n) eqn:Hty.
    + destruct (body_settles n w n1 w1 Hty Hb) as (v & -> & Hs).
      exists n, v. split; [reflexivity|].
      pose proof (update_cids_keeps_settled ns w1 _ _ Hs) as Hk.
      now rewrite Hrest in Hk.
    + unfold update_cids_body in Hb. rewrite Hty in Hb. unfold ret in Hb.
      injection Hb as <- <-. congruence.
Qed.

Lemma update_cids_cons_world n ns w :
  (update_cids (n :: ns) w).2 = (update_cids_body n w).2
  \/ (update_cids (n :: ns) w).2 = (update_cids ns (update_cids_body n w).2).2.
Proof.
  cbn [update_cids]. unfold bind, ret.
  destruct (update_cids_body n w) as [[n1|e] w1]; [|now left].
  right. cbn [snd].
  destruct (update_cids ns w1) as [[ns1|e] w2]; reflexivity.
Qed.

(** What a pass changes on the filesystem, path by path. *)
Lemma update_cids_world ns : forall w,
  (forall q, q ∉ file_paths ns -> (update_cids ns w).2 !! q = w !! q)
  /\ forall q, match w !! q, (update_cids ns w).2 !! q with
               | Some i, Some i' =>
                   kind i' = kind i /\ st_dev i' = st_dev i /\ st_ino i' = st_ino i
                   /\ st_mtime i' = st_mtime i /\ xattr_writable i' = xattr_writable i
                   /\ readable i' = readable i
                   /\ forall k, k ≠ "user.hyfs.cid" -> xattrs i' !! k = xattrs i !! k
               | None, None => True
               | _, _ => False
               end.
Proof.
  induction ns as [|n ns IH]; intros w.
  - cbn. split; [reflexivity|]. intros q. destruct (w !! q); auto 10.
  - assert (Hstep : (forall q, q ∉ file_paths [n] ->
                       (update_cids_body n w).2 !! q = w !! q)
                    /\ forall q, match w !! q, (update_cids_body n w).2 !! q with
                       | Some i, Some i' =>
                           kind i' = kind i /\ st_dev i' = st_dev i
                           /\ st_ino i' = st_ino i /\ st_mtime i' = st_mtime i
                           /\ xattr_writable i' = xattr_writable i
                           /\ readable i' = readable i
                           /\ forall k, k ≠ "user.hyfs.cid" ->
                                        xattrs i' !! k = xattrs i !! k
                       | None, None => True
                       | _, _ => False
                       end).
    { rewrite body_world. unfold file_paths. cbn [List.filter].
      destruct (type n) eqn:Hty; cbn [map].
      2: { split; [reflexivity|]. intros q. destruct (w !! q); auto 10. }
      destruct (w !! path n) as [i|] eqn:Hw.
      2: { split; [reflexivity|]. intros q. destruct (w !! q); auto 10. }
      split.
      - intros q Hq. rewrite lookup_insert_ne; [reflexivity|].
        intros E. apply Hq. rewrite E. now left.
      - intros q. destruct (decide (path n = q)) as [<-|Hne].
        + rewrite Hw, lookup_insert_eq. apply refresh_inode_frame.
        + rewrite lookup_insert_ne by assumption. destruct (w !! q); auto 10. }
    destruct Hstep as [Ha1 Hb1].
    pose proof (update_cids_cons_world n ns w) as Hw2.
    set (w1 := (update_cids_body n w).2) in *.
    destruct (IH w1) as [Ha2 Hb2].
    assert (Hfp : forall q, q ∉ file_paths (n :: ns) ->
                            (q ∉ file_paths [n]) /\ (q ∉ file_paths ns)).
    { intros q Hq. unfold file_paths in *. cbn [List.filter] in *.
      destruct (type n); cbn [map] in *.
      - rewrite not_elem_of_cons in Hq. destruct Hq as [Hq1 Hq2].
        split; [|assumption]. intros Hin. apply list_elem_of_singleton in Hin. congruence.
      - split; [apply not_elem_of_nil|assumption]. }
    destruct Hw2 as [-> | ->].
    + split.
      * intros q Hq. apply Ha1. now apply Hfp.
      * exact Hb1.
    + split.
      * intros q Hq. destruct (Hfp q Hq). rewrite Ha2, Ha1; auto.
      * intros q. specialize (Hb1 q). specialize (Hb2 q).
        destruct (w !! q), (w1 !! q), ((update_cids ns w1).2 !! q); try tauto.
        destruct Hb1 as (?&?&?&?&?&?&Hx1), Hb2 as (?&?&?&?&?&?&Hx2).
        repeat split; try congruence. intros k Hk. now rewrite Hx2, Hx1.
Qed.

(** X27. Whether [update_cids] returns or raises, it changes nothing on the
    filesystem at the paths of other inodes than those of its file nodes,
    and nowhere anything but the [user.hyfs.cid] attribute.  When it
    returns, the nodes come back in the same order with the same path, eid
    and type, directory nodes unchanged and file nodes with their metadata
    less a [cid] key.  (A hard link of a listed file shares its
    attributes, so it is not covered by the first part.) *)
Theorem update_cids_frame (ns : list FSNode) (w : World) :
  only_cid_attr_changes (file_paths ns) w (update_cids ns w).2
  /\ forall ns',
       (update_cids ns w).1 = Ok ns' ->
       Forall2 (fun n n' => path n' = path n /\ eid n' = eid n /\ type n' = type n
                            /\ match type n with
                               | TDir => n' = n
                               | TFile => metadata n' = meta_del "cid" (metadata n)
                               end) ns ns'.
Proof.
  split.
  - destruct (update_cids_world ns w) as [Ha Hb]. split; [|exact Hb].
    intros q Hq. destruct (decide (q ∈ file_paths ns)) as [Hin|Hnin]; [|now apply Ha].
    specialize (Hb q). destruct (w !! q) as [i|] eqn:Hwq.
    + exfalso. apply (Hq q Hin). exists i, i. auto.
    + now destruct ((update_cids ns w).2 !! q).
  - revert w. induction ns as [|n ns IH]; intros w ns'; simpl.
    + intros [= <-]. constructor.
    + unfold bind at 1.
      destruct (update_cids_body n w) as [[n1|e] w1] eqn:Hb; [|discriminate].
      unfold bind at 1. specialize (IH w1).
      destruct (update_cids ns w1) as [[ns1|e] w2]; [|discriminate].
      unfold ret. intros [= <-]. constructor; [|now apply IH].
      destruct (type n) eqn:Hty.
      * apply (f_equal fst) in Hb. cbn [fst] in Hb.
        rewrite update_cids_body_exact in Hb by assumption.
        destruct (w !! path n) as [i|];
          [destruct (refresh_inode i) as [[v|e] i']; [|discriminate]|];
          injection Hb as <-; cbn; auto.
      * apply (f_equal fst) in Hb. cbn [fst] in Hb.
        unfold update_cids_body in Hb. rewrite Hty in Hb.
        injection Hb as <-. auto.
Qed.

(** X28. Where the attribute store of every file node refuses writes, a
    pass of [update_cids] that returns leaves the filesystem as it is and
    gives each file node what [_compute_cid] returns there: a non-empty
    cached cid survives the pass, however stale, because the removal fails
    silently and the recompute trusts the cache. *)
Theorem update_cids_on_read_only_store (ns ns' : list FSNode) (w w' : World) :
  (forall n i, n ∈ ns -> type n = TFile -> w !! path n = Some i ->
               xattr_writable i = false) ->
  update_cids ns w = (Ok ns', w') ->
  w' = w
  /\ Forall2 (fun n n' =>
                match type n with
                | TDir => n' = n
                | TFile =>
                    exists v,
                      n' = set_cid_slot n (Some v)
                      /\ (_compute_cid (path n) w).1 = Ok v
                      /\ forall i content c,
                           w !! path n = Some i -> kind i = RegularFile content ->
                           xattrs i !! "user.hyfs.cid" = Some (Utf8 c) ->
                           c ≠ EmptyString -> v = Some c
                end) ns ns'.
Proof.
  revert ns' w'. induction ns as [|n ns IH]; intros ns' w' Hro; simpl.
  - unfold ret. intros [= <- <-]. split; [reflexivity|constructor].
  - unfold bind at 1.
    destruct (update_cids_body n w) as [[n1|e] w1] eqn:Hb; [|discriminate].
    assert (Hw1 : w1 = w).
    { pose proof (body_world n w) as Hbw. rewrite Hb in Hbw. cbn [snd] in Hbw.
      rewrite Hbw. destruct (type n) eqn:Hty; [|reflexivity].
      destruct (w !! path n) as [i|] eqn:Hw; [|reflexivity].
      rewrite refresh_inode_read_only by (eapply (Hro n); [now left|..]; eassumption).
      now apply insert_id. }
    subst w1. unfold bind at 1.
    destruct (update_cids ns w) as [[ns1|e] w2] eqn:Hrest; [|discriminate].
    unfold ret. intros [= <- <-].
    destruct (IH ns1 w2) as [-> Hall]; [|reflexivity|].
    { intros m i Hm. apply Hro. now right. }
    split; [reflexivity|]. constructor; [|exact Hall].
    destruct (type n) eqn:Hty.
    + apply (f_equal fst) in Hb. cbn [fst] in Hb.
      rewrite update_cids_body_exact in Hb by assumption.
      rewrite compute_cid_spec.
      destruct (w !! path n) as [i|] eqn:Hw.
      * pose proof (Hro n i ltac:(now left) Hty Hw) as Hwr.
        destruct i as [k dev ino mt xs wr rd]. cbn in Hwr. subst wr.
        unfold refresh_inode in Hb. cbn [xattr_writable kind xattrs readable] in *.
        destruct k as [content| |];
          [destruct (xs !! "user.hyfs.cid") as [[[|a s]|raw]|] eqn:Hx;
           try destruct rd|..];
          cbn [fst snd] in *; try discriminate; injection Hb as <-;
          eexists; (split; [reflexivity|]); (split; [reflexivity|]);
          intros i c0 c [= <-]; cbn; try discriminate;
          intros [= <-]; rewrite Hx; congruence.
      * injection Hb as <-. eexists. split; [reflexivity|].
        split; [reflexivity|]. discriminate.
    + apply (f_equal fst) in Hb. cbn [fst] in Hb.
      unfold update_cids_body in Hb. rewrite Hty in Hb. now injection Hb as <-.
Qed.

End RefreshPass.

(** ** Scanning *)

Lemma add_node_resolved h p rnd w :
  add_node h p None rnd [] w
  = match _compute_eid rnd p w with
    | (Ok e, w1) =>
        (Ok (e, MkHyFS
                  (Dict.set e (MkNode p e (if OS.is_dir w1 p then TDir else TFile) [] None)
                            (nodes h))
                  (<[p := e]> (path_index h))
                  (if truthy (<[p := e]> (path_index h) !! PathOps.parent p)
                   then DefaultDict.add (children_index h)
                          (default EmptyString
                             (<[p := e]> (path_index h) !! PathOps.parent p)) e
                   else children_index h)
                  (tags h) (eid_tags h)), w1)
    | (Raise ex, w1) => (Raise ex, w1)
    end.
Proof.
  unfold add_node, bind, get_world, ret. cbn [has_key existsb orb].
  now destruct (_compute_eid rnd p w) as [[e|ex] w1].
Qed.

Lemma ensured_decodable_iff path i attr :
  decodable (ensured path i) attr <-> decodable i attr.
Proof.
  unfold ensured. destruct (xattrs i !! xattr_key "ctime") eqn:Hc; [reflexivity|].
  destruct (xattr_writable i); [|reflexivity].
  unfold decodable. cbn [xattrs with_xattrs].
  destruct (decide (attr = xattr_key "ctime")) as [->|Hne].
  - rewrite lookup_insert_eq, Hc. split; intros _ raw; discriminate.
  - now rewrite lookup_insert_ne by congruence.
Qed.

(** A resolution rewrites the entry of its path, and leaves its identity
    attributes decodable, or not, as they were. *)
Lemma compute_eid_world rnd path w i :
  w !! path = Some i ->
  exists i', (_compute_eid rnd path w).2 = <[path := i']> w
             /\ (decodable i' (xattr_key "ctime") <-> decodable i (xattr_key "ctime"))
             /\ (decodable i' (xattr_key "uuid") <-> decodable i (xattr_key "uuid")).
Proof.
  intros Hw.
  assert (Hne : xattr_key "ctime" ≠ xattr_key "uuid")
    by (intros E; apply xattr_key_inj in E; discriminate).
  destruct (compute_eid_cases rnd path w i Hw)
    as [(raw & _ & ->)|(_ & [(raw & _ & ->)|[(c & u & _ & ->)|(Hu & ->)]])];
    cbn [snd].
  - exists i. now rewrite insert_id.
  - exists (ensured path i). auto using ensured_decodable_iff.
  - exists (ensured path i). auto using ensured_decodable_iff.
  - destruct (xattr_writable i); cbn [snd];
      [|exists (ensured path i); auto using ensured_decodable_iff].
    eexists. split; [reflexivity|]. unfold decodable at 1 3.
    cbn [xattrs with_xattrs]. split.
    + rewrite <- (ensured_decodable_iff path i). unfold decodable.
      split; intros H raw; specialize (H raw);
        now rewrite lookup_insert_ne in * by congruence.
    + rewrite lookup_insert_eq. split; intros _ raw; [|discriminate].
      destruct Hu as [Hu|Hu]; rewrite Hu; discriminate.
Qed.

Lemma compute_eid_keeps_resolvable rnd path w q :
  resolvable (_compute_eid rnd path w).2 q <-> resolvable w q.
Proof.
  destruct (w !! path) as [i|] eqn:Hw.
  2: { now rewrite (compute_eid_missing _ _ _ Hw). }
  destruct (compute_eid_world rnd path w i Hw) as (i' & -> & Hc & Hu).
  unfold resolvable. destruct (decide (q = path)) as [->|Hne].
  - rewrite lookup_insert_eq, Hw.
    split; intros (j & [= <-] & Hdc & Hdu); eexists; (split; [reflexivity|]); tauto.
  - now rewrite lookup_insert_ne by congruence.
Qed.

(** How a resolution ends, by what it finds. *)
Lemma compute_eid_outcome rnd path w :
  match (_compute_eid rnd path w).1 with
  | Ok _ => resolvable w path
  | Raise e =>
      (e = OSError ENOENT /\ w !! path = None)
      \/ (e = UnicodeDecodeError /\ is_Some (w !! path) /\ ~ resolvable w path)
  end.
Proof.
  destruct (w !! path) as [i|] eqn:Hw.
  2: { rewrite (compute_eid_missing _ _ _ Hw). cbn. auto. }
  unfold resolvable. rewrite Hw.
  destruct (compute_eid_cases rnd path w i Hw)
    as [(raw & Hc & ->)|(Hd & [(raw & Hu & ->)|[(c & u & Hu & ->)|(Hu & ->)]])];
    cbn [fst].
  - right. split; [reflexivity|]. split; [eauto|].
    intros (j & [= <-] & Hdc & _). now destruct (Hdc raw).
  - right. split; [reflexivity|]. split; [eauto|].
    intros (j & [= <-] & _ & Hdu). now destruct (Hdu raw).
  - exists i. split; [reflexivity|]. split; [exact Hd|]. intros raw. congruence.
  - assert (Hdu : decodable i (xattr_key "uuid"))
      by (intros raw; destruct Hu; congruence).
    destruct (xattr_writable i); cbn [fst]; eauto.
Qed.

Lemma scan_outcome listing : forall rnds h0 w,
  match (add_nodes h0 (scan_calls listing rnds) w).1 with
  | Ok _ => forall p, p ∈ listing -> resolvable w p
  | Raise e =>
      (e = OSError ENOENT /\ exists p, p ∈ listing /\ w !! p = None)
      \/ (e = UnicodeDecodeError
          /\ exists p, p ∈ listing /\ is_Some (w !! p) /\ ~ resolvable w p)
  end.
Proof.
  induction listing as [|p rest IH]; intros rnds h0 w; cbn [scan_calls add_nodes].
  - cbn. intros p Hp. now apply elem_of_nil in Hp.
  - unfold bind at 1. rewrite add_node_resolved.
    pose proof (compute_eid_keeps_entries (hd 0%Z rnds) p w) as Hkeep.
    pose proof (compute_eid_keeps_resolvable (hd 0%Z rnds) p w) as Hres.
    pose proof (compute_eid_outcome (hd 0%Z rnds) p w) as Hout.
    destruct (_compute_eid (hd 0%Z rnds) p w) as [[e|ex] w1] eqn:Hrun;
      cbn [fst snd] in *.
    + specialize (IH (tl rnds)
        (MkHyFS
           (Dict.set e (MkNode p e (if OS.is_dir w1 p then TDir else TFile) [] None)
                     (nodes h0))
           (<[p := e]> (path_index h0))
           (if truthy (<[p := e]> (path_index h0) !! PathOps.parent p)
            then DefaultDict.add (children_index h0)
                   (default EmptyString
                      (<[p := e]> (path_index h0) !! PathOps.parent p)) e
            else children_index h0)
           (tags h0) (eid_tags h0)) w1).
      destruct (add_nodes _ _ w1).1 as [h|ex].
      * intros q Hq. apply elem_of_cons in Hq as [->|Hq]; [exact Hout|].
        apply Hres. now apply IH.
      * destruct IH as [(-> & q & Hq & Hnone)|(-> & q & Hq & Hsome & Hnot)].
        -- left. split; [reflexivity|]. exists q. split; [now right|].
           destruct (w !! q) eqn:Hwq; [|reflexivity].
           assert (Hs : is_Some (w1 !! q)) by (apply Hkeep; eauto).
           rewrite Hnone in Hs. now destruct Hs.
        -- right. split; [reflexivity|]. exists q. split; [now right|].
           split; [now apply Hkeep|]. intros Hr. apply Hnot. now apply Hres.
    + destruct Hout as [(-> & Hnone)|(-> & Hsome & Hnot)].
      * left. split; [reflexivity|]. exists p. split; [now left|assumption].
      * right. split; [reflexivity|]. exists p. split; [now left|]. auto.
Qed.


Lemma dict_set_length {V} k (v : V) d :
  (length (Dict.set k v d) <= S (length d))%nat.
Proof.
  induction d as [|[k0 v0] d IH]; simpl; [lia|].
  destruct (decide (k = k0)); simpl; lia.
Qed.

Lemma scan_index listing : forall rnds h0 w h,
  (add_nodes h0 (scan_calls listing rnds) w).1 = Ok h ->
  (forall p e, path_index h0 !! p = Some e -> e ≠ EmptyString) ->
  (forall p e, path_index h !! p = Some e -> e ≠ EmptyString)
  /\ (forall p, is_Some (path_index h !! p) <-> p ∈ listing \/ is_Some (path_index h0 !! p))
  /\ (length (nodes h) <= length (nodes h0) + length listing)%nat.
Proof.
  induction listing as [|p rest IH]; intros rnds h0 w h; cbn [scan_calls add_nodes].
  - unfold ret. intros [= <-] Hne. split; [exact Hne|]. split; [|lia].
    intros p. rewrite elem_of_nil. tauto.
  - unfold bind at 1.
    destruct (add_node h0 p None (hd 0%Z rnds) [] w) as [[[e h1]|ex] w1] eqn:Hadd;
      [|discriminate].
    intros Hrest Hne.
    pose proof (add_node_eid_nonempty _ _ _ _ _ _ _ _ Hadd) as He.
    apply add_node_ok in Hadd. cbv zeta in Hadd. destruct Hadd as (En & Ep & _).
    destruct (IH _ _ _ _ Hrest) as (Hne' & Hdom & Hlen).
    { intros q c. rewrite Ep. destruct (decide (q = p)) as [->|Hq].
      - rewrite lookup_insert_eq. now intros [= <-].
      - rewrite lookup_insert_ne by congruence. apply Hne. }
    split; [exact Hne'|]. split.
    + intros q. rewrite Hdom, Ep, elem_of_cons.
      destruct (decide (q = p)) as [->|Hq].
      * rewrite lookup_insert_eq. split; eauto.
      * rewrite lookup_insert_ne by congruence. tauto.
    + rewrite En in Hlen. pose proof (dict_set_length e
        (MkNode p e (if OS.is_dir w1 p then TDir else TFile) [] None) (nodes h0)).
      cbn [length]. lia.
Qed.

(** X30. After a successful [scan_fs], the paths that
    [find_by_path] resolves are exactly the listed ones; each resolves to a
    stored node with a non-empty eid, and there are at most as many nodes as
    listed paths. *)
Theorem scan_fs_indexes_every_path (listing : list Path) (rnds : list Z)
    (w : World) (h : HyFS) :
  (scan_fs listing rnds w).1 = Ok h ->
  (forall p, p ∈ listing <->
             exists n, find_by_path h p = Some n /\ eid n ≠ EmptyString
                       /\ path_index h !! p = Some (eid n) /\ get h (eid n) = Ok n)
  /\ (length (Dict.values (nodes h)) <= length listing)%nat.
Proof.
  unfold scan_fs. intros Hscan.
  pose proof (add_nodes_well_formed _ _ _ _ Hscan well_formed_init) as [Hk _ Hp _].
  destruct (scan_index _ _ _ _ _ Hscan) as (Hne & Hdom & Hlen).
  { intros p e. cbn. now rewrite lookup_empty. }
  split.
  - intros p. split.
    + intros Hin. destruct (proj2 (Hdom p) (or_introl Hin)) as [e He].
      destruct (Hp _ _ He) as [n Hn]. pose proof (Hk _ _ Hn) as Heid.
      pose proof (Hne _ _ He) as Hnonempty.
      exists n. unfold find_by_path, get. rewrite He, Heid, Hn.
      destruct e; [congruence|]. cbn. rewrite Hn. auto.
    + intros (n & _ & _ & Hpi & _).
      destruct (proj1 (Hdom p)) as [?|Hs]; [eauto|assumption|].
      cbn in Hs. rewrite lookup_empty in Hs. now destruct Hs.
  - unfold Dict.values. rewrite length_map. cbn in Hlen. lia.
Qed.

(** ** Instances *)

Example sha256_abc :
  sha256_hexdigest (list_byte_of_string "abc")
  = "ba7816bf8f01cfea414140de5dae2223b00361a396177a9cb410ff61f20015ad".
Proof. vm_compute. reflexivity. Qed.

Example sha256_empty :
  sha256_hexdigest []
  = "e3b0c44298fc1c149afbf4c8996fb92427ae41e4649b934ca495991b7852b855".
Proof. vm_compute. reflexivity. Qed.

Example sha256_two_blocks :
  sha256_hexdigest
    (list_byte_of_string "abcdbcdecdefdefgefghfghighijhijkijkljklmklmnlmnomnopnopq")
  = "248d6a61d20638b8e5c026930c3e6039a33ce45964ff2167f6ecedd419db06c1".
Proof. vm_compute. reflexivity. Qed.

Example str_uuid4_example :
  str_uuid (uuid4 12345678901234567890123456789)
  = "00000000-27e4-4b32-86be-c9b16e398115".
Proof. vm_compute. reflexivity. Qed.

Example fallback_eid_example :
  (_compute_eid 7 Examples.abc_txt Examples.readonly_abc_world).1
  = Ok "1ff5683e-b496-c416-98fc-99183a3c6b2e".
Proof. vm_compute. reflexivity. Qed.

Example resolve_twice_stores_uuid :
  (_compute_eid 1 Examples.abc_txt Examples.writable_abc_world).1
  = Ok "00000000-0000-4000-8000-000000000001"
  /\ (_compute_eid 2 Examples.abc_txt
        (_compute_eid 1 Examples.abc_txt Examples.writable_abc_world).2).1
     = Ok "00000000-0000-4000-8000-000000000001".
Proof. split; vm_compute; reflexivity. Qed.

Example resolve_twice_fallback :
  (_compute_eid 2 Examples.abc_txt
     (_compute_eid 1 Examples.abc_txt Examples.readonly_abc_world).2).1
  = Ok "1ff5683e-b496-c416-98fc-99183a3c6b2e".
Proof. vm_compute. reflexivity. Qed.

Example update_cids_stale_example :
  (update_cids [Examples.stale_node] Examples.stale_world).1
  = Ok [set_cid_slot Examples.stale_node
          (Some (Some "ba7816bf8f01cfea414140de5dae2223b00361a396177a9cb410ff61f20015ad"))].
Proof. vm_compute. reflexivity. Qed.

(** What the code raises on a file it may not read, on an attribute that
    is not UTF-8, and on a [type=] keyword. *)
Example compute_cid_unreadable_example :
  (_compute_cid Examples.abc_txt Examples.unreadable_abc_world).1
  = Raise (OSError EACCES)
  /\ (update_cids [MkNode Examples.abc_txt "eid-abc" TFile [] None]
                  Examples.unreadable_abc_world).1
     = Raise (OSError EACCES).
Proof. split; vm_compute; reflexivity. Qed.

Example compute_eid_undecodable_example :
  (_compute_eid 7 Examples.abc_txt Examples.undecodable_uuid_world).1
  = Raise UnicodeDecodeError
  /\ (scan_fs [Examples.abc_txt] [] Examples.undecodable_uuid_world).1
     = Raise UnicodeDecodeError.
Proof. split; vm_compute; reflexivity. Qed.

Example add_node_type_keyword_example :
  (add_node HyFS_init Examples.proj (Some "e0"%string) 0 [("type", "x")]%string
            Examples.proj_world).1
  = Raise TypeError.
Proof. reflexivity. Qed.

Example cid_preset_by_keyword_example :
  cid (MkNode Examples.abc_txt "eid-abc" TFile [("cid", "preset")]%string None)
      Examples.writable_abc_world
  = (Ok (Some "preset"%string,
         MkNode Examples.abc_txt "eid-abc" TFile [("cid", "preset")]%string None),
     Examples.writable_abc_world).
Proof. reflexivity. Qed.



Lemma fallback_eid_deterministic_witness :
  _compute_eid 7 Examples.abc_txt Examples.readonly_abc_world
  = (Ok (spec_fallback_eid (st_dev Examples.readonly_abc_inode)
                           (st_ino Examples.readonly_abc_inode)
                           (ctime_marker Examples.readonly_abc_inode)),
     Examples.readonly_abc_world)
  /\ uuid_shaped (spec_fallback_eid (st_dev Examples.readonly_abc_inode)
                                    (st_ino Examples.readonly_abc_inode)
                                    (ctime_marker Examples.readonly_abc_inode)) = true.
Proof.
  apply (fallback_eid_deterministic 7 Examples.abc_txt Examples.readonly_abc_world
           Examples.readonly_abc_inode).
  - vm_compute. reflexivity.
  - exists None. vm_compute. reflexivity.
  - exists None. split; vm_compute; reflexivity.
  - vm_compute. reflexivity.
Defined.

Lemma tag_mutual_inverse_witness :
  "e2" ∈ (tagged (untag (tag (tag HyFS_init "e1" "draft") "e2" "draft") "e1" "draft")
                 "draft").1
  <-> "draft" ∈ (tags_of (untag (tag (tag HyFS_init "e1" "draft") "e2" "draft")
                                "e1" "draft") "e2").1.
Proof.
  apply (tag_mutual_inverse
           (untag (tag (tag HyFS_init "e1" "draft") "e2" "draft") "e1" "draft")
           "e2" "draft").
  apply reach_untag, reach_tag, reach_tag, reach_init.
Defined.

Lemma compute_cid_correct_witness :
  _compute_cid Examples.dot Examples.readonly_abc_world
  = (Ok None, Examples.readonly_abc_world)
  /\ (_compute_cid Examples.abc_txt Examples.readonly_abc_world).1
     = Ok (Some (sha256_hexdigest (list_byte_of_string "abc"))).
Proof.
  split.
  - apply (proj1 (compute_cid_correct Examples.dot Examples.readonly_abc_world)).
    vm_compute. reflexivity.
  - apply (proj2 (compute_cid_correct Examples.abc_txt Examples.readonly_abc_world)
             Examples.readonly_abc_inode (list_byte_of_string "abc")).
    + vm_compute. reflexivity.
    + reflexivity.
    + reflexivity.
    + vm_compute. reflexivity.
Defined.

Lemma update_cids_recomputes_eagerly_witness :
  Forall2 (refreshed Examples.stale_world
             (update_cids [Examples.stale_node] Examples.stale_world).2)
    [Examples.stale_node]
    [set_cid_slot Examples.stale_node
       (Some (Some "ba7816bf8f01cfea414140de5dae2223b00361a396177a9cb410ff61f20015ad"))].
Proof.
  apply (update_cids_recomputes_eagerly
           [Examples.stale_node]
           [set_cid_slot Examples.stale_node
              (Some (Some "ba7816bf8f01cfea414140de5dae2223b00361a396177a9cb410ff61f20015ad"))]
           Examples.stale_world
           (update_cids [Examples.stale_node] Examples.stale_world).2).
  apply injective_projections; [vm_compute; reflexivity|reflexivity].
Defined.

Lemma no_root_is_ambiguous_witness :
  tree 5 HyFS_init None = Raise AmbiguousRoot.
Proof.
  apply (proj1 (no_root_is_ambiguous 5 HyFS_init)).
  vm_compute. discriminate.
Defined.


Lemma resolver_eid_shape_witness :
  str_uuid (uuid4 7) ≠ EmptyString
  /\ (if truthy (@None string)
      then @None string = Some (str_uuid (uuid4 7))
      else uuid_shaped (str_uuid (uuid4 7)) = true).
Proof.
  apply (resolver_eid_shape 7 Examples.abc_txt Examples.writable_abc_world
           (_compute_eid 7 Examples.abc_txt Examples.writable_abc_world).2
           (str_uuid (uuid4 7)) None).
  - apply injective_projections; [vm_compute; reflexivity|reflexivity].
  - vm_compute. reflexivity.
Defined.


Lemma compute_cid_trusts_cache_witness :
  _compute_cid Examples.abc_txt Examples.stale_world
  = (Ok (Some "stale"%string), Examples.stale_world).
Proof.
  apply (compute_cid_trusts_cache Examples.abc_txt Examples.stale_world "stale").
  - vm_compute. reflexivity.
  - vm_compute. reflexivity.
  - discriminate.
Defined.

Lemma cid_property_is_pinned_witness :
  cid Examples.stale_node Examples.writable_abc_world
  = (Ok (Some "stale"%string, Examples.stale_node), Examples.writable_abc_world).
Proof.
  apply (cid_property_is_pinned Examples.stale_node Examples.stale_node
           Examples.stale_world Examples.stale_world (Some "stale"%string)).
  reflexivity.
Defined.

Lemma untag_undoes_tag_witness :
  untag (tag (tag HyFS_init "e1" "draft") "e2" "draft") "e2" "draft"
  = tag HyFS_init "e1" "draft".
Proof.
  apply (untag_undoes_tag (tag HyFS_init "e1" "draft") "e2" "draft").
  - apply reach_tag, reach_init.
  - vm_compute. discriminate.
Defined.

Lemma lookups_keep_tagging_witness :
  ("e1" ∈ (tagged (tagged (tag HyFS_init "e1" "draft") "final").2 "draft").1
   <-> "draft" ∈ (tags_of (tagged (tag HyFS_init "e1" "draft") "final").2 "e1").1)
  /\ (forall t', (tagged (tagged (tagged (tag HyFS_init "e1" "draft") "final").2 t').2
                         "draft").1
                 = (tagged (tagged (tag HyFS_init "e1" "draft") "final").2 "draft").1)
  /\ (forall e', (tagged (tags_of (tagged (tag HyFS_init "e1" "draft") "final").2 e').2
                         "draft").1
                 = (tagged (tagged (tag HyFS_init "e1" "draft") "final").2 "draft").1)
  /\ (forall t', (tags_of (tagged (tagged (tag HyFS_init "e1" "draft") "final").2 t').2
                          "e1").1
                 = (tags_of (tagged (tag HyFS_init "e1" "draft") "final").2 "e1").1)
  /\ (forall e', (tags_of (tags_of (tagged (tag HyFS_init "e1" "draft") "final").2 e').2
                          "e1").1
                 = (tags_of (tagged (tag HyFS_init "e1" "draft") "final").2 "e1").1).
Proof.
  apply (lookups_keep_tagging (tagged (tag HyFS_init "e1" "draft") "final").2
           "e1" "draft").
  apply calls_tagged, calls_tag, calls_init.
Defined.

Lemma add_node_then_lookup_witness :
  let node := MkNode Examples.proj "e0"
                (if OS.is_dir Examples.proj_world Examples.proj then TDir else TFile)
                [] None in
  get (add_entry Examples.proj_world HyFS_init (Examples.proj, "e0"%string)) "e0" = Ok node
  /\ path_index (add_entry Examples.proj_world HyFS_init (Examples.proj, "e0"%string))
       !! Examples.proj = Some "e0"%string
  /\ ("e0"%string ≠ EmptyString ->
      find_by_path (add_entry Examples.proj_world HyFS_init (Examples.proj, "e0"%string))
                   Examples.proj = Some node)
  /\ (Some "e0"%string = None -> "e0"%string ≠ EmptyString).
Proof.
  apply (add_node_then_lookup HyFS_init Examples.proj (Some "e0"%string) 0 []
           Examples.proj_world Examples.proj_world "e0"
           (add_entry Examples.proj_world HyFS_init (Examples.proj, "e0"%string))).
  reflexivity.
Defined.


Lemma tree_of_built_index_witness :
  match tree 5 Examples.two_roots_index (Some Examples.srv) with
  | Ok (TNode d cs as t) =>
      children_match Examples.two_roots_index t
      /\ get Examples.two_roots_index (eid d) = Ok d
      /\ (forall p, Some Examples.srv = Some p ->
                    path_index Examples.two_roots_index !! p = Some (eid d))
  | Raise e =>
      e = RecursionError
      \/ (Some Examples.srv = None /\ e = AmbiguousRoot)
      \/ exists p, e = NotFound p
  end.
Proof.
  apply (tree_of_built_index Examples.two_roots_calls Examples.two_roots_world
           Examples.two_roots_index).
  vm_compute. reflexivity.
Defined.



Lemma compute_cid_idempotent_witness :
  _compute_cid Examples.abc_txt
    (_compute_cid Examples.abc_txt Examples.writable_abc_world).2
  = (Ok (Some (sha256_hexdigest (list_byte_of_string "abc"))),
     (_compute_cid Examples.abc_txt Examples.writable_abc_world).2).
Proof.
  apply (compute_cid_idempotent Examples.abc_txt Examples.writable_abc_world
           (_compute_cid Examples.abc_txt Examples.writable_abc_world).2
           (Some (sha256_hexdigest (list_byte_of_string "abc")))).
  apply injective_projections; [vm_compute; reflexivity|reflexivity].
Defined.

Lemma update_cids_idempotent_witness :
  update_cids
    [set_cid_slot Examples.stale_node
       (Some (Some "ba7816bf8f01cfea414140de5dae2223b00361a396177a9cb410ff61f20015ad"))]
    (update_cids [Examples.stale_node] Examples.stale_world).2
  = (Ok [set_cid_slot Examples.stale_node
           (Some (Some "ba7816bf8f01cfea414140de5dae2223b00361a396177a9cb410ff61f20015ad"))],
     (update_cids [Examples.stale_node] Examples.stale_world).2).
Proof.
  apply (update_cids_idempotent [Examples.stale_node] _ Examples.stale_world).
  apply injective_projections; [vm_compute; reflexivity|reflexivity].
Defined.

Lemma update_cids_on_read_only_store_witness :
  (update_cids [Examples.stale_node] Examples.readonly_stale_world).2
  = Examples.readonly_stale_world
  /\ Forall2 (fun n n' =>
                match type n with
                | TDir => n' = n
                | TFile =>
                    exists v,
                      n' = set_cid_slot n (Some v)
                      /\ (_compute_cid (path n) Examples.readonly_stale_world).1 = Ok v
                      /\ forall i content c,
                           Examples.readonly_stale_world !! path n = Some i ->
                           kind i = RegularFile content ->
                           xattrs i !! "user.hyfs.cid" = Some (Utf8 c) ->
                           c ≠ EmptyString -> v = Some c
                end)
       [Examples.stale_node]
       [set_cid_slot Examples.stale_node (Some (Some "stale"%string))].
Proof.
  apply (update_cids_on_read_only_store [Examples.stale_node] _
           Examples.readonly_stale_world).
  - intros n i Hin _ Hw. apply list_elem_of_singleton in Hin. subst n.
    vm_compute in Hw. injection Hw as <-. reflexivity.
  - apply injective_projections; [vm_compute; reflexivity|reflexivity].
Defined.

Lemma scan_fs_indexes_every_path_witness :
  (forall p, p ∈ Examples.cwd_listing <->
             exists n, find_by_path Examples.cwd_index p = Some n /\ eid n ≠ EmptyString
                       /\ path_index Examples.cwd_index !! p = Some (eid n)
                       /\ get Examples.cwd_index (eid n) = Ok n)
  /\ (length (Dict.values (nodes Examples.cwd_index)) <= length Examples.cwd_listing)%nat.
Proof.
  apply (scan_fs_indexes_every_path Examples.cwd_listing [] Examples.cwd_world
           Examples.cwd_index).
  vm_compute. reflexivity.
Defined.

